(** * youtube-channels: the deduplicating store, the channel extractor and
      the batch runner

    A shallow embedding of [src/core/output.py], [src/extractors/base.py],
    [src/extractors/channel.py], [src/config_loader.py],
    [src/scrapers/base.py], [src/scrapers/youtube.py] and [batch.py],
    with the properties of the specification stated over it.

    Conventions.
    - A Python [str] is a [string]; one [ascii] stands for one code point
      below 256.  A text file is the [str] that decoding it yields.
    - A directory is a finite map from file names to file contents.
    - A [set[str]] is a [gset string], a [dict] with string keys and values
      is a [gmap string string].
    - Code that can raise returns an [outcome].
    - What a configuration gives for [type] and for the options is a Python
      [value] of any type; what is asked with [.get] is a mapping or a
      value that has no [get].  The entries of [selectors] and [search]
      are strings. *)

From Stdlib Require Import String Ascii List Bool Arith Lia ZArith.
From Stdlib Require Import Floats.SpecFloat.
From stdpp Require Import base strings gmap list sets pretty.

(** ** Python text operations used by the sources *)
Module Text.

Definition LF : ascii := "010"%char.
Definition CR : ascii := "013"%char.

(** The line terminator written by [f.write(f"{item}\n")]. *)
Definition nl : string := String LF EmptyString.

(** [str.isspace] on one character, for the code points below 256:
    U+0009..U+000D, U+001C..U+001F, U+0020, U+0085 and U+00A0. *)
Definition isspace (c : ascii) : bool :=
  let n := nat_of_ascii c in
  ((9 <=? n) && (n <=? 13)) || ((28 <=? n) && (n <=? 31))
  || (n =? 32) || (n =? 133) || (n =? 160).

(** [str.lstrip()]. *)
Fixpoint lstrip (s : string) : string :=
  match s with
  | EmptyString => EmptyString
  | String c s' => if isspace c then lstrip s' else s
  end.

(** [str.rstrip()]. *)
Fixpoint rstrip (s : string) : string :=
  match s with
  | EmptyString => EmptyString
  | String c s' =>
      match rstrip s' with
      | EmptyString => if isspace c then EmptyString else String c EmptyString
      | r => String c r
      end
  end.

(** [str.strip()]. *)
Definition strip (s : string) : string := rstrip (lstrip s).

(** Reading in text mode with the default [newline=None]: the terminators
    CR LF and CR are both delivered as LF.  [after_cr] records that the
    previous character was a CR, whose LF has already been delivered. *)
Fixpoint universal_newlines (after_cr : bool) (s : string) : string :=
  match s with
  | EmptyString => EmptyString
  | String c s' =>
      if Ascii.eqb c CR then String LF (universal_newlines true s')
      else if Ascii.eqb c LF then
        if after_cr then universal_newlines false s'
        else String LF (universal_newlines false s')
      else String c (universal_newlines false s')
  end.

(** The lines of a decoded text, each with its terminating LF; the last one
    has none when the text does not end in LF. *)
Fixpoint readlines (s : string) : list string :=
  match s with
  | EmptyString => []
  | String c s' =>
      if Ascii.eqb c LF then String c EmptyString :: readlines s'
      else match readlines s' with
           | [] => [String c EmptyString]
           | l :: ls => String c l :: ls
           end
  end.

(** [for line in open(path, "r", encoding="utf-8")]. *)
Definition file_lines (content : string) : list string :=
  readlines (universal_newlines false content).

(** The reader's state after a text: was its last character a CR ([p]
    answers for the empty text). *)
Fixpoint ends_cr (p : bool) (s : string) : bool :=
  match s with
  | EmptyString => p
  | String c s' => ends_cr (Ascii.eqb c CR) s'
  end.

(** Empty, or ending in LF. *)
Fixpoint ends_lf (s : string) : bool :=
  match s with
  | EmptyString => true
  | String c EmptyString => Ascii.eqb c LF
  | String _ s' => ends_lf s'
  end.

(** [bool(s)] for a [str]. *)
Definition truthy (s : string) : bool := negb (String.eqb s EmptyString).

(** [s.startswith(p)]. *)
Definition startswith (s p : string) : bool := String.prefix p s.

End Text.

(** ** [src/core/output.py] *)
Module Output.
Import Text.

(** The files of [self.output_dir], by name. *)
Abbreviation files := (gmap string string).

(** The loop body shared by [append] and [load_existing]:
    [value = line.strip(); if value and value != column_name: existing.add(value)]. *)
Definition add_line (column_name : string) (existing : gset string) (line : string)
  : gset string :=
  let value := strip line in
  if truthy value && negb (String.eqb value column_name)
  then existing ∪ {[ value ]}
  else existing.

Definition scan (column_name : string) (lines : list string) : gset string :=
  foldl (add_line column_name) ∅ lines.

(** [OutputManager.load_existing]. *)
Definition load_existing (fs : files) (filename column_name : string) : gset string :=
  match fs !! filename with
  | Some content => scan column_name (file_lines content)
  | None => ∅
  end.

(** The list comprehension of [append]:
    [[item for item in data if item not in existing]] or [data]. *)
Definition new_items (existing : gset string) (data : list string) (deduplicate : bool)
  : list string :=
  if deduplicate then filter (λ item, item ∉ existing) data else data.

(** The successive [f.write] calls on a file opened in mode ["a"]. *)
Definition write_items (content : string) (items : list string) : string :=
  foldl (λ acc item, acc +:+ item +:+ nl) content items.

(** The text that the write loop appends, as one string. *)
Definition lines_text (items : list string) : string :=
  foldr (λ item rest, item +:+ nl +:+ rest) EmptyString items.

(** [open(filepath, "a")] followed by the header when [write_header] holds:
    the content that the items are appended to. *)
Definition open_append (fs : files) (filename column_name : string) : string :=
  match fs !! filename with
  | None => column_name +:+ nl
  | Some content => content
  end.

(** [OutputManager.append]: the files afterwards and the returned count.
    The body runs under [self._lock], so one call is one atomic step. *)
Definition append (fs : files) (data : list string) (filename column_name : string)
    (deduplicate : bool) : files * nat :=
  let existing := load_existing fs filename column_name in
  let items := new_items existing data deduplicate in
  match items with
  | [] => (fs, 0)
  | _ =>
      (<[filename := write_items (open_append fs filename column_name) items]> fs,
       length items)
  end.

(** The keys that a line of the key file can hold without being altered by
    the reader: non-empty, already stripped, free of line breaks, and not
    the header token. *)
Fixpoint no_linebreak (s : string) : bool :=
  match s with
  | EmptyString => true
  | String c s' => negb (Ascii.eqb c LF) && negb (Ascii.eqb c CR) && no_linebreak s'
  end.

Definition storable (column_name k : string) : bool :=
  truthy k && String.eqb (strip k) k && no_linebreak k
  && negb (String.eqb k column_name).

(** A header token that the reader recognises when it reads it back. *)
Definition header_ok (column_name : string) : bool :=
  String.eqb (strip column_name) column_name && no_linebreak column_name.

(** A key file is line-terminated when it is empty or ends in a line
    terminator; [append] only ever produces such files. *)
Fixpoint line_terminated (s : string) : bool :=
  match s with
  | EmptyString => true
  | String c EmptyString => Ascii.eqb c LF || Ascii.eqb c CR
  | String _ s' => line_terminated s'
  end.

Definition store_ok (fs : files) (filename : string) : Prop :=
  ∀ content, fs !! filename = Some content → line_terminated content = true.

(** The directories in which the key file is the work of the store alone:
    it did not exist, and calls of [append] made it what it is. *)
Inductive produced (filename : string) : files → Prop :=
  | produced_absent (fs : files) :
      fs !! filename = None → produced filename fs
  | produced_append (fs : files) (data : list string) (column_name : string)
      (deduplicate : bool) :
      produced filename fs →
      produced filename (append fs data filename column_name deduplicate).1.

End Output.

(** ** Exceptions *)
Module Py.

(** The result of code that can raise: a value, or the message [str(e)] of
    the raised [Exception]. *)
Inductive outcome (A : Type) : Type :=
  | Ok (a : A)
  | Raise (e : string).
Arguments Ok {A} a.
Arguments Raise {A} e.

#[export] Instance outcome_ret : MRet outcome := @Ok.
#[export] Instance outcome_bind : MBind outcome :=
  λ A B f m, match m with Ok a => f a | Raise e => Raise e end.

(** [d.get(key, default)]. *)
Definition dict_get (d : gmap string string) (key fallback : string) : string :=
  default fallback (d !! key).

(** [bool(d.get(key))]. *)
Definition get_truthy (d : gmap string string) (key : string) : bool :=
  match d !! key with
  | Some v => Text.truthy v
  | None => false
  end.

(** A value of a parsed YAML file, as Python has it: [None], a [bool], an
    [int], a [float] (an IEEE number, together with its [str]), a [str],
    or an object of another type (a list, a mapping, a date), of which the
    model keeps what the sources ask of it: the name of its type, its
    [str], whether it can be hashed, and its truth value. *)
Inductive value :=
  | VNone
  | VBool (b : bool)
  | VInt (z : Z)
  | VFloat (x : spec_float) (shown : string)
  | VStr (s : string)
  | VOther (type_name shown : string) (hashable truth : bool).

(** [type(v).__name__]. *)
Definition type_name (v : value) : string :=
  match v with
  | VNone => "NoneType"
  | VBool _ => "bool"
  | VInt _ => "int"
  | VFloat _ _ => "float"
  | VStr _ => "str"
  | VOther t _ _ _ => t
  end.

(** [str(v)], which is also how an f-string shows [v]. *)
Definition str (v : value) : string :=
  match v with
  | VNone => "None"
  | VBool b => if b then "True" else "False"
  | VInt z => pretty z
  | VFloat _ shown => shown
  | VStr s => s
  | VOther _ shown _ _ => shown
  end.

(** [bool(v)]. *)
Definition truth (v : value) : bool :=
  match v with
  | VNone => false
  | VBool b => b
  | VInt z => negb (z =? 0)%Z
  | VFloat x _ => match x with S754_zero _ => false | _ => true end
  | VStr s => Text.truthy s
  | VOther _ _ _ t => t
  end.

(** What is read with [.get(key, {})] and then asked with [.get]: a
    mapping (the empty one when the key is absent), or a value of a type
    that has no [get]; and the message of the [AttributeError] that
    [.get] raises on the latter. *)
Inductive part (A : Type) : Type :=
  | Mapping (a : A)
  | NotMapping (v : value).
Arguments Mapping {A} a.
Arguments NotMapping {A} v.

Definition no_get (v : value) : string :=
  "'" +:+ type_name v +:+ "' object has no attribute 'get'".

(** [range(v)] as a [for] loop uses it: the number of iterations, none for
    a negative number, or the [TypeError]. *)
Definition range (v : value) : outcome nat :=
  match v with
  | VBool b => Ok (if b then 1 else 0)
  | VInt z => Ok (Z.to_nat z)
  | _ => Raise ("'" +:+ type_name v +:+ "' object cannot be interpreted as an integer")
  end.

(** [time.sleep(v)] in CPython 3.11: the pause is converted to a signed
    64-bit number of nanoseconds, which fails for a value that is no
    number, for NaN and for a pause too long to convert (up to the rounding
    of a float at the bound); a negative pause is refused.  A pause that is
    accepted is slept. *)
Definition TOO_LARGE : string := "timestamp too large to convert to C _PyTime_t".

Definition too_long (m : positive) (e : Z) : bool :=
  (if 0 <=? e then 2 ^ 63 <? Z.pos m * 2 ^ e * 10 ^ 9
   else 2 ^ 63 * 2 ^ (- e) <? Z.pos m * 10 ^ 9)%Z.

Definition sleep (v : value) : outcome unit :=
  match v with
  | VBool _ => Ok tt
  | VInt z =>
      if (2 ^ 63 <? Z.abs z * 10 ^ 9)%Z then Raise TOO_LARGE
      else if (z <? 0)%Z then Raise "sleep length must be non-negative"
      else Ok tt
  | VFloat x _ =>
      match x with
      | S754_nan => Raise "Invalid value NaN (not a number)"
      | S754_infinity _ => Raise TOO_LARGE
      | S754_zero _ => Ok tt
      | S754_finite negative m e =>
          if too_long m e then Raise TOO_LARGE
          else if negative then Raise "sleep length must be non-negative"
          else Ok tt
      end
  | _ => Raise ("'" +:+ type_name v +:+ "' object cannot be interpreted as an integer")
  end.

End Py.

(** ** [src/extractors/base.py] and [src/extractors/channel.py] *)
Module Extractors.
Import Text Py.

(** The browser, as far as the extractor looks at it.  An element answers
    [find_element(By.CSS_SELECTOR, selector)]; what was found has a [text]
    and attributes; each access can raise. *)
Record FoundElement := {
  text : outcome string;
  get_attribute : string → outcome (option string)
}.

Record WebElement := {
  find_element : string → outcome FoundElement
}.

(** The page that [driver.get(url)] loads. *)
Record Page := {
  until_present : string → outcome unit;
  execute_script : outcome unit;
  find_elements : string → outcome (list WebElement)
}.

Record WebDriver := {
  driver_get : string → outcome Page;
  quit : outcome unit
}.

(** The [options] of a configuration, with the keys the sources read;
    [None] is a key that is absent. *)
Record Options := {
  max_scroll : option value;
  scroll_pause : option value;
  headless : option value
}.

(** A configuration that [yaml.safe_load] has parsed to a mapping, with the
    keys the sources read.  [type] is absent or any value, [null] included;
    [options] is a mapping or something else.  [selectors] and [search] are
    taken to be mappings of strings. *)
Record Config := {
  type_ : option value;
  selectors : gmap string string;
  search : gmap string string;
  options : part Options
}.

(** [BaseExtractor.safe_get_text]. *)
Definition safe_get_text (element : WebElement) (selector : string) : string :=
  match find_element element selector with
  | Ok found =>
      match text found with
      | Ok t => strip t
      | Raise _ => EmptyString
      end
  | Raise _ => EmptyString
  end.

(** [BaseExtractor.safe_get_attribute]. *)
Definition safe_get_attribute (element : WebElement) (selector attr : string) : string :=
  match find_element element selector with
  | Ok found =>
      match get_attribute found attr with
      | Ok (Some v) => if truthy v then v else EmptyString
      | Ok None => EmptyString
      | Raise _ => EmptyString
      end
  | Raise _ => EmptyString
  end.

(** [BaseExtractor.wait_for_element]. *)
Definition wait_for_element (page : Page) (selector : string) : outcome unit :=
  until_present page selector.

(** [BaseExtractor.scroll_page], called without arguments, so that
    [times or ...] and [pause or ...] are what [self.options.get] gives:
    the body of the loop runs the script and then sleeps. *)
Fixpoint scroll_loop (page : Page) (scroll_pause : value) (n : nat) : outcome unit :=
  match n with
  | O => Ok tt
  | S n' =>
      _ ← execute_script page;
      _ ← sleep scroll_pause;
      scroll_loop page scroll_pause n'
  end.

Definition scroll_page (page : Page) (config : Config) : outcome unit :=
  match options config with
  | NotMapping v => Raise (no_get v)
  | Mapping options =>
      let max_scroll := default (VInt 5) (max_scroll options) in
      let scroll_pause := default (VInt 2) (scroll_pause options) in
      n ← range max_scroll;
      scroll_loop page scroll_pause n
  end.

(** [ChannelExtractor.build_search_url]. *)
Definition build_search_url (config : Config) (query : string) : string :=
  let search_config := search config in
  let base_url := dict_get search_config "base_url" "https://www.youtube.com/results" in
  let query_param := dict_get search_config "query_param" "search_query" in
  let filter_param := dict_get search_config "filter_param" "sp" in
  let filter_value := dict_get search_config "filter_value" "EgIQAg%3D%3D" in
  base_url +:+ "?" +:+ query_param +:+ "=" +:+ query
  +:+ "&" +:+ filter_param +:+ "=" +:+ filter_value.

(** [ChannelExtractor._extract_channel_data]. *)
Definition _extract_channel_data (config : Config) (item : WebElement)
  : gmap string string :=
  let channel_url :=
    safe_get_attribute item (dict_get (selectors config) "channel_url" "#main-link") "href" in
  let channel_url :=
    if truthy channel_url && negb (startswith channel_url "http")
    then "https://www.youtube.com" +:+ channel_url
    else channel_url in
  <["channel_name" :=
      safe_get_text item (dict_get (selectors config) "channel_name" "#text")]>
  (<["channel_url" := channel_url]>
  (<["subscribers" :=
      safe_get_text item (dict_get (selectors config) "subscribers" "#subscribers")]>
  (<["video_count" :=
      safe_get_text item (dict_get (selectors config) "video_count" "#video-count")]>
  (<["description" :=
      safe_get_text item (dict_get (selectors config) "description" "#description")]>
   ∅)))).

(** The loop of [extract] over the found elements: its body, and the loop
    from the empty list. *)
Definition keep_usable (config : Config) (channels : list (gmap string string))
    (item : WebElement) : list (gmap string string) :=
  let channel := _extract_channel_data config item in
  if get_truthy channel "channel_url" then channels ++ [channel] else channels.

Definition collect_channels (config : Config) (items : list WebElement)
  : list (gmap string string) :=
  foldl (keep_usable config) [] items.

(** [ChannelExtractor.extract]. *)
Definition extract (driver : WebDriver) (config : Config) (query : string)
  : outcome (list (gmap string string)) :=
  let url := build_search_url config query in
  page ← driver_get driver url;
  let container_selector :=
    dict_get (selectors config) "item_container" "ytd-channel-renderer" in
  match wait_for_element page container_selector with
  | Raise _ => Ok []
  | Ok _ =>
      _ ← scroll_page page config;
      items ← find_elements page container_selector;
      Ok (collect_channels config items)
  end.

(** A URI scheme in the sense of RFC 3986, section 3.1: a letter, then
    letters, digits, [+], [-] or [.], then a colon.  This is the reading of
    the specification's words "starting with a scheme". *)
Definition is_alpha (c : ascii) : bool :=
  let n := nat_of_ascii c in
  ((65 <=? n) && (n <=? 90)) || ((97 <=? n) && (n <=? 122)).

Definition is_scheme_char (c : ascii) : bool :=
  let n := nat_of_ascii c in
  is_alpha c || ((48 <=? n) && (n <=? 57)) || (n =? 43) || (n =? 45) || (n =? 46).

Fixpoint scheme_tail (s : string) : bool :=
  match s with
  | EmptyString => false
  | String c s' =>
      if Ascii.eqb c ":"%char then true
      else if is_scheme_char c then scheme_tail s' else false
  end.

Definition starts_with_scheme (s : string) : bool :=
  match s with
  | EmptyString => false
  | String c s' => is_alpha c && scheme_tail s'
  end.

End Extractors.

(** ** [src/config_loader.py], [src/scrapers/base.py], [src/scrapers/youtube.py] *)
Module Scrapers.
Import Text Py Extractors.

(** [ConfigLoader.load]: the configuration directory maps a file name to
    what [yaml.safe_load] makes of the file: it raises, or it returns a
    mapping or a value of another type ([None] for an empty file). *)
Definition load (config_dir : gmap string (outcome (part Config)))
    (dir_name config_name : string) : outcome (part Config) :=
  let config_path := dir_name +:+ "/" +:+ config_name +:+ ".yaml" in
  match config_dir !! (config_name +:+ ".yaml") with
  | None => Raise ("Config file not found: " +:+ config_path)
  | Some parsed => parsed
  end.

Inductive extractor_class := ChannelExtractor.

(** [YouTubeScraper.EXTRACTORS]. *)
Definition EXTRACTORS : gmap string extractor_class :=
  {[ "channel" := ChannelExtractor ]}.

Record YouTubeScraper := {
  config : Config;
  factory_headless : bool;
  _extractor_class : extractor_class
}.

(** [EXTRACTORS.get(v)]: the keys are strings, which no value of another
    type equals; a value that cannot be hashed raises a [TypeError]. *)
Definition EXTRACTORS_get (v : value) : outcome (option extractor_class) :=
  match v with
  | VStr s => Ok (EXTRACTORS !! s)
  | VOther t _ false _ => Raise ("unhashable type: '" +:+ t +:+ "'")
  | _ => Ok None
  end.

(** [YouTubeScraper._get_extractor_class]. *)
Definition _get_extractor_class (config : Config) : outcome extractor_class :=
  let extractor_type := default (VStr "channel") (type_ config) in
  extractor_class ← EXTRACTORS_get extractor_type;
  match extractor_class with
  | None => Raise ("Unknown extractor type: " +:+ str extractor_type)
  | Some extractor_class => Ok extractor_class
  end.

(** [YouTubeScraper.__init__] on top of [BaseScraper.__init__], with the
    default [config_dir="config"]: [self.config.get("options", {})] needs
    the parsed file to be a mapping, and [.get("headless", True)] needs
    the options to be one; the factory keeps the value, of which
    [_build_options] takes the truth value.  The output directory that
    [OutputManager] creates in between is not part of the model. *)
Definition YouTubeScraper_init (config_dir : gmap string (outcome (part Config)))
    (config_name : string) : outcome YouTubeScraper :=
  parsed ← load config_dir "config" config_name;
  match parsed with
  | NotMapping v => Raise (no_get v)
  | Mapping config =>
      match options config with
      | NotMapping v => Raise (no_get v)
      | Mapping options =>
          let headless := default (VBool true) (headless options) in
          extractor_class ← _get_extractor_class config;
          Ok {| config := config; factory_headless := truth headless;
                _extractor_class := extractor_class |}
      end
  end.

(** [YouTubeScraper.scrape]; [created] is what [WebDriverFactory.create]
    gives to this call.  The session's [finally] clause quits the driver,
    and what [quit] raises replaces the outcome of the body. *)
Definition scrape (created : outcome WebDriver) (self : YouTubeScraper) (query : string)
  : outcome (list (gmap string string)) :=
  driver ← created;
  let results :=
    match _extractor_class self with
    | ChannelExtractor => extract driver (config self) query
    end in
  _ ← quit driver;
  results.

(** The configuration failures of the specification: the file is missing,
    it cannot be parsed, or it names an extraction type that is not
    registered. *)
Definition config_invalid (config_dir : gmap string (outcome (part Config)))
    (config_name : string) : bool :=
  match config_dir !! (config_name +:+ ".yaml") with
  | None => true
  | Some (Raise _) => true
  | Some (Ok (NotMapping _)) => false
  | Some (Ok (Mapping config)) =>
      match EXTRACTORS_get (default (VStr "channel") (type_ config)) with
      | Ok (Some _) => false
      | _ => true
      end
  end.

(** [main.py] up to the scrape: the scraper is built and run with no
    handler around it. *)
Definition main (config_dir : gmap string (outcome (part Config)))
    (create : bool → outcome WebDriver) (config_name query : string)
  : outcome (list (gmap string string)) :=
  scraper ← YouTubeScraper_init config_dir config_name;
  scrape (create (factory_headless scraper)) scraper query.

End Scrapers.

(** ** [batch.py] *)
Module Batch.
Import Text Py Output Extractors Scrapers.

Definition MASTER_FILE : string := "all_channels.csv".
Definition COLUMN_NAME : string := "channel_url".

(** What lies outside the program during a run: the configuration
    directory, and the browser session that [WebDriverFactory.create]
    hands to each task (tasks are numbered in submission order). *)
Record World := {
  config_dir : gmap string (outcome (part Config));
  create : nat → bool → outcome WebDriver
}.

(** A [BatchRunner]: its configuration name, the files of its
    [OutputManager], and the in-memory set [collected_urls]. *)
Record BatchRunner := {
  config_name : string;
  output : files;
  collected_urls : gset string
}.

(** [BatchRunner.__init__]. *)
Definition BatchRunner_init (fs : files) (name : string) : BatchRunner :=
  {| config_name := name;
     output := fs;
     collected_urls := load_existing fs MASTER_FILE COLUMN_NAME |}.

(** The [try] body of [_scrape_keyword] up to [scraper.scrape(keyword)]. *)
Definition attempt (w : World) (task : nat) (name keyword : string)
  : outcome (list (gmap string string)) :=
  scraper ← YouTubeScraper_init (config_dir w) name;
  scrape (create w task (factory_headless scraper)) scraper keyword.

(** [[r["channel_url"] for r in results if r.get("channel_url")]]. *)
Definition urls_of (results : list (gmap string string)) : list string :=
  omap (λ r, match r !! "channel_url" with
             | Some u => if truthy u then Some u else None
             | None => None
             end) results.

(** [BatchRunner._scrape_keyword]: the runner afterwards and the returned
    triple.  The store is appended to under its lock and the in-memory set
    is updated right after; no other thread reads in between anything but
    [collected_urls], so the call is taken as one step. *)
Definition _scrape_keyword (w : World) (task : nat) (self : BatchRunner) (keyword : string)
  : BatchRunner * (string * nat * option string) :=
  match attempt w task (config_name self) keyword with
  | Ok results =>
      match results with
      | _ :: _ =>
          let urls := urls_of results in
          let '(fs, new_count) := append (output self) urls MASTER_FILE COLUMN_NAME true in
          ({| config_name := config_name self;
              output := fs;
              collected_urls := collected_urls self ∪ list_to_set urls |},
           (keyword, new_count, None))
      | [] => (self, (keyword, 0, None))
      end
  | Raise e => (self, (keyword, 0, Some e))
  end.

(** *** The thread pool of [run]

    [ThreadPoolExecutor] and [as_completed] belong to the Python library;
    the model takes from their documentation what [run] relies on.  Work
    items are started in submission order by at most [max_workers] workers;
    [as_completed] yields each finished future once;
    [shutdown(wait=False, cancel_futures=True)] cancels the futures that
    have not started and lets the running ones finish; leaving the [with]
    block waits for the workers. *)
Inductive fstate :=
  | PENDING
  | RUNNING
  | CANCELLED
  | FINISHED (result : string * nat * option string).

Record future := {
  kw : string;
  st : fstate;
  consumed : bool       (* already yielded by [as_completed] *)
}.

(** Where the main thread is in [run]: in the [for] loop, past it and
    leaving the [with] block, or returned after logging the total. *)
Inductive phase :=
  | Iterating
  | Joining
  | Returned (total : nat).

Record state := {
  runner : BatchRunner;
  futures : list future;
  main_thread : phase
}.

Inductive action :=
  | Start              (* an idle worker takes the next work item *)
  | Finish (i : nat)   (* the call of future [i] returns *)
  | Next (i : nat)     (* [as_completed] yields future [i]; the loop body runs *)
  | Stop               (* [as_completed] is exhausted; the loop ends *)
  | Exit.              (* the workers are joined; the summary is logged *)

Definition is_pending (f : future) : bool :=
  match st f with PENDING => true | _ => false end.

Definition is_running (f : future) : bool :=
  match st f with RUNNING => true | _ => false end.

Definition set_st (f : future) (x : fstate) : future :=
  {| kw := kw f; st := x; consumed := consumed f |}.

Definition running (fs : list future) : nat :=
  length (filter (λ f, is_running f = true) fs).

Definition set_consumed (f : future) : future :=
  {| kw := kw f; st := st f; consumed := true |}.

(** The first pending future becomes running. *)
Fixpoint start_next (fs : list future) : option (list future) :=
  match fs with
  | [] => None
  | f :: rest =>
      if is_pending f then Some (set_st f RUNNING :: rest)
      else cons f <$> start_next rest
  end.

(** [cancel_futures=True]. *)
Definition cancel_pending (fs : list future) : list future :=
  map (λ f, if is_pending f then set_st f CANCELLED else f) fs.

(** [{executor.submit(self._scrape_keyword, kw): kw for kw in keywords}]. *)
Definition submit_all (keywords : list string) : list future :=
  map (λ k, {| kw := k; st := PENDING; consumed := false |}) keywords.

Definition init_state (r : BatchRunner) (keywords : list string) : state :=
  {| runner := r; futures := submit_all keywords; main_thread := Iterating |}.

Definition step (w : World) (target max_workers : nat) (a : action) (s : state)
  : option state :=
  match a with
  | Start =>
      if decide (running (futures s) < max_workers) then
        fs ← start_next (futures s);
        Some {| runner := runner s; futures := fs; main_thread := main_thread s |}
      else None
  | Finish i =>
      match futures s !! i with
      | Some f =>
          match st f with
          | RUNNING =>
              let '(r, result) := _scrape_keyword w i (runner s) (kw f) in
              Some {| runner := r;
                      futures := <[i := set_st f (FINISHED result)]> (futures s);
                      main_thread := main_thread s |}
          | _ => None
          end
      | None => None
      end
  | Next i =>
      match main_thread s, futures s !! i with
      | Iterating, Some f =>
          match st f, consumed f with
          | FINISHED _, false =>
              let fs := <[i := set_consumed f]> (futures s) in
              if decide (target ≤ size (collected_urls (runner s))) then
                Some {| runner := runner s;
                        futures := cancel_pending fs;
                        main_thread := Joining |}
              else
                Some {| runner := runner s; futures := fs; main_thread := Iterating |}
          | _, _ => None
          end
      | _, _ => None
      end
  | Stop =>
      match main_thread s with
      | Iterating =>
          if forallb consumed (futures s) then
            Some {| runner := runner s; futures := futures s; main_thread := Joining |}
          else None
      | _ => None
      end
  | Exit =>
      match main_thread s with
      | Joining =>
          if forallb (λ f, negb (is_pending f) && negb (is_running f)) (futures s) then
            Some {| runner := runner s;
                    futures := futures s;
                    main_thread := Returned (size (collected_urls (runner s))) |}
          else None
      | _ => None
      end
  end.

(** A run prefix: the actions taken one after the other. *)
Fixpoint exec (w : World) (target max_workers : nat) (acts : list action) (s : state)
  : option state :=
  match acts with
  | [] => Some s
  | a :: rest => s' ← step w target max_workers a s; exec w target max_workers rest s'
  end.

(** [[line.strip() for line in f if line.strip()]]. *)
Definition read_keywords (content : string) : list string :=
  omap (λ line, let k := strip line in if truthy k then Some k else None)
       (file_lines content).

(** [BatchRunner.run] up to the submission of the tasks: a missing keywords
    file is logged and the method returns; a pool without workers is
    refused by the executor. *)
Inductive started :=
  | NoKeywordsFile
  | PoolRefused (e : string)
  | Submitted (s : state).

Definition run_start (r : BatchRunner) (keywords_file : option string) (max_workers : nat)
  : started :=
  match keywords_file with
  | None => NoKeywordsFile
  | Some content =>
      if decide (max_workers = 0) then PoolRefused "max_workers must be greater than 0"
      else Submitted (init_state r (read_keywords content))
  end.

(** The steps that a state still allows at most: two per pending future,
    one per running future, one per future still to be yielded, and the
    end of the loop and of the [with] block. *)
Definition work_left (f : future) : nat :=
  match st f with PENDING => 2 | RUNNING => 1 | _ => 0 end.

Definition to_yield (f : future) : nat := if consumed f then 0 else 1.

Definition unconsumed (fs : list future) : nat := sum_list_with to_yield fs.

Definition steps_left (s : state) : nat :=
  sum_list_with work_left (futures s)
  + match main_thread s with
    | Iterating => 2 + unconsumed (futures s)
    | Joining => 1
    | Returned _ => 0
    end.

(** The main thread has left the loop because the target was reached: no
    future is waiting to start, and the total is at least the target. *)
Definition stopped (target : nat) (s : state) : Prop :=
  main_thread s ≠ Iterating
  ∧ Forall (λ f, st f ≠ PENDING) (futures s)
  ∧ target ≤ size (collected_urls (runner s))
  ∧ ∀ total, main_thread s = Returned total → target ≤ total.

(** What the task of a finished future scraped is in the in-memory set and,
    as far as it is storable, among the keys on disk. *)
Definition merged (w : World) (name : string) (s : state) : Prop :=
  ∀ j f result results u,
    futures s !! j = Some f → st f = FINISHED result →
    attempt w j name (kw f) = Ok results → u ∈ urls_of results →
    u ∈ collected_urls (runner s)
    ∧ (storable COLUMN_NAME u = true →
       u ∈ load_existing (output (runner s)) MASTER_FILE COLUMN_NAME).

(** What holds in every state of a run. *)
Record run_invariant (w : World) (name : string) (s : state) : Prop := {
  inv_name : config_name (runner s) = name;
  inv_store : store_ok (output (runner s)) MASTER_FILE;
  inv_iterating :
    main_thread s = Iterating → Forall (λ f, st f ≠ CANCELLED) (futures s);
  inv_merged : merged w name s;
  inv_returned :
    ∀ total, main_thread s = Returned total →
             total = size (collected_urls (runner s))
             ∧ Forall (λ f, st f ≠ PENDING ∧ st f ≠ RUNNING) (futures s)
}.

(** Every finished future of [fs'] is the same finished future in [fs]. *)
Definition finished_in (fs' fs : list future) : Prop :=
  ∀ j f' result,
    fs' !! j = Some f' → st f' = FINISHED result →
    ∃ f, fs !! j = Some f ∧ kw f = kw f' ∧ st f = FINISHED result.

(** Every task that has finished failed with [e], and the runner is still
    [r]. *)
Definition all_failed (e : string) (r : BatchRunner) (s : state) : Prop :=
  runner s = r
  ∧ ∀ j f result,
      futures s !! j = Some f → st f = FINISHED result →
      result = (kw f, 0, Some e).

(** A future whose result [as_completed] can yield next. *)
Definition ready (f : future) : bool :=
  match st f with
  | FINISHED _ => negb (consumed f)
  | _ => false
  end.

End Batch.

(** ** [src/core/output.py], the structured output:
      [_generate_filename] and [save], and [BaseScraper.save] on top *)
Module Saving.
Import Text Py Output.

(** [str.isalnum] on one character, for the code points below 256: the
    digits and letters of ASCII, the letters of Latin-1, and the
    superscript digits and fractions. *)
Definition isalnum (c : ascii) : bool :=
  let n := nat_of_ascii c in
  ((48 <=? n) && (n <=? 57)) || ((65 <=? n) && (n <=? 90))
  || ((97 <=? n) && (n <=? 122))
  || (n =? 170) || (n =? 178) || (n =? 179) || (n =? 181) || (n =? 185)
  || (n =? 186) || ((188 <=? n) && (n <=? 190))
  || ((192 <=? n) && (n <=? 214)) || ((216 <=? n) && (n <=? 246))
  || ((248 <=? n) && (n <=? 255)).

(** ["".join(c if c.isalnum() else "_" for c in suffix)]. *)
Fixpoint safe_suffix (suffix : string) : string :=
  match suffix with
  | EmptyString => EmptyString
  | String c rest => String (if isalnum c then c else "_"%char) (safe_suffix rest)
  end.

(** [OutputManager._generate_filename]; [now] is what
    [datetime.now().strftime("%Y%m%d_%H%M%S")] gives at the call. *)
Definition _generate_filename (base_name : string) (suffix : option string)
    (include_timestamp : bool) (now : string) : string :=
  let parts := [base_name] in
  let parts :=
    match suffix with
    | Some s => if truthy s then parts ++ [safe_suffix s] else parts
    | None => parts
    end in
  let parts := if include_timestamp then parts ++ [now] else parts in
  String.concat "_" parts.





(** Does the character occur in the string. *)
Fixpoint occurs (c : ascii) (s : string) : bool :=
  match s with
  | EmptyString => false
  | String x rest => Ascii.eqb x c || occurs c rest
  end.

End Saving.

(** ** [src/config_loader.py], the listing of the configurations *)
Module Configs.
Import Text Py Extractors Scrapers Saving.

(** [str.rfind] of one character: the highest index, if there is one. *)
Fixpoint rfind (c : ascii) (s : string) : option nat :=
  match s with
  | EmptyString => None
  | String x rest =>
      match rfind c rest with
      | Some i => Some (S i)
      | None => if Ascii.eqb x c then Some 0 else None
      end
  end.

(** [PurePath.stem] of a file name: the name without its last suffix; a
    leading or a trailing dot starts no suffix. *)
Definition stem (name : string) : string :=
  match rfind "."%char name with
  | Some i =>
      if (0 <? i) && (i <? String.length name - 1) then substring 0 i name else name
  | None => name
  end.

(** Does [s] end with [suffix]. *)
Fixpoint ends_with (suffix s : string) : bool :=
  String.eqb s suffix
  || match s with
     | EmptyString => false
     | String _ rest => ends_with suffix rest
     end.

(** The entries that [self.config_dir.glob("*.yaml")] yields: the names in
    the directory itself that end in [.yaml].  A key with a slash stands
    for a file further down and is no entry of the directory. *)
Definition glob_yaml (name : string) : bool :=
  ends_with ".yaml" name && negb (occurs "/"%char name).

(** [ConfigLoader.list_configs]; the order is the one the directory is
    read in, which nothing fixes. *)
Definition list_configs (config_dir : gmap string (outcome (part Config))) : list string :=
  map stem (filter (λ name, glob_yaml name = true) (elements (dom config_dir))).

End Configs.

(** ** [batch.py], what the tasks of a run collect *)
Module Collected.
Import Text Py Output Extractors Scrapers Batch.

(** The URLs that the task of a term adds to [collected_urls]. *)
Definition scraped (w : World) (name : string) (task : nat) (keyword : string)
  : gset string :=
  match attempt w task name keyword with
  | Ok results => list_to_set (urls_of results)
  | Raise _ => ∅
  end.

(** What a future has added so far: what its task scraped, once it has
    finished. *)
Definition contribution (w : World) (name : string) (task : nat) (f : future)
  : gset string :=
  match st f with
  | FINISHED _ => scraped w name task (kw f)
  | _ => ∅
  end.

(** What the futures of a run have added so far. *)
Definition contributions (w : World) (name : string) (fs : list future) : gset string :=
  ⋃ (imap (contribution w name) fs).

(** Every future of [fs] is finished and has been yielded. *)
Definition all_processed (fs : list future) : Prop :=
  Forall (λ f, consumed f = true ∧ ∃ result, st f = FINISHED result) fs.

(** What the loop of [run] keeps: a yielded future has finished; once the
    main thread has left the loop, the target is reached or every future
    has been yielded; a returned total is the number of collected URLs, and
    no future is waiting or running then. *)
Record loop_invariant (target : nat) (s : state) : Prop := {
  loop_yielded :
    Forall (λ f, consumed f = true → ∃ result, st f = FINISHED result) (futures s);
  loop_left :
    main_thread s ≠ Iterating →
    target ≤ size (collected_urls (runner s))
    ∨ Forall (λ f, consumed f = true) (futures s);
  loop_returned :
    ∀ total, main_thread s = Returned total →
             total = size (collected_urls (runner s))
             ∧ Forall (λ f, st f ≠ PENDING ∧ st f ≠ RUNNING) (futures s)
}.

(** What a run keeps without any condition on the store: the runner keeps
    its configuration name; nothing is cancelled while the main thread is
    in its loop; and the result of a finished future is what its task
    returned. *)
Record task_invariant (w : World) (name : string) (s : state) : Prop := {
  task_name : config_name (runner s) = name;
  task_iterating :
    main_thread s = Iterating → Forall (λ f, st f ≠ CANCELLED) (futures s);
  task_results :
    ∀ j f result,
      futures s !! j = Some f → st f = FINISHED result →
      ∃ self, config_name self = name
              ∧ result = (_scrape_keyword w j self (kw f)).2
}.

(** Every URL that the task of a submitted term scrapes is a key that the
    store keeps as it is. *)
Definition tasks_storable (w : World) (name : string) (keywords : list string) : Prop :=
  ∀ j k results,
    keywords !! j = Some k → attempt w j name k = Ok results →
    Forall (λ u, storable COLUMN_NAME u = true) (urls_of results).

(** What the disk and the memory of a runner have to do with each other
    during a run over [keywords]. *)
Definition mirrored (name : string) (keywords : list string) (s : state) : Prop :=
  config_name (runner s) = name
  ∧ store_ok (output (runner s)) MASTER_FILE
  ∧ load_existing (output (runner s)) MASTER_FILE COLUMN_NAME
    = collected_urls (runner s)
  ∧ kw <$> futures s = keywords.

(** A key that a line of a text file holds as it is: not empty, stripped,
    free of line breaks. *)
Definition clean (k : string) : bool :=
  truthy k && String.eqb (strip k) k && no_linebreak k.

(** The key file that holds the header and then the given keys, one per
    line. *)
Definition canonical (column_name : string) (keys : list string) : string :=
  column_name +:+ nl +:+ lines_text keys.

End Collected.

(** ** Concrete stores and inputs used by the examples *)
Module Samples.
Import Text Output.

Definition u1 : string := "https://www.youtube.com/@one".
Definition u2 : string := "https://www.youtube.com/@two".
Definition u3 : string := "https://www.youtube.com/@three".

(** A key with a trailing blank. *)
Definition u1_blank : string := "https://www.youtube.com/@one ".

(** An output directory whose key file holds the header and [u1]. *)
Definition one_key : files :=
  {[ "all_channels.csv" := "channel_url" +:+ nl +:+ u1 +:+ nl ]}.

(** A result element whose link has the given [href] attribute, if any,
    and whose name element shows [name]; no other selector matches. *)
Definition result_element (href : option string) (name : string) : Extractors.WebElement :=
  {| Extractors.find_element := λ selector,
       if String.eqb selector "#main-link" then
         Py.Ok {| Extractors.text := Py.Ok EmptyString;
                  Extractors.get_attribute := λ attr,
                    if String.eqb attr "href" then Py.Ok href else Py.Ok None |}
       else if String.eqb selector "#text" then
         Py.Ok {| Extractors.text := Py.Ok name;
                  Extractors.get_attribute := λ _, Py.Ok None |}
       else Py.Raise "no such element" |}.

(** A browser session that loads, for any URL, a page with these result
    elements. *)
Definition browser (items : list Extractors.WebElement) : Extractors.WebDriver :=
  {| Extractors.driver_get := λ _,
       Py.Ok {| Extractors.until_present := λ _, Py.Ok tt;
                Extractors.execute_script := Py.Ok tt;
                Extractors.find_elements := λ _, Py.Ok items |};
     Extractors.quit := Py.Ok tt |}.

(** A configuration that leaves every selector at its default. *)
Definition channels_yaml : Extractors.Config :=
  {| Extractors.type_ := Some (Py.VStr "channel");
     Extractors.selectors := ∅;
     Extractors.search := ∅;
     Extractors.options :=
       Py.Mapping {| Extractors.max_scroll := Some (Py.VInt 2);
                     Extractors.scroll_pause := None;
                     Extractors.headless := None |} |}.

(** A world with a valid configuration in which the task of every term
    finds [u1] and a channel named after the task number: task 0 finds [u1]
    and [u2], every other task finds [u1] and [u3]. *)
Definition two_channels (task : nat) : list Extractors.WebElement :=
  [result_element (Some u1) "one";
   result_element (Some (if Nat.eqb task 0 then u2 else u3)) "other"].

Definition good_world : Batch.World :=
  {| Batch.config_dir := {[ "channels.yaml" := Py.Ok (Py.Mapping channels_yaml) ]};
     Batch.create := λ task _, Py.Ok (browser (two_channels task)) |}.

(** A world whose configuration directory is empty. *)
Definition no_config_world : Batch.World :=
  {| Batch.config_dir := ∅;
     Batch.create := λ task _, Py.Ok (browser (two_channels task)) |}.

(** A world in which the browser of task 0 cannot be started. *)
Definition flaky_world : Batch.World :=
  {| Batch.config_dir := {[ "channels.yaml" := Py.Ok (Py.Mapping channels_yaml) ]};
     Batch.create := λ task _,
       if Nat.eqb task 0 then Py.Raise "session not created"
       else Py.Ok (browser (two_channels task)) |}.

(** A fresh runner on an empty output directory, and its run over three
    terms. *)
Definition fresh_runner : Batch.BatchRunner := Batch.BatchRunner_init ∅ "channels".

Definition three_terms : Batch.state :=
  Batch.init_state fresh_runner ["a"; "b"; "c"].

(** With target 1 and one worker: the first task has finished, the other
    two have not started. *)
Definition first_done : Batch.state :=
  default three_terms
    (Batch.exec good_world 1 1 [Batch.Start; Batch.Finish 0] three_terms).

(** The main thread has seen the first result. *)
Definition first_seen : Batch.state :=
  default first_done (Batch.step good_world 1 1 (Batch.Next 0) first_done).

End Samples.

(** ** Further concrete inputs *)
Module MoreSamples.
Import Text Py Output Extractors Scrapers Batch Saving Samples.


(** A browser session like [browser], except that it cannot be quit. *)
Definition leaky_browser (items : list WebElement) : WebDriver :=
  {| driver_get := driver_get (browser items);
     quit := Raise "chrome not reachable" |}.

Definition leaky_world : World :=
  {| config_dir := {[ "channels.yaml" := Ok (Mapping channels_yaml) ]};
     create := λ task _, Ok (leaky_browser (two_channels task)) |}.

(** A configuration directory with one configuration, a file that is
    nothing but the extension, and a file of another kind. *)
Definition some_configs : gmap string (outcome (part Config)) :=
  {[ "channels.yaml" := Ok (Mapping channels_yaml);
     ".yaml" := Ok (Mapping channels_yaml);
     "notes.txt" := Raise "not a mapping" ]}.

(** A configuration that asks for a negative pause between the scrolls,
    one whose [type] is there without a value, and one whose [options]
    are there without a value. *)
Definition hasty_yaml : Config :=
  {| type_ := None; selectors := ∅; search := ∅;
     options := Mapping {| max_scroll := None;
                           scroll_pause := Some (VInt (-1));
                           headless := None |} |}.

Definition untyped_yaml : Config :=
  {| type_ := Some VNone; selectors := ∅; search := ∅;
     options := Mapping {| max_scroll := None; scroll_pause := None;
                           headless := None |} |}.

Definition no_options_yaml : Config :=
  {| type_ := None; selectors := ∅; search := ∅; options := NotMapping VNone |}.

(** A run over two terms with two workers and a target out of reach, in
    which the second task finishes first; and the state it ends in. *)
Definition two_terms : state := init_state fresh_runner ["a"; "b"].

Definition second_first : list action :=
  [Start; Start; Finish 1; Finish 0; Next 1; Next 0; Stop; Exit].

Definition both_done : state :=
  default two_terms (exec good_world 1000 2 second_first two_terms).

End MoreSamples.

(** ** Facts about the text operations *)
Module TextFacts.
Import Text.

Lemma append_cons (c : ascii) (s t : string) :
  String c s +:+ t = String c (s +:+ t).
Proof. reflexivity. Qed.

Lemma append_nil_l (t : string) : EmptyString +:+ t = t.
Proof. reflexivity. Qed.

Ltac app_simpl := rewrite ?append_cons, ?append_nil_l; simpl.

Lemma append_nil_r (s : string) : s +:+ EmptyString = s.
Proof. induction s as [|c s IH]; app_simpl; [reflexivity | now rewrite IH]. Qed.

Lemma append_assoc (a b c : string) : (a +:+ b) +:+ c = a +:+ (b +:+ c).
Proof. induction a as [|x a IH]; app_simpl; [reflexivity | now rewrite IH]. Qed.

Lemma prefix_append (a b : string) : String.prefix a (a +:+ b) = true.
Proof.
  induction a as [|c a IH]; [now destruct b|].
  rewrite append_cons. simpl. now destruct (ascii_dec c c).
Qed.

Lemma prefix_self (a : string) : String.prefix a a = true.
Proof. rewrite <- (append_nil_r a) at 2. apply prefix_append. Qed.

Lemma isspace_LF : isspace LF = true.
Proof. reflexivity. Qed.

Lemma isspace_CR : isspace CR = true.
Proof. reflexivity. Qed.

Lemma length_lstrip (s : string) : String.length (lstrip s) <= String.length s.
Proof.
  induction s as [|c s IH]; simpl; [lia|].
  destruct (isspace c); simpl; lia.
Qed.

Lemma length_rstrip (s : string) : String.length (rstrip s) <= String.length s.
Proof.
  induction s as [|c s IH]; simpl; [lia|].
  destruct (rstrip s) as [|d r]; [destruct (isspace c)|]; simpl in *; lia.
Qed.

(** A trailing line terminator does not survive [strip]. *)
Lemma rstrip_nl (s : string) : rstrip (s +:+ nl) = rstrip s.
Proof.
  induction s as [|c s IH]; app_simpl; [reflexivity | now rewrite IH].
Qed.

Lemma lstrip_nl (s : string) :
  lstrip (s +:+ nl) = match lstrip s with EmptyString => EmptyString | t => t +:+ nl end.
Proof.
  induction s as [|c s IH]; app_simpl; [reflexivity|].
  destruct (isspace c); [exact IH | reflexivity].
Qed.

Lemma strip_nl (s : string) : strip (s +:+ nl) = strip s.
Proof.
  unfold strip. rewrite lstrip_nl.
  destruct (lstrip s) as [|c t] eqn:E; [reflexivity|].
  apply rstrip_nl.
Qed.

(** A stripped, non-empty string starts with a character that is no space. *)
Lemma strip_fixed_head (c : ascii) (s : string) :
  strip (String c s) = String c s → isspace c = false.
Proof.
  unfold strip. simpl. destruct (isspace c); [|reflexivity].
  intros H. exfalso.
  pose proof (length_rstrip (lstrip s)) as H1.
  pose proof (length_lstrip s) as H2.
  rewrite H in H1. simpl in H1. lia.
Qed.

Lemma universal_newlines_app (p : bool) (a b : string) :
  universal_newlines p (a +:+ b)
  = universal_newlines p a +:+ universal_newlines (ends_cr p a) b.
Proof.
  revert p. induction a as [|c a IH]; intros p; app_simpl; [reflexivity|].
  destruct (Ascii.eqb c CR) eqn:Ecr; app_simpl; [now rewrite IH|].
  destruct (Ascii.eqb c LF); [destruct p|]; app_simpl; now rewrite IH.
Qed.

Lemma ends_lf_cons (c : ascii) (s : string) :
  ends_lf (String c s) = true → ends_lf s = true.
Proof. destruct s; simpl; [reflexivity | trivial]. Qed.

Lemma readlines_nil (s : string) : readlines s = [] → s = EmptyString.
Proof.
  destruct s as [|c s]; simpl; [reflexivity|].
  destruct (Ascii.eqb c LF); [discriminate|].
  destruct (readlines s); discriminate.
Qed.

Lemma readlines_app (a b : string) :
  ends_lf a = true → readlines (a +:+ b) = readlines a ++ readlines b.
Proof.
  induction a as [|c a IH]; intros Ha; [reflexivity|].
  specialize (IH (ends_lf_cons _ _ Ha)).
  rewrite append_cons. cbn [readlines]. rewrite IH.
  destruct (Ascii.eqb c LF) eqn:Ec; [reflexivity|].
  destruct (readlines a) as [|l ls] eqn:El; [|reflexivity].
  apply readlines_nil in El. subst a. simpl in Ha. congruence.
Qed.

Lemma universal_newlines_empty (p : bool) (s : string) :
  universal_newlines p s = EmptyString → s = EmptyString ∨ (p = true ∧ s = nl).
Proof.
  destruct s as [|c s]; [now left|]. simpl.
  destruct (Ascii.eqb c CR); [discriminate|].
  destruct (Ascii.eqb c LF) eqn:Ec; [|discriminate].
  destruct p; [|discriminate].
  intros H. right. split; [reflexivity|].
  apply Ascii.eqb_eq in Ec. subst c.
  destruct s as [|d s]; [reflexivity|]. simpl in H.
  destruct (Ascii.eqb d CR); [discriminate|].
  destruct (Ascii.eqb d LF); discriminate.
Qed.

End TextFacts.

(** ** Facts about the deduplicating store *)
Module OutputFacts.
Import Text TextFacts Output.

Lemma ends_lf_String (x : ascii) (r : string) :
  ends_lf (String x r)
  = match r with EmptyString => Ascii.eqb x LF | _ => ends_lf r end.
Proof. destruct r; reflexivity. Qed.

Lemma line_terminated_cons (c : ascii) (s : string) :
  line_terminated (String c s) = true → s ≠ EmptyString → line_terminated s = true.
Proof. destruct s; [congruence | simpl; trivial]. Qed.

(** What the reader delivers for a line-terminated file ends in LF. *)
Lemma universal_newlines_ends_lf (p : bool) (s : string) :
  line_terminated s = true → ends_lf (universal_newlines p s) = true.
Proof.
  revert p. induction s as [|c s IH]; intros p Hs; [reflexivity|].
  destruct (decide (s = EmptyString)) as [->|Hne].
  - simpl in *. destruct (Ascii.eqb c CR); [reflexivity|].
    destruct (Ascii.eqb c LF); [destruct p; reflexivity | discriminate].
  - pose proof (line_terminated_cons _ _ Hs Hne) as Hs'.
    assert (Hcons : ∀ q, ends_lf (String LF (universal_newlines q s)) = true).
    { intros q. rewrite ends_lf_String.
      destruct (universal_newlines q s) eqn:E; [reflexivity|].
      rewrite <- E. now apply IH. }
    cbn [universal_newlines].
    destruct (Ascii.eqb c CR); [apply Hcons|].
    destruct (Ascii.eqb c LF) eqn:Ec; [destruct p; [now apply IH | apply Hcons]|].
    rewrite ends_lf_String.
    destruct (universal_newlines false s) eqn:E.
    + apply universal_newlines_empty in E as [E|[E _]]; congruence.
    + rewrite <- E. now apply IH.
Qed.

(** Appending to a line-terminated file leaves the lines read so far as
    they are and adds the lines of the appended text. *)
Lemma file_lines_app (content suffix : string) :
  line_terminated content = true →
  file_lines (content +:+ suffix)
  = file_lines content ++ readlines (universal_newlines (ends_cr false content) suffix).
Proof.
  intros H. unfold file_lines.
  rewrite universal_newlines_app, readlines_app; [reflexivity|].
  now apply universal_newlines_ends_lf.
Qed.

Lemma foldl_add_line (col : string) (acc : gset string) (ls : list string) :
  foldl (add_line col) acc ls = acc ∪ scan col ls.
Proof.
  unfold scan. revert acc. induction ls as [|l ls IH]; intros acc; simpl.
  - now rewrite (right_id_L ∅ (∪)).
  - rewrite IH, (IH (add_line col ∅ l)), (assoc_L (∪)). f_equal.
    unfold add_line. destruct (_ && _); now rewrite ?(left_id_L ∅ (∪)), ?(right_id_L ∅ (∪)).
Qed.

Lemma scan_cons (col l : string) (ls : list string) :
  scan col (l :: ls) = add_line col ∅ l ∪ scan col ls.
Proof. unfold scan at 1. simpl. apply foldl_add_line. Qed.

Lemma scan_app (col : string) (l1 l2 : list string) :
  scan col (l1 ++ l2) = scan col l1 ∪ scan col l2.
Proof.
  unfold scan at 1. rewrite foldl_app. fold (scan col l1).
  apply foldl_add_line.
Qed.

Lemma truthy_true (s : string) : truthy s = true ↔ s ≠ EmptyString.
Proof.
  unfold truthy. rewrite negb_true_iff. apply String.eqb_neq.
Qed.

Lemma elem_of_add_line (col v l : string) :
  v ∈ add_line col ∅ l ↔ v ≠ EmptyString ∧ v ≠ col ∧ strip l = v.
Proof.
  unfold add_line.
  destruct (truthy (strip l) && negb (String.eqb (strip l) col)) eqn:E.
  - apply andb_true_iff in E as [E1 E2].
    apply truthy_true in E1. apply negb_true_iff, String.eqb_neq in E2.
    rewrite elem_of_union, elem_of_singleton, elem_of_empty.
    split; [intros [[]| ->]; auto | intros (_ & _ & ->); now right].
  - rewrite elem_of_empty. split; [intros []|].
    intros (Hv1 & Hv2 & <-). apply andb_false_iff in E as [E|E].
    + apply truthy_true in Hv1. congruence.
    + apply negb_false_iff, String.eqb_eq in E. congruence.
Qed.

(** The keys found by the reader: the stripped lines that are neither empty
    nor the header token. *)
Lemma elem_of_scan (col v : string) (ls : list string) :
  v ∈ scan col ls ↔ v ≠ EmptyString ∧ v ≠ col ∧ ∃ l, l ∈ ls ∧ strip l = v.
Proof.
  induction ls as [|l ls IH].
  - unfold scan. simpl. rewrite elem_of_empty. split; [intros []|].
    intros (_ & _ & l & Hl & _). inversion Hl.
  - rewrite scan_cons, elem_of_union, IH, elem_of_add_line. split.
    + intros [(? & ? & ?)|(? & ? & l' & ? & ?)]; repeat split; trivial.
      * exists l. split; [left | trivial].
      * exists l'. split; [now right | trivial].
    + intros (? & ? & l' & Hl' & ?).
      apply elem_of_cons in Hl' as [->|Hl']; [now left|].
      right. repeat split; trivial. now exists l'.
Qed.

Lemma write_items_eq (content : string) (items : list string) :
  write_items content items = content +:+ lines_text items.
Proof.
  unfold write_items. revert content.
  induction items as [|i items IH]; intros content; simpl.
  - now rewrite append_nil_r.
  - rewrite IH. now rewrite !append_assoc.
Qed.

Lemma line_terminated_app_nl (s : string) : line_terminated (s +:+ nl) = true.
Proof.
  induction s as [|c s IH]; [reflexivity|].
  rewrite append_cons. cbn [line_terminated]. rewrite IH.
  destruct (s +:+ nl) eqn:E; [|reflexivity].
  destruct s; discriminate.
Qed.

Lemma line_terminated_app (a b : string) :
  b ≠ EmptyString → line_terminated b = true → line_terminated (a +:+ b) = true.
Proof.
  intros Hb Ht. induction a as [|c a IH]; [exact Ht|].
  rewrite append_cons. cbn [line_terminated]. rewrite IH.
  destruct (a +:+ b) eqn:E; [|reflexivity].
  destruct a; [now rewrite append_nil_l in E | discriminate].
Qed.

Lemma lines_text_terminated (items : list string) :
  line_terminated (lines_text items) = true.
Proof.
  destruct items as [|i items]; [reflexivity|]. simpl.
  induction items as [|j items IH] in i |- *; simpl.
  - rewrite append_nil_r. apply line_terminated_app_nl.
  - rewrite <- append_assoc. apply line_terminated_app; [|apply IH].
    destruct j; discriminate.
Qed.

Lemma lines_text_nonempty (i : string) (items : list string) :
  lines_text (i :: items) ≠ EmptyString.
Proof. simpl. destruct i; discriminate. Qed.

Lemma universal_newlines_clean (p : bool) (k t : string) :
  no_linebreak k = true →
  universal_newlines p (k +:+ t)
  = k +:+ universal_newlines (match k with EmptyString => p | _ => false end) t.
Proof.
  revert p. induction k as [|c k IH]; intros p Hk; [reflexivity|].
  simpl in Hk. apply andb_true_iff in Hk as [Hc Hk].
  apply andb_true_iff in Hc as [Hlf Hcr].
  apply negb_true_iff in Hlf, Hcr.
  rewrite !append_cons. cbn [universal_newlines]. rewrite Hlf, Hcr.
  rewrite IH by exact Hk. now destruct k.
Qed.

Lemma readlines_line (k t : string) :
  no_linebreak k = true → readlines (k +:+ nl +:+ t) = (k +:+ nl) :: readlines t.
Proof.
  induction k as [|c k IH]; intros Hk; [reflexivity|].
  simpl in Hk. apply andb_true_iff in Hk as [Hc Hk].
  apply andb_true_iff in Hc as [Hlf _]. apply negb_true_iff in Hlf.
  rewrite !append_cons. cbn [readlines]. now rewrite Hlf, IH.
Qed.

Lemma storable_spec (col k : string) :
  storable col k = true
  ↔ k ≠ EmptyString ∧ strip k = k ∧ no_linebreak k = true ∧ k ≠ col.
Proof.
  unfold storable. rewrite !andb_true_iff, truthy_true, String.eqb_eq,
    negb_true_iff, String.eqb_neq. tauto.
Qed.

(** The lines written for storable keys are read back as they were written. *)
Lemma file_lines_written (p : bool) (col : string) (items : list string) :
  Forall (λ k, storable col k = true) items →
  readlines (universal_newlines p (lines_text items)) = map (λ k, k +:+ nl) items.
Proof.
  intros H. revert p. induction H as [|k items Hk _ IH]; intros p; [now destruct p|].
  apply storable_spec in Hk as (Hne & _ & Hlb & _).
  simpl. rewrite universal_newlines_clean by exact Hlb.
  change (nl +:+ lines_text items) with (String LF (lines_text items)).
  cbn [universal_newlines]. change (Ascii.eqb LF CR) with false.
  change (Ascii.eqb LF LF) with true. cbn iota.
  destruct k as [|c k]; [congruence|].
  change (String LF (universal_newlines false (lines_text items)))
    with (nl +:+ universal_newlines false (lines_text items)).
  rewrite readlines_line by exact Hlb. now rewrite IH.
Qed.

Lemma scan_written_lines (col : string) (items : list string) :
  Forall (λ k, storable col k = true) items →
  scan col (map (λ k, k +:+ nl) items) = list_to_set items.
Proof.
  intros H. apply set_eq. intros v.
  rewrite elem_of_scan, elem_of_list_to_set. split.
  - intros (_ & _ & l & Hl & Hs). apply list_elem_of_fmap in Hl as (k & -> & Hk).
    rewrite Forall_forall in H. pose proof (H _ Hk) as Hk'.
    apply storable_spec in Hk' as (_ & Hst & _).
    rewrite strip_nl, Hst in Hs. now subst.
  - intros Hv. rewrite Forall_forall in H. pose proof (H _ Hv) as Hv'.
    apply storable_spec in Hv' as (? & Hst & _ & ?).
    repeat split; trivial. exists (v +:+ nl). split.
    + apply list_elem_of_fmap. now exists v.
    + now rewrite strip_nl.
Qed.

(** Reading a line-terminated file after the write loop has appended
    storable keys to it. *)
Lemma scan_written (col content : string) (items : list string) :
  line_terminated content = true →
  Forall (λ k, storable col k = true) items →
  scan col (file_lines (content +:+ lines_text items))
  = scan col (file_lines content) ∪ list_to_set items.
Proof.
  intros Hc Hi.
  rewrite file_lines_app, scan_app by exact Hc.
  now rewrite (file_lines_written _ col), scan_written_lines.
Qed.

(** Whatever is appended to a line-terminated file, the keys read before
    are still read afterwards. *)
Lemma scan_appended (col content suffix : string) :
  line_terminated content = true →
  scan col (file_lines content) ⊆ scan col (file_lines (content +:+ suffix)).
Proof.
  intros Hc. rewrite file_lines_app, scan_app by exact Hc.
  apply union_subseteq_l.
Qed.

(** The header line alone holds no key. *)
Lemma scan_header (col : string) :
  header_ok col = true → scan col (file_lines (col +:+ nl)) = ∅.
Proof.
  unfold header_ok. rewrite andb_true_iff, String.eqb_eq. intros [Hs Hlb].
  unfold file_lines. rewrite universal_newlines_clean by exact Hlb.
  replace (universal_newlines _ nl) with (nl +:+ EmptyString) by now destruct col.
  rewrite readlines_line by exact Hlb.
  apply set_eq. intros v. rewrite elem_of_scan, elem_of_empty. split; [|intros []].
  intros (H1 & H2 & l & Hl & Hv). apply list_elem_of_singleton in Hl. subst l.
  rewrite strip_nl, Hs in Hv. congruence.
Qed.

Lemma line_terminated_app2 (a b : string) :
  line_terminated a = true → line_terminated b = true →
  line_terminated (a +:+ b) = true.
Proof.
  intros Ha Hb. destruct b as [|c b].
  - now rewrite append_nil_r.
  - now apply line_terminated_app.
Qed.

Lemma lines_text_app (a b : list string) :
  lines_text (a ++ b) = lines_text a +:+ lines_text b.
Proof.
  induction a as [|i a IH]; simpl; [reflexivity|].
  now rewrite IH, !append_assoc.
Qed.

Lemma load_insert (fs : files) (f col content : string) :
  load_existing (<[f := content]> fs) f col = scan col (file_lines content).
Proof. unfold load_existing. now rewrite lookup_insert_eq. Qed.

Lemma open_append_terminated (fs : files) (f col : string) :
  store_ok fs f → line_terminated (open_append fs f col) = true.
Proof.
  intros Hok. unfold open_append. destruct (fs !! f) as [content|] eqn:E.
  - now apply Hok.
  - apply line_terminated_app_nl.
Qed.

Lemma load_subseteq_open (fs : files) (f col : string) :
  load_existing fs f col ⊆ scan col (file_lines (open_append fs f col)).
Proof.
  unfold load_existing, open_append. destruct (fs !! f); [reflexivity|].
  apply empty_subseteq.
Qed.

Lemma load_open (fs : files) (f col : string) :
  header_ok col = true →
  scan col (file_lines (open_append fs f col)) = load_existing fs f col.
Proof.
  intros Hh. unfold load_existing, open_append.
  destruct (fs !! f); [reflexivity | now apply scan_header].
Qed.

(** The three results of one call, by cases on what is left to write. *)
Lemma append_cases (fs : files) (data : list string) (f col : string) (d : bool) :
  let items := new_items (load_existing fs f col) data d in
  (items = [] ∧ append fs data f col d = (fs, 0))
  ∨ (items ≠ [] ∧
     append fs data f col d
     = (<[f := open_append fs f col +:+ lines_text items]> fs, length items)).
Proof.
  intros items. unfold append. fold items.
  destruct items as [|i items'] eqn:E; [now left|].
  right. split; [discriminate|]. now rewrite write_items_eq.
Qed.

Lemma append_count (fs : files) (data : list string) (f col : string) (d : bool) :
  (append fs data f col d).2 = length (new_items (load_existing fs f col) data d).
Proof.
  destruct (append_cases fs data f col d) as [[E ->]|[_ ->]]; [|reflexivity].
  simpl in *. now rewrite E.
Qed.

Lemma store_ok_append (fs : files) (data : list string) (f col : string) (d : bool) :
  store_ok fs f → store_ok (append fs data f col d).1 f.
Proof.
  intros Hok.
  destruct (append_cases fs data f col d) as [[_ ->]|[_ ->]]; [exact Hok|].
  simpl. intros content. rewrite lookup_insert_eq. intros [= <-].
  apply line_terminated_app2;
    [now apply open_append_terminated | apply lines_text_terminated].
Qed.

(** Keys read before a call are read after it. *)
Lemma load_append_mono (fs : files) (data : list string) (f col : string) (d : bool) :
  store_ok fs f →
  load_existing fs f col ⊆ load_existing (append fs data f col d).1 f col.
Proof.
  intros Hok.
  destruct (append_cases fs data f col d) as [[_ ->]|[_ ->]]; [reflexivity|].
  simpl. rewrite load_insert.
  etransitivity; [apply load_subseteq_open|].
  apply scan_appended. now apply open_append_terminated.
Qed.

(** A storable key submitted to a call is read after it, whatever else was
    submitted with it. *)
Lemma load_append_elem (fs : files) (data : list string) (f col k : string) (d : bool) :
  store_ok fs f → k ∈ data → storable col k = true →
  k ∈ load_existing (append fs data f col d).1 f col.
Proof.
  intros Hok Hk Hst.
  destruct (decide (k ∈ load_existing fs f col)) as [Hin|Hnot].
  { now apply (load_append_mono fs data f col d Hok). }
  assert (Hitems : k ∈ new_items (load_existing fs f col) data d).
  { unfold new_items. destruct d; [|exact Hk]. now apply list_elem_of_filter. }
  destruct (append_cases fs data f col d) as [[E _]|[_ ->]].
  { simpl in E. rewrite E in Hitems. inversion Hitems. }
  simpl. rewrite load_insert.
  apply list_elem_of_split in Hitems as (a & b & ->).
  rewrite lines_text_app. simpl. rewrite <- append_assoc.
  rewrite file_lines_app, scan_app.
  2:{ apply line_terminated_app2;
        [now apply open_append_terminated | apply lines_text_terminated]. }
  apply elem_of_union_r.
  apply storable_spec in Hst as (Hne & Hs & Hlb & Hcol).
  rewrite universal_newlines_clean by exact Hlb.
  destruct k as [|c k]; [congruence|].
  change (nl +:+ lines_text b) with (String LF (lines_text b)).
  cbn [universal_newlines]. change (Ascii.eqb LF CR) with false.
  change (Ascii.eqb LF LF) with true. cbn iota.
  change (String LF (universal_newlines false (lines_text b)))
    with (nl +:+ universal_newlines false (lines_text b)).
  rewrite readlines_line by exact Hlb.
  apply elem_of_scan. repeat split; trivial.
  exists (String c k +:+ nl). split; [left | now rewrite strip_nl].
Qed.

Lemma Forall_new_items (P : string → Prop) (E : gset string) (data : list string) (d : bool) :
  Forall P data → Forall P (new_items E data d).
Proof.
  intros H. unfold new_items. destruct d; [|exact H].
  rewrite Forall_forall in *. intros x Hx.
  apply list_elem_of_filter in Hx as [_ Hx]. now apply H.
Qed.

Lemma list_to_set_new_items (E : gset string) (data : list string) (d : bool) :
  E ∪ list_to_set (new_items E data d) = E ∪ list_to_set data.
Proof.
  unfold new_items. destruct d; [|reflexivity].
  apply set_eq. intros v.
  rewrite !elem_of_union, !elem_of_list_to_set, list_elem_of_filter.
  destruct (decide (v ∈ E)); tauto.
Qed.

(** When all submitted keys are storable, the keys read after a call are
    those read before it and the submitted ones, and no others. *)
Lemma load_append_exact (fs : files) (data : list string) (f col : string) (d : bool) :
  store_ok fs f → header_ok col = true →
  Forall (λ k, storable col k = true) data →
  load_existing (append fs data f col d).1 f col
  = load_existing fs f col ∪ list_to_set data.
Proof.
  intros Hok Hh Hd.
  rewrite <- (list_to_set_new_items _ data d).
  destruct (append_cases fs data f col d) as [[E ->]|[_ ->]]; simpl in *.
  - rewrite E. simpl. now rewrite (right_id_L ∅ (∪)).
  - rewrite load_insert, scan_written, load_open; trivial.
    + now apply open_append_terminated.
    + now apply Forall_new_items.
Qed.

Lemma filter_all_out {A} (P : A → Prop) `{∀ x, Decision (P x)} (l : list A) :
  (∀ x, x ∈ l → ¬ P x) → filter P l = [].
Proof.
  induction l as [|x l IH]; intros Hall; [reflexivity|].
  rewrite filter_cons. destruct (decide (P x)) as [Hp|_].
  - exfalso. apply (Hall x); [left | exact Hp].
  - apply IH. intros y Hy. apply Hall. now right.
Qed.

Lemma size_list_to_set_le (l : list string) :
  size (list_to_set l : gset string) ≤ length l.
Proof.
  induction l as [|x l IH].
  - now rewrite list_to_set_nil, size_empty.
  - rewrite list_to_set_cons, size_union_alt, size_singleton.
    pose proof (subseteq_size (list_to_set l ∖ {[x]}) (list_to_set l : gset string))
      as Hsub.
    specialize (Hsub (subseteq_difference_l _ _ _ (reflexivity _))).
    simpl. lia.
Qed.

Lemma store_ok_absent (fs : files) (f : string) : fs !! f = None → store_ok fs f.
Proof. intros E content. rewrite E. discriminate. Qed.

Lemma store_ok_singleton (f content : string) :
  line_terminated content = true → store_ok {[ f := content ]} f.
Proof. intros H c. rewrite lookup_singleton_eq. now intros [= <-]. Qed.

Lemma load_absent (fs : files) (f col : string) :
  fs !! f = None → load_existing fs f col = ∅.
Proof. intros E. unfold load_existing. now rewrite E. Qed.

(** A key file that only the store has written is line-terminated. *)
Lemma produced_store_ok (fs : files) (f : string) : produced f fs → store_ok fs f.
Proof.
  induction 1 as [fs Habs|fs data col d _ IH].
  - now apply store_ok_absent.
  - now apply store_ok_append.
Qed.

(** Decidable facts about concrete data are settled by evaluation. *)
Ltac by_evaluation := apply (bool_decide_unpack _); vm_compute; exact I.

End OutputFacts.

(** ** Properties of the deduplicating store *)
Module StoreProperties.
Import Text TextFacts Output OutputFacts Samples.

(** C1 (as amended).  Dedup correctness: on a store whose key file is absent
    or line-terminated, with a header token that is stripped and free of
    line breaks, and for storable keys (non-empty, stripped, free of line
    breaks, different from the header token): after [append(K1)] and then
    [append(K2)] the keys read from disk are [existing ∪ K1 ∪ K2], and for a
    duplicate-free [K2] the second call returns [|K2 \ (K1 ∪ existing)|]. *)
Theorem append_dedup_correct (fs : files) (K1 K2 : list string) (f col : string) :
  store_ok fs f → header_ok col = true →
  Forall (λ k, storable col k = true) K1 →
  Forall (λ k, storable col k = true) K2 →
  let existing := load_existing fs f col in
  let first := append fs K1 f col true in
  let second := append first.1 K2 f col true in
  load_existing second.1 f col = existing ∪ list_to_set K1 ∪ list_to_set K2
  ∧ (NoDup K2 →
     second.2 = size (list_to_set K2 ∖ (list_to_set K1 ∪ existing) : gset string)).
Proof.
  intros Hok Hh H1 H2 existing first second.
  assert (Hfirst : load_existing first.1 f col = existing ∪ list_to_set K1)
    by now apply load_append_exact.
  split.
  - unfold second. rewrite load_append_exact, Hfirst; trivial.
    now apply store_ok_append.
  - intros Hnd. unfold second. rewrite append_count, Hfirst. simpl.
    rewrite <- (size_list_to_set (C:=gset string)) by now apply NoDup_filter.
    f_equal. apply set_eq. intros v.
    rewrite elem_of_list_to_set, list_elem_of_filter, elem_of_difference,
      elem_of_list_to_set, !elem_of_union, elem_of_list_to_set.
    tauto.
Qed.

Lemma append_dedup_correct_witness :
  let second := append (append one_key [u1; u2] "all_channels.csv" "channel_url" true).1
                  [u2; u3] "all_channels.csv" "channel_url" true in
  store_ok one_key "all_channels.csv"
  ∧ load_existing second.1 "all_channels.csv" "channel_url"
    = load_existing one_key "all_channels.csv" "channel_url"
      ∪ list_to_set [u1; u2] ∪ list_to_set [u2; u3]
  ∧ (NoDup [u2; u3] →
     second.2 = size (list_to_set [u2; u3]
                      ∖ (list_to_set [u1; u2]
                         ∪ load_existing one_key "all_channels.csv" "channel_url")
                      : gset string)).
Proof.
  intros second.
  assert (Hok : store_ok one_key "all_channels.csv")
    by (apply store_ok_singleton; reflexivity).
  split; [exact Hok|].
  apply (append_dedup_correct one_key [u1; u2] [u2; u3]); trivial; by_evaluation.
Defined.

(** With a key submitted twice in [K2], the keys on disk are still
    [existing ∪ K1 ∪ K2]; the count is then the number of lines written,
    which is more than [|K2 \ (K1 ∪ existing)|]. *)
Example append_dedup_repeated_key :
  let second := append (append one_key [u1] "all_channels.csv" "channel_url" true).1
                  [u2; u2] "all_channels.csv" "channel_url" true in
  load_existing second.1 "all_channels.csv" "channel_url" = {[ u1; u2 ]}
  ∧ second.2 = 2.
Proof. intros second. split; by_evaluation. Qed.

(** C1 as stated fails: a key with a trailing blank is written as it is and
    read back stripped, so the keys on disk are not [existing ∪ K1 ∪ K2]. *)
Lemma append_dedup_counterexample :
  let second := append (append ∅ [] "all_channels.csv" "channel_url" true).1
                  [u1_blank] "all_channels.csv" "channel_url" true in
  NoDup [u1_blank]
  ∧ second.1 !! "all_channels.csv" = Some ("channel_url" +:+ nl +:+ u1_blank +:+ nl)
  ∧ load_existing second.1 "all_channels.csv" "channel_url" = {[ u1 ]}
  ∧ load_existing second.1 "all_channels.csv" "channel_url"
    ≠ load_existing ∅ "all_channels.csv" "channel_url"
      ∪ list_to_set [] ∪ list_to_set [u1_blank].
Proof.
  intros second. repeat split; by_evaluation.
Qed.

(** C2 (as amended).  Idempotent append: on a store whose key file is absent
    or line-terminated, appending the same storable keys a second time
    returns 0 and leaves every file as the first call left it. *)
Theorem append_idempotent (fs : files) (K : list string) (f col : string) :
  store_ok fs f →
  Forall (λ k, storable col k = true) K →
  let first := append fs K f col true in
  append first.1 K f col true = (first.1, 0).
Proof.
  intros Hok HK first.
  destruct (append_cases first.1 K f col true) as [[_ E]|[Hne _]]; [exact E|].
  exfalso. apply Hne. simpl. apply filter_all_out.
  intros k Hk Hnot. apply Hnot.
  apply load_append_elem; trivial.
  rewrite Forall_forall in HK. now apply HK.
Qed.

Lemma append_idempotent_witness :
  store_ok one_key "all_channels.csv"
  ∧ append (append one_key [u1; u2; u3] "all_channels.csv" "channel_url" true).1
      [u1; u2; u3] "all_channels.csv" "channel_url" true
    = ((append one_key [u1; u2; u3] "all_channels.csv" "channel_url" true).1, 0).
Proof.
  assert (Hok : store_ok one_key "all_channels.csv")
    by (apply store_ok_singleton; reflexivity).
  split; [exact Hok|].
  apply (append_idempotent one_key [u1; u2; u3]); [exact Hok | by_evaluation].
Defined.

(** C2 as stated fails: the key with a trailing blank is read back without
    it, is not recognised by the second call, and is written again. *)
Lemma append_idempotent_counterexample :
  let first := append ∅ [u1_blank] "all_channels.csv" "channel_url" true in
  let second := append first.1 [u1_blank] "all_channels.csv" "channel_url" true in
  first.1 !! "all_channels.csv" = Some ("channel_url" +:+ nl +:+ u1_blank +:+ nl)
  ∧ second.2 = 1
  ∧ second.1 !! "all_channels.csv"
    = Some ("channel_url" +:+ nl +:+ u1_blank +:+ nl +:+ u1_blank +:+ nl).
Proof.
  intros first second. repeat split; by_evaluation.
Qed.

(** C3 (as amended).  Load/append round trip: after appending storable keys
    [S] to a store whose key file does not exist, under a header token that
    is stripped and free of line breaks, [load_existing] returns exactly
    the set of the keys of [S]. *)
Theorem load_append_roundtrip (fs : files) (S : list string) (f col : string) :
  fs !! f = None → header_ok col = true →
  Forall (λ k, storable col k = true) S →
  load_existing (append fs S f col true).1 f col = list_to_set S.
Proof.
  intros Habs Hh HS.
  rewrite load_append_exact; trivial; [|now apply store_ok_absent].
  now rewrite load_absent, (left_id_L ∅ (∪)).
Qed.

Lemma load_append_roundtrip_witness :
  (∅ : files) !! "all_channels.csv" = None
  ∧ load_existing (append ∅ [u1; u2; u1] "all_channels.csv" "channel_url" true).1
      "all_channels.csv" "channel_url"
    = list_to_set [u1; u2; u1].
Proof.
  split; [reflexivity|].
  apply (load_append_roundtrip ∅ [u1; u2; u1]); [reflexivity | by_evaluation..].
Defined.

(** C3 as stated fails: what is loaded after appending the key with a
    trailing blank is the stripped key, not the key. *)
Lemma load_append_roundtrip_counterexample :
  (∅ : files) !! "all_channels.csv" = None
  ∧ load_existing (append ∅ [u1_blank] "all_channels.csv" "channel_url" true).1
      "all_channels.csv" "channel_url"
    = {[ u1 ]}
  ∧ load_existing (append ∅ [u1_blank] "all_channels.csv" "channel_url" true).1
      "all_channels.csv" "channel_url"
    ≠ list_to_set [u1_blank].
Proof.
  repeat split; by_evaluation.
Qed.

(** C9 (as amended).  Append-only invariant: a call of [append], with any
    data and either value of [deduplicate], on a store whose key file is
    absent or line-terminated, leaves such a store; the keys read from disk
    afterwards include those read before; the former content of the file is
    a prefix of the new content, and the lines read before are a prefix of
    the lines read afterwards. *)
Theorem append_only (fs : files) (data : list string) (f col : string) (d : bool) :
  store_ok fs f →
  let fs' := (append fs data f col d).1 in
  store_ok fs' f
  ∧ load_existing fs f col ⊆ load_existing fs' f col
  ∧ ∀ old, fs !! f = Some old →
      ∃ new, fs' !! f = Some new
             ∧ String.prefix old new = true
             ∧ file_lines old `prefix_of` file_lines new.
Proof.
  intros Hok fs'. split; [now apply store_ok_append|].
  split; [now apply load_append_mono|].
  intros old Hold. unfold fs'.
  destruct (append_cases fs data f col d) as [[_ ->]|[_ ->]]; simpl.
  - exists old. split; [exact Hold|]. split; [apply prefix_self | reflexivity].
  - rewrite lookup_insert_eq. eexists. split; [reflexivity|].
    unfold open_append. rewrite Hold. split.
    + apply prefix_append.
    + rewrite file_lines_app by now apply Hok. now apply prefix_app_r.
Qed.

Lemma append_only_witness :
  store_ok one_key "all_channels.csv"
  ∧ let fs' := (append one_key [u2; u1; u3] "all_channels.csv" "channel_url" true).1 in
    store_ok fs' "all_channels.csv"
    ∧ load_existing one_key "all_channels.csv" "channel_url"
      ⊆ load_existing fs' "all_channels.csv" "channel_url"
    ∧ ∀ old, one_key !! "all_channels.csv" = Some old →
        ∃ new, fs' !! "all_channels.csv" = Some new
               ∧ String.prefix old new = true
               ∧ file_lines old `prefix_of` file_lines new.
Proof.
  assert (Hok : store_ok one_key "all_channels.csv")
    by (apply store_ok_singleton; reflexivity).
  split; [exact Hok|].
  exact (append_only one_key [u2; u1; u3] "all_channels.csv" "channel_url" true Hok).
Defined.

(** C9 as stated fails: when the last line of the key file has no line
    terminator, the first key that a call writes is joined to that line.
    The call returns 1, no character of the file is rewritten, and yet the
    key that was read before the call is not read after it, and neither is
    the key that was submitted. *)
Lemma append_only_counterexample :
  let fs : files := {[ "all_channels.csv" := "channel_url" +:+ nl +:+ u1 ]} in
  let after := append fs [u2] "all_channels.csv" "channel_url" true in
  load_existing fs "all_channels.csv" "channel_url" = {[ u1 ]}
  ∧ after = (<["all_channels.csv" := "channel_url" +:+ nl +:+ u1 +:+ u2 +:+ nl]> fs, 1)
  ∧ load_existing after.1 "all_channels.csv" "channel_url" = {[ u1 +:+ u2 ]}
  ∧ ¬ (load_existing fs "all_channels.csv" "channel_url"
       ⊆ load_existing after.1 "all_channels.csv" "channel_url").
Proof.
  intros fs after. repeat split; by_evaluation.
Qed.

(** C10.  No deduplication within one call: when a key [k] that is not yet
    on disk occurs twice in the submitted list, a call with
    [deduplicate=True] writes [k] twice, each time as a line of its own,
    counts both, and so returns more than the number of distinct new keys. *)
Theorem append_repeats_within_call (fs : files) (a b c : list string) (k f col : string) :
  k ∉ load_existing fs f col →
  let existing := load_existing fs f col in
  let data := a ++ k :: b ++ k :: c in
  let fresh := filter (λ item, item ∉ existing) in
  append fs data f col true
  = (<[f := write_items (open_append fs f col) (fresh a ++ k :: fresh b ++ k :: fresh c)]> fs,
     length (fresh a) + length (fresh b) + length (fresh c) + 2)
  ∧ size (list_to_set data ∖ existing : gset string) < (append fs data f col true).2.
Proof.
  intros Hk existing data fresh.
  assert (Hitems : new_items existing data true
                   = fresh a ++ k :: fresh b ++ k :: fresh c).
  { unfold new_items, data, fresh.
    rewrite filter_app, filter_cons_True, filter_app, filter_cons_True; trivial. }
  assert (Happ : append fs data f col true
                 = (<[f := write_items (open_append fs f col)
                             (fresh a ++ k :: fresh b ++ k :: fresh c)]> fs,
                    length (fresh a) + length (fresh b) + length (fresh c) + 2)).
  { unfold append. fold existing. rewrite Hitems.
    destruct (fresh a ++ k :: fresh b ++ k :: fresh c) eqn:E.
    - destruct (fresh a); discriminate.
    - rewrite <- E. f_equal. rewrite !length_app. simpl. rewrite length_app. simpl. lia. }
  split; [exact Happ|].
  rewrite Happ. simpl.
  assert (Hset : (list_to_set data ∖ existing : gset string)
                 = list_to_set (fresh a ++ k :: fresh b ++ fresh c)).
  { apply set_eq. intros v. unfold data, fresh.
    rewrite elem_of_difference, !elem_of_list_to_set.
    repeat (rewrite ?elem_of_app, ?elem_of_cons, ?list_elem_of_filter).
    split; [tauto|]. intros H. split; [tauto|].
    destruct H as [[]|[->|[[]|[]]]]; trivial. }
  rewrite Hset.
  eapply Nat.le_lt_trans; [apply size_list_to_set_le|].
  rewrite !length_app. simpl. rewrite length_app. lia.
Qed.

Lemma append_repeats_within_call_witness :
  (u2 ∉ load_existing one_key "all_channels.csv" "channel_url")
  ∧ (append one_key ([u1] ++ u2 :: [] ++ u2 :: [u3]) "all_channels.csv" "channel_url" true
     = (<["all_channels.csv" :=
            "channel_url" +:+ nl +:+ u1 +:+ nl +:+ u2 +:+ nl +:+ u2 +:+ nl +:+ u3 +:+ nl]>
          one_key, 3))
  ∧ size (list_to_set ([u1] ++ u2 :: [] ++ u2 :: [u3])
          ∖ load_existing one_key "all_channels.csv" "channel_url" : gset string) = 2.
Proof.
  assert (Hk : u2 ∉ load_existing one_key "all_channels.csv" "channel_url")
    by by_evaluation.
  split; [exact Hk|].
  pose proof (append_repeats_within_call one_key [u1] [] [u3] u2
                "all_channels.csv" "channel_url" Hk) as [Happ _].
  split; [|by_evaluation].
  rewrite Happ. by_evaluation.
Defined.

End StoreProperties.

(** ** Properties of the channel extractor *)
Module ExtractorProperties.
Import Text Py Extractors Samples OutputFacts.

Lemma bind_Ok {A B} (m : outcome A) (f : A → outcome B) (b : B) :
  m ≫= f = Ok b → ∃ a, m = Ok a ∧ f a = Ok b.
Proof. destruct m as [a|e]; [intros H; now exists a | discriminate]. Qed.

Lemma bind_Raise {A B} (f : A → outcome B) (e : string) :
  Raise e ≫= f = Raise e.
Proof. reflexivity. Qed.

Lemma channel_url_lookup (config : Config) (item : WebElement) :
  _extract_channel_data config item !! "channel_url"
  = Some (let raw := safe_get_attribute item
                       (dict_get (selectors config) "channel_url" "#main-link") "href" in
          if truthy raw && negb (startswith raw "http")
          then "https://www.youtube.com" +:+ raw else raw).
Proof.
  unfold _extract_channel_data.
  rewrite lookup_insert_ne by discriminate. rewrite lookup_insert_eq. reflexivity.
Qed.

Lemma get_truthy_spec (d : gmap string string) (key : string) :
  get_truthy d key = true ↔ ∃ v, d !! key = Some v ∧ v ≠ EmptyString.
Proof.
  unfold get_truthy. destruct (d !! key) as [v|].
  - unfold truthy. rewrite negb_true_iff, String.eqb_neq. split.
    + intros H. now exists v.
    + now intros (? & [= <-] & ?).
  - split; [discriminate | now intros (? & ? & ?)].
Qed.

(** The loop keeps the channels gathered so far and adds usable ones. *)
Lemma collect_channels_usable (config : Config) (items : list WebElement)
    (acc : list (gmap string string)) :
  Forall (λ ch, get_truthy ch "channel_url" = true) acc →
  Forall (λ ch, get_truthy ch "channel_url" = true) (foldl (keep_usable config) acc items).
Proof.
  revert acc. induction items as [|item items IH]; intros acc Hacc; [exact Hacc|].
  cbn [foldl]. apply IH. unfold keep_usable.
  destruct (get_truthy (_extract_channel_data config item) "channel_url") eqn:E;
    [|exact Hacc].
  apply Forall_app. split; [exact Hacc|]. constructor; [exact E | constructor].
Qed.

(** What [extract] returns when it returns: nothing after a failed wait, or
    what the loop collected from the elements found. *)
Lemma extract_inv (driver : WebDriver) (config : Config) (query : string)
    (channels : list (gmap string string)) :
  extract driver config query = Ok channels →
  channels = [] ∨ ∃ items, channels = collect_channels config items.
Proof.
  unfold extract.
  destruct (driver_get driver (build_search_url config query)) as [page|e];
    [|discriminate].
  unfold mbind at 1, outcome_bind at 1.
  destruct (wait_for_element page _) as [[]|e]; [|intros [= <-]; now left].
  destruct (scroll_page page config) as [[]|e]; [|discriminate].
  unfold mbind at 1, outcome_bind at 1.
  destruct (find_elements page _) as [items|e]; [|discriminate].
  intros [= <-]. right. now exists items.
Qed.

(** C6.  Usable-record filter: whatever the browser shows, every record in
    the list that [extract] returns has a [channel_url] field that is not
    empty. *)
Theorem extract_usable (driver : WebDriver) (config : Config) (query : string)
    (channels : list (gmap string string)) :
  extract driver config query = Ok channels →
  ∀ channel, channel ∈ channels →
    ∃ url, channel !! "channel_url" = Some url ∧ url ≠ EmptyString.
Proof.
  intros H channel Hin.
  assert (HF : Forall (λ ch, get_truthy ch "channel_url" = true) channels).
  { apply extract_inv in H. destruct H as [->|[items ->]]; [constructor|].
    unfold collect_channels. apply collect_channels_usable. constructor. }
  rewrite Forall_forall in HF. specialize (HF channel Hin).
  apply get_truthy_spec in HF. exact HF.
Qed.

Lemma extract_usable_witness :
  let found := [result_element (Some "/channel/UC123") "first";
                result_element None "second"] in
  extract (browser found) channels_yaml "rocq"
  = Ok [_extract_channel_data channels_yaml (result_element (Some "/channel/UC123") "first")]
  ∧ ∀ channel,
      channel ∈ [_extract_channel_data channels_yaml
                   (result_element (Some "/channel/UC123") "first")] →
      ∃ url, channel !! "channel_url" = Some url ∧ url ≠ EmptyString.
Proof.
  intros found.
  assert (H : extract (browser found) channels_yaml "rocq"
              = Ok [_extract_channel_data channels_yaml
                      (result_element (Some "/channel/UC123") "first")])
    by (vm_compute; reflexivity).
  split; [exact H|].
  exact (extract_usable _ _ _ _ H).
Defined.

(** C7 (as amended).  Relative URL normalisation: a raw URL that is not
    empty and does not start with the text [http] is returned with the
    platform origin [https://www.youtube.com] in front; a raw URL that
    starts with [http] is returned unchanged; an empty one stays empty. *)
Theorem channel_url_normalised (config : Config) (item : WebElement) (raw : string) :
  safe_get_attribute item (dict_get (selectors config) "channel_url" "#main-link") "href"
  = raw →
  ∃ url, _extract_channel_data config item !! "channel_url" = Some url
    ∧ (startswith raw "http" = true → url = raw)
    ∧ (raw ≠ EmptyString → startswith raw "http" = false →
       url = "https://www.youtube.com" +:+ raw)
    ∧ (raw = EmptyString → url = EmptyString).
Proof.
  intros Hraw. eexists. split; [apply channel_url_lookup|].
  rewrite Hraw. cbv zeta.
  repeat split.
  - intros ->. now rewrite andb_false_r.
  - intros Hne ->. apply truthy_true in Hne. now rewrite Hne.
  - intros ->. reflexivity.
Qed.

Lemma channel_url_normalised_witness :
  safe_get_attribute (result_element (Some "/channel/UC123") "first")
    (dict_get (selectors channels_yaml) "channel_url" "#main-link") "href"
  = "/channel/UC123"
  ∧ _extract_channel_data channels_yaml (result_element (Some "/channel/UC123") "first")
    !! "channel_url"
    = Some "https://www.youtube.com/channel/UC123".
Proof.
  assert (H : safe_get_attribute (result_element (Some "/channel/UC123") "first")
                (dict_get (selectors channels_yaml) "channel_url" "#main-link") "href"
              = "/channel/UC123") by (vm_compute; reflexivity).
  split; [exact H|].
  destruct (channel_url_normalised channels_yaml _ _ H) as (url & -> & _ & Hrel & _).
  f_equal. apply Hrel; [discriminate | reflexivity].
Defined.

(** C7 as stated fails: [javascript:void(0)] starts with a scheme and is
    not left unchanged, because the code looks for the text [http], not
    for a scheme. *)
Lemma channel_url_normalised_counterexample :
  let item := result_element (Some "javascript:void(0)") "first" in
  safe_get_attribute item (dict_get (selectors channels_yaml) "channel_url" "#main-link")
    "href" = "javascript:void(0)"
  ∧ starts_with_scheme "javascript:void(0)" = true
  ∧ _extract_channel_data channels_yaml item !! "channel_url"
    = Some "https://www.youtube.comjavascript:void(0)".
Proof.
  intros item. repeat split; vm_compute; reflexivity.
Qed.

End ExtractorProperties.

(** ** Facts about the batch runner *)
Module BatchFacts.
Import Text Py Output OutputFacts Extractors Scrapers Batch.

Lemma sum_with_cons {A} (g : A → nat) (x : A) (l : list A) :
  sum_list_with g (x :: l) = g x + sum_list_with g l.
Proof. reflexivity. Qed.

Lemma sum_insert (g : future → nat) (fs : list future) (i : nat) (x y : future) :
  fs !! i = Some x →
  sum_list_with g (<[i := y]> fs) + g x = sum_list_with g fs + g y.
Proof.
  revert i. induction fs as [|f fs IH]; intros [|i] H; try discriminate.
  - injection H as ->. change (<[0 := y]> (x :: fs)) with (y :: fs).
    rewrite !sum_with_cons. lia.
  - change (<[S i := y]> (f :: fs)) with (f :: <[i := y]> fs).
    rewrite !sum_with_cons. specialize (IH i H). lia.
Qed.

#[local] Arguments work_left : simpl never.
#[local] Arguments to_yield : simpl never.
#[local] Arguments set_st : simpl never.
#[local] Arguments set_consumed : simpl never.
#[local] Arguments is_pending : simpl never.

Lemma work_left_set_st (f : future) (x : fstate) :
  work_left (set_st f x) = match x with PENDING => 2 | RUNNING => 1 | _ => 0 end.
Proof. reflexivity. Qed.

Lemma to_yield_set_st (f : future) (x : fstate) : to_yield (set_st f x) = to_yield f.
Proof. reflexivity. Qed.

Lemma work_left_set_consumed (f : future) : work_left (set_consumed f) = work_left f.
Proof. reflexivity. Qed.

Lemma to_yield_set_consumed (f : future) : to_yield (set_consumed f) = 0.
Proof. reflexivity. Qed.

Lemma is_pending_spec (f : future) : is_pending f = true ↔ st f = PENDING.
Proof. unfold is_pending. destruct (st f); split; congruence. Qed.

Lemma is_running_spec (f : future) : is_running f = true ↔ st f = RUNNING.
Proof. unfold is_running. destruct (st f); split; congruence. Qed.

Lemma start_next_work (fs fs' : list future) :
  start_next fs = Some fs' →
  sum_list_with work_left fs' + 1 = sum_list_with work_left fs
  ∧ unconsumed fs' = unconsumed fs.
Proof.
  unfold unconsumed.
  revert fs'. induction fs as [|f fs IH]; intros fs' H; [discriminate|].
  cbn [start_next] in H. destruct (is_pending f) eqn:Ep.
  - injection H as <-. apply is_pending_spec in Ep.
    assert (work_left f = 2) by (unfold work_left; now rewrite Ep).
    rewrite !sum_with_cons, work_left_set_st, to_yield_set_st. split; lia.
  - destruct (start_next fs) as [fs0|]; [|discriminate].
    injection H as <-. destruct (IH fs0 eq_refl) as [H1 H2].
    rewrite !sum_with_cons. split; lia.
Qed.

Lemma cancel_pending_work (fs : list future) :
  sum_list_with work_left (cancel_pending fs) ≤ sum_list_with work_left fs.
Proof.
  induction fs as [|f fs IH]; [reflexivity|].
  change (cancel_pending (f :: fs))
    with ((if is_pending f then set_st f CANCELLED else f) :: cancel_pending fs).
  rewrite !sum_with_cons.
  assert (work_left (if is_pending f then set_st f CANCELLED else f) ≤ work_left f).
  { destruct (is_pending f); [rewrite work_left_set_st|]; lia. }
  lia.
Qed.

(** The outcomes of one task. *)
Lemma scrape_keyword_cases (w : World) (task : nat) (self : BatchRunner) (keyword : string) :
  (∃ e, attempt w task (config_name self) keyword = Raise e
        ∧ _scrape_keyword w task self keyword = (self, (keyword, 0, Some e)))
  ∨ (attempt w task (config_name self) keyword = Ok []
     ∧ _scrape_keyword w task self keyword = (self, (keyword, 0, None)))
  ∨ (∃ results,
       attempt w task (config_name self) keyword = Ok results
       ∧ _scrape_keyword w task self keyword
         = ({| config_name := config_name self;
               output := (append (output self) (urls_of results)
                            MASTER_FILE COLUMN_NAME true).1;
               collected_urls := collected_urls self ∪ list_to_set (urls_of results) |},
            (keyword,
             (append (output self) (urls_of results) MASTER_FILE COLUMN_NAME true).2,
             None))).
Proof.
  unfold _scrape_keyword.
  destruct (attempt w task (config_name self) keyword) as [[|r results]|e].
  - right. now left.
  - right. right. exists (r :: results). split; [reflexivity|].
    now destruct (append (output self) (urls_of (r :: results))
                    MASTER_FILE COLUMN_NAME true).
  - left. now exists e.
Qed.

(** One task leaves the configuration name alone, only adds to the
    collected URLs and to the keys on disk, and merges what it scraped. *)
Lemma scrape_keyword_effect (w : World) (task : nat) (self : BatchRunner) (keyword : string) :
  let self' := (_scrape_keyword w task self keyword).1 in
  config_name self' = config_name self
  ∧ collected_urls self ⊆ collected_urls self'
  ∧ (store_ok (output self) MASTER_FILE →
     store_ok (output self') MASTER_FILE
     ∧ load_existing (output self) MASTER_FILE COLUMN_NAME
       ⊆ load_existing (output self') MASTER_FILE COLUMN_NAME)
  ∧ ∀ results u,
      attempt w task (config_name self) keyword = Ok results →
      u ∈ urls_of results →
      u ∈ collected_urls self'
      ∧ (store_ok (output self) MASTER_FILE → storable COLUMN_NAME u = true →
         u ∈ load_existing (output self') MASTER_FILE COLUMN_NAME).
Proof.
  destruct (scrape_keyword_cases w task self keyword)
    as [(e & Ha & ->)|[(Ha & ->)|(results & Ha & ->)]]; cbn [fst].
  - split; [reflexivity|]. split; [reflexivity|]. split; [now split|].
    intros results u. rewrite Ha. discriminate.
  - split; [reflexivity|]. split; [reflexivity|]. split; [now split|].
    intros results u. rewrite Ha. intros [= <-] Hu. inversion Hu.
  - cbn [config_name collected_urls output]. split; [reflexivity|].
    split; [apply union_subseteq_l|].
    split.
    + intros Hok. split; [now apply store_ok_append | now apply load_append_mono].
    + intros results' u. rewrite Ha. intros [= <-] Hu. split.
      * apply elem_of_union_r. now apply elem_of_list_to_set.
      * intros Hok Hst. now apply load_append_elem.
Qed.

Section Steps.
Context (w : World) (target max_workers : nat).

(** Every step uses up some of the steps that are left. *)
Lemma step_steps_left (a : action) (s s' : state) :
  step w target max_workers a s = Some s' → steps_left s' < steps_left s.
Proof.
  unfold steps_left, unconsumed. destruct a as [|i|i| |]; cbn [step]; intros H.
  - destruct (decide (running (futures s) < max_workers)); [|discriminate].
    destruct (start_next (futures s)) as [fs|] eqn:E; [|discriminate].
    injection H as <-. cbn [futures main_thread].
    apply start_next_work in E as [E1 E2]. unfold unconsumed in E2.
    rewrite E2. lia.
  - destruct (futures s !! i) as [f|] eqn:E; [|discriminate].
    destruct (st f) eqn:Est; try discriminate.
    destruct (_scrape_keyword w i (runner s) (kw f)) as [r result].
    injection H as <-. cbn [futures main_thread].
    pose proof (sum_insert work_left _ _ _ (set_st f (FINISHED result)) E) as H1.
    pose proof (sum_insert to_yield _ _ _ (set_st f (FINISHED result)) E) as H2.
    rewrite work_left_set_st in H1. rewrite to_yield_set_st in H2.
    assert (work_left f = 1) by (unfold work_left; now rewrite Est).
    destruct (main_thread s); lia.
  - destruct (main_thread s) eqn:Em; try discriminate.
    destruct (futures s !! i) as [f|] eqn:E; [|discriminate].
    destruct (st f) eqn:Est; try discriminate.
    destruct (consumed f) eqn:Ec; [discriminate|].
    pose proof (sum_insert work_left _ _ _ (set_consumed f) E) as H1.
    pose proof (sum_insert to_yield _ _ _ (set_consumed f) E) as H2.
    rewrite work_left_set_consumed in H1. rewrite to_yield_set_consumed in H2.
    assert (to_yield f = 1) by (unfold to_yield; now rewrite Ec).
    destruct (decide (target ≤ size (collected_urls (runner s))));
      injection H as <-; cbn [futures main_thread].
    + pose proof (cancel_pending_work (<[i := set_consumed f]> (futures s))). lia.
    + lia.
  - destruct (main_thread s); try discriminate.
    destruct (forallb consumed (futures s)); [|discriminate].
    injection H as <-. cbn [futures main_thread]. lia.
  - destruct (main_thread s); try discriminate.
    destruct (forallb _ (futures s)); [|discriminate].
    injection H as <-. cbn [futures main_thread]. lia.
Qed.

(** What each action requires and does. *)
Lemma step_Start_inv (s s' : state) :
  step w target max_workers Start s = Some s' →
  running (futures s) < max_workers
  ∧ ∃ fs, start_next (futures s) = Some fs
          ∧ s' = {| runner := runner s; futures := fs; main_thread := main_thread s |}.
Proof.
  cbn [step]. destruct (decide (running (futures s) < max_workers)); [|discriminate].
  destruct (start_next (futures s)) as [fs|]; [|discriminate].
  intros [= <-]. split; [assumption|]. now exists fs.
Qed.

Lemma step_Finish_inv (i : nat) (s s' : state) :
  step w target max_workers (Finish i) s = Some s' →
  ∃ f, futures s !! i = Some f ∧ st f = RUNNING
       ∧ s' = {| runner := (_scrape_keyword w i (runner s) (kw f)).1;
                 futures := <[i := set_st f (FINISHED (_scrape_keyword w i (runner s) (kw f)).2)]>
                              (futures s);
                 main_thread := main_thread s |}.
Proof.
  cbn [step]. destruct (futures s !! i) as [f|]; [|discriminate].
  destruct (st f) eqn:Est; try discriminate.
  destruct (_scrape_keyword w i (runner s) (kw f)) as [r result] eqn:E.
  intros [= <-]. exists f. now rewrite E.
Qed.

Lemma step_Next_inv (i : nat) (s s' : state) :
  step w target max_workers (Next i) s = Some s' →
  main_thread s = Iterating
  ∧ ∃ f result, futures s !! i = Some f ∧ st f = FINISHED result ∧ consumed f = false
    ∧ ((target ≤ size (collected_urls (runner s))
        ∧ s' = {| runner := runner s;
                  futures := cancel_pending (<[i := set_consumed f]> (futures s));
                  main_thread := Joining |})
       ∨ (¬ target ≤ size (collected_urls (runner s))
          ∧ s' = {| runner := runner s;
                    futures := <[i := set_consumed f]> (futures s);
                    main_thread := Iterating |})).
Proof.
  cbn [step]. destruct (main_thread s); try discriminate.
  destruct (futures s !! i) as [f|]; [|discriminate].
  destruct (st f) as [| | |result] eqn:Est; try discriminate.
  destruct (consumed f) eqn:Ec; [discriminate|].
  intros H. split; [reflexivity|]. exists f, result.
  split; [reflexivity|]. split; [exact Est|]. split; [exact Ec|].
  destruct (decide (target ≤ size (collected_urls (runner s))));
    injection H as <-; [left | right]; now split.
Qed.

Lemma step_Stop_inv (s s' : state) :
  step w target max_workers Stop s = Some s' →
  main_thread s = Iterating ∧ forallb consumed (futures s) = true
  ∧ s' = {| runner := runner s; futures := futures s; main_thread := Joining |}.
Proof.
  cbn [step]. destruct (main_thread s); try discriminate.
  destruct (forallb consumed (futures s)); [|discriminate].
  now intros [= <-].
Qed.

Lemma step_Exit_inv (s s' : state) :
  step w target max_workers Exit s = Some s' →
  main_thread s = Joining
  ∧ forallb (λ f, negb (is_pending f) && negb (is_running f)) (futures s) = true
  ∧ s' = {| runner := runner s; futures := futures s;
            main_thread := Returned (size (collected_urls (runner s))) |}.
Proof.
  cbn [step]. destruct (main_thread s); try discriminate.
  destruct (forallb _ (futures s)); [|discriminate].
  now intros [= <-].
Qed.

Lemma start_next_none (fs : list future) :
  Forall (λ f, st f ≠ PENDING) fs → start_next fs = None.
Proof.
  induction 1 as [|f fs Hf _ IH]; [reflexivity|].
  cbn [start_next]. destruct (is_pending f) eqn:E.
  - now apply is_pending_spec in E.
  - now rewrite IH.
Qed.

Lemma cancel_pending_none (fs : list future) :
  Forall (λ f, st f ≠ PENDING) (cancel_pending fs).
Proof.
  induction fs as [|f fs IH]; [constructor|].
  change (cancel_pending (f :: fs))
    with ((if is_pending f then set_st f CANCELLED else f) :: cancel_pending fs).
  constructor; [|exact IH].
  destruct (is_pending f) eqn:E; [discriminate|].
  intros H. apply is_pending_spec in H. congruence.
Qed.

Lemma cancel_pending_lookup (fs : list future) (j : nat) (f : future) :
  fs !! j = Some f →
  cancel_pending fs !! j = Some (if is_pending f then set_st f CANCELLED else f).
Proof.
  intros H. unfold cancel_pending.
  change (map ?g fs) with (g <$> fs). now rewrite list_lookup_fmap, H.
Qed.

(** With nothing pending, the work left is that of the running futures. *)
Lemma work_left_running (fs : list future) :
  Forall (λ f, st f ≠ PENDING) fs → sum_list_with work_left fs = running fs.
Proof.
  unfold running.
  induction 1 as [|f fs Hf _ IH]; [reflexivity|].
  rewrite sum_with_cons, filter_cons, IH.
  unfold work_left, is_running. destruct (st f); try congruence.
  - destruct (decide (true = true)); [reflexivity | congruence].
  - destruct (decide (false = true)); [discriminate | reflexivity].
  - destruct (decide (false = true)); [discriminate | reflexivity].
Qed.

(** Once stopped, a run only lets the running tasks finish and then
    returns; futures that are not running stay as they are. *)
Lemma step_stopped (a : action) (s s' : state) :
  stopped target s → step w target max_workers a s = Some s' →
  stopped target s'
  ∧ ∀ j f, futures s !! j = Some f → st f ≠ RUNNING → futures s' !! j = Some f.
Proof.
  intros (Hmain & Hpend & Htot & Hret) H. destruct a as [|i|i| |].
  - apply step_Start_inv in H as (_ & fs & Hfs & _).
    now rewrite start_next_none in Hfs.
  - apply step_Finish_inv in H as (f & Hf & Hrun & ->).
    destruct (scrape_keyword_effect w i (runner s) (kw f)) as (_ & Hsub & _).
    split; [|].
    + unfold stopped. cbn [main_thread futures runner].
      split; [exact Hmain|]. split; [|split; [|exact Hret]].
      * apply Forall_insert; [exact Hpend | discriminate].
      * apply subseteq_size in Hsub. lia.
    + cbn [futures]. intros j g Hg Hnot.
      rewrite list_lookup_insert_ne; [exact Hg | congruence].
  - apply step_Next_inv in H as (Hit & _). congruence.
  - apply step_Stop_inv in H as (Hit & _). congruence.
  - apply step_Exit_inv in H as (_ & _ & ->). split; [|trivial].
    unfold stopped. cbn [main_thread futures runner].
    split; [discriminate|]. split; [exact Hpend|]. split; [exact Htot|].
    now intros total [= <-].
Qed.

(** Once stopped, no task is started and no result is processed. *)
Lemma stopped_idle (s : state) :
  stopped target s →
  step w target max_workers Start s = None
  ∧ ∀ k, step w target max_workers (Next k) s = None.
Proof.
  intros (Hmain & Hpend & _). split.
  - cbn [step]. rewrite start_next_none by exact Hpend.
    now destruct (decide (running (futures s) < max_workers)).
  - intros k. cbn [step]. destruct (main_thread s); [congruence | reflexivity..].
Qed.

Lemma exec_stopped (acts : list action) (s s' : state) :
  stopped target s → exec w target max_workers acts s = Some s' →
  stopped target s'
  ∧ ∀ j f, futures s !! j = Some f → st f ≠ RUNNING → futures s' !! j = Some f.
Proof.
  revert s. induction acts as [|a acts IH]; intros s Hs H; cbn [exec] in H.
  - injection H as <-. now split.
  - destruct (step w target max_workers a s) as [s1|] eqn:E; [|discriminate].
    cbn in H. destruct (step_stopped a s s1 Hs E) as [Hs1 Hkeep].
    destruct (IH s1 Hs1 H) as [Hs' Hkeep']. split; [exact Hs'|].
    intros j f Hf Hnot. apply Hkeep'; [now apply Hkeep | exact Hnot].
Qed.

(** A state that is past the loop with nothing pending is never stuck. *)
Lemma progress_joining (s : state) :
  main_thread s = Joining → Forall (λ f, st f ≠ PENDING) (futures s) →
  ∃ a s', step w target max_workers a s = Some s'.
Proof.
  intros Hmain Hpend.
  destruct (decide (Exists (λ f, is_running f = true) (futures s))) as [Hex|Hno].
  - apply Exists_exists in Hex as (f & Hin & Hrun). apply is_running_spec in Hrun.
    apply list_elem_of_lookup in Hin as [i Hi].
    exists (Finish i). cbn [step]. rewrite Hi, Hrun.
    destruct (_scrape_keyword w i (runner s) (kw f)). eauto.
  - exists Exit. cbn [step]. rewrite Hmain.
    assert (Hall : forallb (λ f, negb (is_pending f) && negb (is_running f)) (futures s)
                   = true).
    { apply forallb_forall. intros f Hin. apply list_elem_of_In in Hin.
      rewrite Forall_forall in Hpend. specialize (Hpend f Hin).
      assert (st f ≠ RUNNING).
      { intros Hr. apply Hno, Exists_exists. exists f.
        split; [exact Hin | now apply is_running_spec]. }
      unfold is_pending, is_running. destruct (st f); simpl; congruence. }
    rewrite Hall. eauto.
Qed.

Lemma start_next_finished (fs fs' : list future) :
  start_next fs = Some fs' → finished_in fs' fs.
Proof.
  revert fs'. induction fs as [|f fs IH]; intros fs' H; [discriminate|].
  cbn [start_next] in H. destruct (is_pending f) eqn:Ep.
  - injection H as <-. intros [|j] f' result Hl Hst.
    + injection Hl as <-. discriminate.
    + now exists f'.
  - destruct (start_next fs) as [fs0|]; [|discriminate].
    injection H as <-. intros [|j] f' result Hl Hst.
    + now exists f'.
    + exact (IH fs0 eq_refl j f' result Hl Hst).
Qed.

Lemma start_next_Forall (P : future → Prop) (fs fs' : list future) :
  (∀ f, P f → P (set_st f RUNNING)) →
  Forall P fs → start_next fs = Some fs' → Forall P fs'.
Proof.
  intros HP Hall. revert fs'.
  induction Hall as [|f fs Hf Hfs IH]; intros fs' H; [discriminate|].
  cbn [start_next] in H. destruct (is_pending f).
  - injection H as <-. constructor; [now apply HP | exact Hfs].
  - destruct (start_next fs) as [fs0|]; [|discriminate].
    injection H as <-. constructor; [exact Hf | now apply IH].
Qed.

Lemma start_next_some (fs : list future) :
  Exists (λ f, is_pending f = true) fs → is_Some (start_next fs).
Proof.
  induction 1 as [f fs Hf|f fs _ IH]; cbn [start_next].
  - rewrite Hf. eauto.
  - destruct (is_pending f); [eauto|].
    destruct IH as [fs0 ->]. cbn. eauto.
Qed.

Lemma insert_consumed_finished (fs : list future) (i : nat) (f : future) :
  fs !! i = Some f → finished_in (<[i := set_consumed f]> fs) fs.
Proof.
  intros Hf j f' result Hl Hst.
  apply list_lookup_insert_Some in Hl as [(-> & <- & _)|(_ & Hl)].
  - now exists f.
  - now exists f'.
Qed.

Lemma cancel_pending_finished (fs : list future) : finished_in (cancel_pending fs) fs.
Proof.
  intros j f' result Hl Hst. unfold cancel_pending in Hl.
  change (map ?g fs) with (g <$> fs) in Hl. rewrite list_lookup_fmap in Hl.
  destruct (fs !! j) as [f|]; [|discriminate]. injection Hl as <-.
  destruct (is_pending f); [discriminate|]. now exists f.
Qed.

Lemma finished_in_trans (fs1 fs2 fs3 : list future) :
  finished_in fs1 fs2 → finished_in fs2 fs3 → finished_in fs1 fs3.
Proof.
  intros H12 H23 j f1 result Hl Hst.
  destruct (H12 j f1 result Hl Hst) as (f2 & Hl2 & Hk2 & Hst2).
  destruct (H23 j f2 result Hl2 Hst2) as (f3 & Hl3 & Hk3 & Hst3).
  exists f3. repeat split; congruence.
Qed.

(** With the runner untouched, what was merged stays merged. *)
Lemma merged_same_runner (name : string) (s : state) (fs : list future) (m : phase) :
  merged w name s → finished_in fs (futures s) →
  merged w name {| runner := runner s; futures := fs; main_thread := m |}.
Proof.
  intros Hm Hfin j f result results u Hl Hst Ha Hu. cbn [futures runner] in *.
  destruct (Hfin j f result Hl Hst) as (f0 & Hl0 & Hk & Hst0).
  rewrite <- Hk in Ha. exact (Hm j f0 result results u Hl0 Hst0 Ha Hu).
Qed.

(** The invariant of a run is kept by every step. *)
Lemma step_invariant (name : string) (a : action) (s s' : state) :
  run_invariant w name s → step w target max_workers a s = Some s' →
  run_invariant w name s'.
Proof.
  intros [Hname Hstore Hiter Hmerged Hret] H. destruct a as [|i|i| |].
  - apply step_Start_inv in H as (_ & fs & Hfs & ->).
    split; cbn [runner futures main_thread].
    + exact Hname.
    + exact Hstore.
    + intros Hm. eapply start_next_Forall; [|exact (Hiter Hm)|exact Hfs].
      intros f _. discriminate.
    + apply merged_same_runner; [exact Hmerged | now apply start_next_finished].
    + intros total Hm. destruct (Hret total Hm) as [_ Hall].
      rewrite start_next_none in Hfs; [discriminate|].
      eapply Forall_impl; [exact Hall|]. now intros f [? _].
  - apply step_Finish_inv in H as (f & Hf & Hrun & ->).
    destruct (scrape_keyword_effect w i (runner s) (kw f))
      as (Hn & Hsub & Hok & Hnew).
    destruct (Hok Hstore) as [Hstore' Hload].
    split; cbn [runner futures main_thread].
    + congruence.
    + exact Hstore'.
    + intros Hm. apply Forall_insert; [exact (Hiter Hm) | discriminate].
    + intros j g result results u Hl Hst Ha Hu. cbn [runner futures] in *.
      apply list_lookup_insert_Some in Hl as [(-> & <- & _)|(_ & Hl)].
      * rewrite <- Hname in Ha. destruct (Hnew results u Ha Hu) as [Hc Hd].
        split; [exact Hc | now apply Hd].
      * destruct (Hmerged j g result results u Hl Hst Ha Hu) as [Hc Hd].
        split; [now apply Hsub|]. intros Hs. now apply Hload, Hd.
    + intros total Hm. destruct (Hret total Hm) as [_ Hall].
      rewrite Forall_forall in Hall.
      apply list_elem_of_lookup_2 in Hf. destruct (Hall f Hf). contradiction.
  - apply step_Next_inv in H
      as (Hm & f & result & Hf & Hst & Hc & [(_ & ->)|(_ & ->)]);
      split; cbn [runner futures main_thread].
    + exact Hname.
    + exact Hstore.
    + discriminate.
    + apply merged_same_runner; [exact Hmerged|].
      eapply finished_in_trans;
        [apply cancel_pending_finished | now apply insert_consumed_finished].
    + discriminate.
    + exact Hname.
    + exact Hstore.
    + intros _. apply Forall_insert; [exact (Hiter Hm)|].
      change (st (set_consumed f)) with (st f). congruence.
    + apply merged_same_runner; [exact Hmerged | now apply insert_consumed_finished].
    + discriminate.
  - apply step_Stop_inv in H as (_ & _ & ->).
    split; cbn [runner futures main_thread].
    + exact Hname.
    + exact Hstore.
    + discriminate.
    + apply merged_same_runner; [exact Hmerged | intros j f r ? ?; now exists f].
    + discriminate.
  - apply step_Exit_inv in H as (_ & Hall & ->).
    split; cbn [runner futures main_thread].
    + exact Hname.
    + exact Hstore.
    + discriminate.
    + apply merged_same_runner; [exact Hmerged | intros j f r ? ?; now exists f].
    + intros total [= <-]. split; [reflexivity|].
      apply Forall_forall. intros f Hin. apply list_elem_of_In in Hin.
      rewrite forallb_forall in Hall. specialize (Hall f Hin).
      unfold is_pending, is_running in Hall. destruct (st f); now split.
Qed.

Lemma exec_invariant (name : string) (acts : list action) (s s' : state) :
  run_invariant w name s → exec w target max_workers acts s = Some s' →
  run_invariant w name s'.
Proof.
  revert s. induction acts as [|a acts IH]; intros s Hs H; cbn [exec] in H.
  - now injection H as <-.
  - destruct (step w target max_workers a s) as [s1|] eqn:E; [|discriminate].
    cbn in H. eapply IH; [|exact H]. eapply step_invariant; eauto.
Qed.

(** A run that has not returned can take a step. *)
Lemma progress (s : state) :
  1 ≤ max_workers →
  (main_thread s = Iterating → Forall (λ f, st f ≠ CANCELLED) (futures s)) →
  (∃ total, main_thread s = Returned total)
  ∨ ∃ a s', step w target max_workers a s = Some s'.
Proof.
  intros Hw Hiter.
  destruct (decide (Exists (λ f, is_running f = true) (futures s))) as [Hex|Hno].
  { right. apply Exists_exists in Hex as (f & Hin & Hrun).
    apply is_running_spec in Hrun. apply list_elem_of_lookup in Hin as [i Hi].
    exists (Finish i). cbn [step]. rewrite Hi, Hrun.
    destruct (_scrape_keyword w i (runner s) (kw f)). eauto. }
  apply not_Exists_Forall in Hno; [|intros f; apply _].
  destruct (decide (Exists (λ f, is_pending f = true) (futures s))) as [Hex|Hnop].
  { right. exists Start. cbn [step].
    assert (Hrun : running (futures s) = 0).
    { unfold running. rewrite (filter_all_out _ (futures s)); [reflexivity|].
      intros f Hin. rewrite Forall_forall in Hno. exact (Hno f Hin). }
    destruct (decide (running (futures s) < max_workers)); [|lia].
    destruct (start_next_some _ Hex) as [fs ->]. cbn. eauto. }
  apply not_Exists_Forall in Hnop; [|intros f; apply _].
  assert (Hidle : Forall (λ f, st f ≠ PENDING) (futures s)).
  { eapply Forall_impl; [exact Hnop|]. intros f Hf Hp. apply Hf.
    now apply is_pending_spec. }
  destruct (main_thread s) as [| |total] eqn:Em.
  - right.
    destruct (decide (Exists (λ f, ready f = true) (futures s))) as [Hex|Hnor].
    + apply Exists_exists in Hex as (f & Hin & Hready).
      apply list_elem_of_lookup in Hin as [i Hi].
      exists (Next i). cbn [step]. rewrite Em, Hi.
      unfold ready in Hready. destruct (st f); try discriminate.
      apply negb_true_iff in Hready. rewrite Hready.
      destruct (decide (target ≤ size (collected_urls (runner s)))); eauto.
    + apply not_Exists_Forall in Hnor; [|intros f; apply _].
      exists Stop. cbn [step]. rewrite Em.
      assert (Hall : forallb consumed (futures s) = true).
      { apply forallb_forall. intros f Hin. apply list_elem_of_In in Hin.
        rewrite Forall_forall in Hno, Hnop, Hnor.
        specialize (Hno f Hin). specialize (Hnop f Hin). specialize (Hnor f Hin).
        specialize (Hiter eq_refl). rewrite Forall_forall in Hiter.
        specialize (Hiter f Hin). cbn beta in Hiter.
        destruct (st f) eqn:Est.
        - exfalso. apply Hnop. now apply is_pending_spec.
        - exfalso. apply Hno. now apply is_running_spec.
        - congruence.
        - destruct (consumed f) eqn:Ec; [reflexivity|].
          exfalso. apply Hnor. unfold ready. now rewrite Est, Ec. }
      rewrite Hall. eauto.
  - right. now apply progress_joining.
  - left. now exists total.
Qed.

Lemma exec_steps_left (acts : list action) (s s' : state) :
  exec w target max_workers acts s = Some s' →
  length acts + steps_left s' ≤ steps_left s.
Proof.
  revert s. induction acts as [|a acts IH]; intros s H; simpl in *.
  - injection H as <-. lia.
  - destruct (step w target max_workers a s) as [s1|] eqn:E; [|discriminate].
    simpl in H. apply IH in H. apply step_steps_left in E. lia.
Qed.

(** A run in which every task fails changes nothing. *)
Lemma step_all_failed (e : string) (r : BatchRunner) (a : action) (s s' : state) :
  (∀ task keyword, _scrape_keyword w task r keyword = (r, (keyword, 0, Some e))) →
  all_failed e r s → step w target max_workers a s = Some s' → all_failed e r s'.
Proof.
  intros Htask [Hr Hfin] H.
  assert (Hkeep : ∀ fs m, finished_in fs (futures s) →
            all_failed e r {| runner := runner s; futures := fs; main_thread := m |}).
  { intros fs m Hfs. split; [exact Hr|]. cbn [futures].
    intros j f result Hl Hst.
    destruct (Hfs j f result Hl Hst) as (f0 & Hl0 & Hk & Hst0).
    rewrite <- Hk. exact (Hfin j f0 result Hl0 Hst0). }
  destruct a as [|i|i| |].
  - apply step_Start_inv in H as (_ & fs & Hfs & ->).
    apply Hkeep. now apply start_next_finished.
  - apply step_Finish_inv in H as (f & Hf & Hrun & ->).
    rewrite Hr, Htask. cbn [fst snd]. split; [reflexivity|]. cbn [futures].
    intros j g result Hl Hst.
    apply list_lookup_insert_Some in Hl as [(-> & <- & _)|(_ & Hl)].
    + injection Hst as <-. reflexivity.
    + exact (Hfin j g result Hl Hst).
  - apply step_Next_inv in H as (_ & f & result & Hf & _ & _ & [(_ & ->)|(_ & ->)]);
      apply Hkeep.
    + eapply finished_in_trans;
        [apply cancel_pending_finished | now apply insert_consumed_finished].
    + now apply insert_consumed_finished.
  - apply step_Stop_inv in H as (_ & _ & ->).
    apply Hkeep. intros j f result ? ?. now exists f.
  - apply step_Exit_inv in H as (_ & _ & ->).
    apply Hkeep. intros j f result ? ?. now exists f.
Qed.

Lemma exec_all_failed (e : string) (r : BatchRunner) (acts : list action) (s s' : state) :
  (∀ task keyword, _scrape_keyword w task r keyword = (r, (keyword, 0, Some e))) →
  all_failed e r s → exec w target max_workers acts s = Some s' → all_failed e r s'.
Proof.
  intros Htask. revert s. induction acts as [|a acts IH]; intros s Hs H; cbn [exec] in H.
  - now injection H as <-.
  - destruct (step w target max_workers a s) as [s1|] eqn:E; [|discriminate].
    cbn in H. eapply IH; [|exact H]. eapply step_all_failed; eauto.
Qed.

End Steps.

Lemma submit_all_lookup (keywords : list string) (j : nat) (f : future) :
  submit_all keywords !! j = Some f → st f = PENDING.
Proof.
  unfold submit_all. change (map ?g keywords) with (g <$> keywords).
  rewrite list_lookup_fmap. destruct (keywords !! j); [|discriminate].
  now intros [= <-].
Qed.

Lemma init_steps_left (r : BatchRunner) (keywords : list string) :
  steps_left (init_state r keywords) = 3 * length keywords + 2.
Proof.
  unfold steps_left, init_state, unconsumed. cbn [futures main_thread].
  induction keywords as [|k keywords IH]; [reflexivity|].
  change (submit_all (k :: keywords))
    with ({| kw := k; st := PENDING; consumed := false |} :: submit_all keywords).
  rewrite !sum_with_cons. cbn [length].
  change (work_left {| kw := k; st := PENDING; consumed := false |}) with 2.
  change (to_yield {| kw := k; st := PENDING; consumed := false |}) with 1.
  lia.
Qed.

Lemma init_invariant (w : World) (r : BatchRunner) (keywords : list string) :
  store_ok (output r) MASTER_FILE →
  run_invariant w (config_name r) (init_state r keywords).
Proof.
  intros Hok. split; cbn [runner futures main_thread init_state].
  - reflexivity.
  - exact Hok.
  - intros _. apply Forall_forall. intros f Hin.
    apply list_elem_of_lookup in Hin as [j Hj].
    apply submit_all_lookup in Hj. congruence.
  - intros j f result results u Hl Hst. cbn [futures] in Hl.
    apply submit_all_lookup in Hl. congruence.
  - discriminate.
Qed.

Lemma init_all_failed (e : string) (r : BatchRunner) (keywords : list string) :
  all_failed e r (init_state r keywords).
Proof.
  split; [reflexivity|]. cbn [futures init_state]. intros j f result Hl Hst.
  apply submit_all_lookup in Hl. congruence.
Qed.

(** An invalid configuration makes the construction of the scraper raise. *)
Lemma config_invalid_raises (config_dir : gmap string (outcome (part Config)))
    (name : string) :
  config_invalid config_dir name = true →
  ∃ e, YouTubeScraper_init config_dir name = Raise e.
Proof.
  unfold config_invalid, YouTubeScraper_init, load, _get_extractor_class.
  cbv zeta.
  destruct (config_dir !! (name +:+ ".yaml")) as [[[config|v]|e]|];
    cbn [mbind outcome_bind].
  - intros H. destruct (options config) as [opts|v]; [|now eexists].
    destruct (EXTRACTORS_get (default (VStr "channel") (type_ config)))
      as [[c|]|e]; [discriminate| |]; eexists; reflexivity.
  - discriminate.
  - intros _. now exists e.
  - intros _. eexists. reflexivity.
Qed.

End BatchFacts.

(** ** Properties of the batch run *)
Module RunProperties.
Import Text Py Output OutputFacts Extractors Scrapers Batch BatchFacts Samples.

(** C4.  Target-based early stop: when the loop body of [run] processes a
    result and the total has reached the target, the main thread leaves the
    loop and every future that has not started is cancelled.  From then on,
    whatever happens: no further result is processed and no task is
    started, so a cancelled future stays cancelled; the total stays at
    least the target; the run takes at most one more step per task that was
    already running, plus the exit; it is never stuck before it has
    returned; and the total it reports is at least the target. *)
Theorem target_early_stop (w : World) (target max_workers i : nat) (s s' : state) :
  step w target max_workers (Next i) s = Some s' →
  target ≤ size (collected_urls (runner s)) →
  main_thread s' = Joining
  ∧ (∀ j f, futures s !! j = Some f → st f = PENDING →
            futures s' !! j = Some (set_st f CANCELLED))
  ∧ ∀ acts s'', exec w target max_workers acts s' = Some s'' →
      length acts ≤ running (futures s') + 1
      ∧ (∀ k, step w target max_workers (Next k) s'' = None)
      ∧ step w target max_workers Start s'' = None
      ∧ (∀ j f, futures s' !! j = Some f → st f = CANCELLED → futures s'' !! j = Some f)
      ∧ target ≤ size (collected_urls (runner s''))
      ∧ (∀ total, main_thread s'' = Returned total → target ≤ total)
      ∧ ((∃ total, main_thread s'' = Returned total)
         ∨ ∃ a s3, step w target max_workers a s'' = Some s3).
Proof.
  intros Hstep Htarget.
  apply step_Next_inv in Hstep
    as (_ & f & result & Hf & Hst & _ & [(_ & ->)|(Hn & _)]); [|contradiction].
  cbn [main_thread futures runner].
  assert (Hstopped : stopped target
            {| runner := runner s;
               futures := cancel_pending (<[i := set_consumed f]> (futures s));
               main_thread := Joining |}).
  { unfold stopped. cbn [main_thread futures runner].
    split; [discriminate|]. split; [apply cancel_pending_none|].
    split; [exact Htarget | discriminate]. }
  split; [reflexivity|]. split.
  - intros j g Hg Hpend.
    assert (Hne : i ≠ j) by (intros ->; congruence).
    rewrite (cancel_pending_lookup _ j g)
      by (rewrite list_lookup_insert_ne; [exact Hg | exact Hne]).
    apply is_pending_spec in Hpend. now rewrite Hpend.
  - intros acts s'' Hexec.
    destruct (exec_stopped w target max_workers acts _ _ Hstopped Hexec)
      as [Hstopped' Hkeep].
    destruct (stopped_idle w target max_workers s'' Hstopped') as [Hstart Hnext].
    destruct Hstopped' as (Hmain & Hpend & Htot & Hret).
    apply exec_steps_left in Hexec. unfold steps_left in Hexec at 2.
    cbn [main_thread futures] in Hexec.
    rewrite work_left_running in Hexec by apply cancel_pending_none.
    split; [lia|]. split; [exact Hnext|]. split; [exact Hstart|]. split.
    { intros j g Hg Hc. apply Hkeep; [exact Hg | congruence]. }
    split; [exact Htot|]. split; [exact Hret|].
    destruct (main_thread s'') as [| |total] eqn:Em.
    + congruence.
    + right. now apply progress_joining.
    + left. now exists total.
Qed.

Lemma target_early_stop_witness :
  step good_world 1 1 (Next 0) first_done = Some first_seen
  ∧ 1 ≤ size (collected_urls (runner first_done))
  ∧ main_thread first_seen = Joining
  ∧ (∀ j f, futures first_done !! j = Some f → st f = PENDING →
            futures first_seen !! j = Some (set_st f CANCELLED))
  ∧ ∀ acts s'', exec good_world 1 1 acts first_seen = Some s'' →
      length acts ≤ running (futures first_seen) + 1
      ∧ (∀ k, step good_world 1 1 (Next k) s'' = None)
      ∧ step good_world 1 1 Start s'' = None
      ∧ (∀ j f, futures first_seen !! j = Some f → st f = CANCELLED →
                futures s'' !! j = Some f)
      ∧ 1 ≤ size (collected_urls (runner s''))
      ∧ (∀ total, main_thread s'' = Returned total → 1 ≤ total)
      ∧ ((∃ total, main_thread s'' = Returned total)
         ∨ ∃ a s3, step good_world 1 1 a s'' = Some s3).
Proof.
  assert (H1 : step good_world 1 1 (Next 0) first_done = Some first_seen)
    by (vm_compute; reflexivity).
  assert (H2 : 1 ≤ size (collected_urls (runner first_done))) by by_evaluation.
  split; [exact H1|]. split; [exact H2|].
  exact (target_early_stop good_world 1 1 0 first_done first_seen H1 H2).
Defined.

(** In the run of [flaky_world] the browser of the first task cannot be
    started; the task returns its error, the second task's channels are
    collected and written, and the run returns with a total of 2. *)
Example flaky_run :
  exec flaky_world 1000 2
    [Start; Start; Finish 1; Finish 0; Next 0; Next 1; Stop; Exit]
    (init_state fresh_runner ["a"; "b"])
  = Some {| runner :=
              {| config_name := "channels";
                 output := {[ "all_channels.csv" :=
                                "channel_url" +:+ nl +:+ u1 +:+ nl +:+ u3 +:+ nl ]};
                 collected_urls := {[ u1; u3 ]} |};
            futures :=
              [ {| kw := "a"; st := FINISHED ("a", 0, Some "session not created");
                   consumed := true |};
                {| kw := "b"; st := FINISHED ("b", 2, None); consumed := true |} ];
            main_thread := Returned 2 |}.
Proof. vm_compute. reflexivity. Qed.

(** C8 (as amended).  Configuration failure: when the configuration is
    invalid, building the scraper raises.  In the single-query program
    nothing handles the exception, so that run ends before it scrapes.  In
    the batch runner the scraper is built inside each task and the exception
    is caught there: every task returns [(keyword, 0, error)], and in every
    state of the run the runner, with its files and its collected URLs, is
    as it was at the start. *)
Theorem config_failure (w : World) (name : string) :
  config_invalid (config_dir w) name = true →
  ∃ e, YouTubeScraper_init (config_dir w) name = Raise e
    ∧ (∀ create query, main (config_dir w) create name query = Raise e)
    ∧ (∀ task self keyword,
         config_name self = name →
         _scrape_keyword w task self keyword = (self, (keyword, 0, Some e)))
    ∧ ∀ target max_workers r keywords acts s,
        config_name r = name →
        exec w target max_workers acts (init_state r keywords) = Some s →
        runner s = r
        ∧ ∀ j f result,
            futures s !! j = Some f → st f = FINISHED result →
            result = (kw f, 0, Some e).
Proof.
  intros Hbad. destruct (config_invalid_raises _ _ Hbad) as [e He].
  assert (Htask : ∀ task self keyword,
            config_name self = name →
            _scrape_keyword w task self keyword = (self, (keyword, 0, Some e))).
  { intros task self keyword Hn. unfold _scrape_keyword, attempt.
    now rewrite Hn, He. }
  exists e. split; [exact He|]. split.
  { intros create query. unfold main. now rewrite He. }
  split; [exact Htask|].
  intros target max_workers r keywords acts s Hn Hexec.
  eapply (exec_all_failed w target max_workers e r); [|apply init_all_failed|exact Hexec].
  intros task keyword. now apply Htask.
Qed.

Lemma config_failure_witness :
  config_invalid (config_dir no_config_world) "channels" = true
  ∧ ∃ e, YouTubeScraper_init (config_dir no_config_world) "channels" = Raise e
    ∧ (∀ create query,
         main (config_dir no_config_world) create "channels" query = Raise e)
    ∧ (∀ task self keyword,
         config_name self = "channels" →
         _scrape_keyword no_config_world task self keyword
         = (self, (keyword, 0, Some e)))
    ∧ ∀ target max_workers r keywords acts s,
        config_name r = "channels" →
        exec no_config_world target max_workers acts (init_state r keywords) = Some s →
        runner s = r
        ∧ ∀ j f result,
            futures s !! j = Some f → st f = FINISHED result →
            result = (kw f, 0, Some e).
Proof.
  assert (H : config_invalid (config_dir no_config_world) "channels" = true)
    by reflexivity.
  split; [exact H|].
  exact (config_failure no_config_world "channels" H).
Defined.

(** C8 as stated fails for the batch runner: with the configuration file
    missing, the run begins, the task of the term is started and finishes
    with the error as its result, and the run returns with its summary. *)
Lemma config_failure_counterexample :
  config_invalid (config_dir no_config_world) "channels" = true
  ∧ exec no_config_world 1000 5 [Start; Finish 0; Next 0; Stop; Exit]
      (init_state fresh_runner ["rocq"])
    = Some {| runner := fresh_runner;
              futures :=
                [ {| kw := "rocq";
                     st := FINISHED ("rocq", 0,
                                     Some "Config file not found: config/channels.yaml");
                     consumed := true |} ];
              main_thread := Returned 0 |}.
Proof. split; vm_compute; reflexivity. Qed.

End RunProperties.

(** ** Further properties of the deduplicating store *)
Module StoreLaws.
Import Text TextFacts Output OutputFacts Collected Samples.

Lemma length_append (a b : string) :
  String.length (a +:+ b) = String.length a + String.length b.
Proof.
  induction a as [|c a IH]; [reflexivity|].
  rewrite append_cons. simpl. now rewrite IH.
Qed.

Lemma append_grows (a b : string) : b ≠ EmptyString → a +:+ b ≠ a.
Proof.
  intros Hb H. apply (f_equal String.length) in H. rewrite length_append in H.
  destruct b; [congruence | simpl in H; lia].
Qed.

(** X1.  [append] returns 0 exactly when it leaves the directory as it was,
    and it never touches a file other than the one it is given; so a call
    that has nothing new to add creates no file, not even a header. *)
Theorem append_zero_iff_unchanged (fs : files) (data : list string) (f col : string)
    (d : bool) :
  ((append fs data f col d).2 = 0 ↔ (append fs data f col d).1 = fs)
  ∧ ∀ g, g ≠ f → (append fs data f col d).1 !! g = fs !! g.
Proof.
  destruct (append_cases fs data f col d) as [[_ ->]|[Hne ->]]; cbn [fst snd].
  - split; [tauto | reflexivity].
  - split.
    + split.
      * intros H. exfalso. apply Hne. now apply length_zero_iff_nil.
      * intros H. exfalso. apply (f_equal (λ m, m !! f)) in H.
        rewrite lookup_insert_eq in H. unfold open_append in H.
        destruct (fs !! f) as [content|]; [|discriminate].
        injection H as H. revert H. apply append_grows.
        destruct (new_items _ data d) as [|i items]; [congruence|].
        apply lines_text_nonempty.
    + intros g Hg. now rewrite lookup_insert_ne.
Qed.

Lemma filter_all_in {A} (P : A → Prop) `{∀ x, Decision (P x)} (l : list A) :
  (∀ x, x ∈ l → P x) → filter P l = l.
Proof.
  induction l as [|x l IH]; intros Hall; [reflexivity|].
  rewrite filter_cons. destruct (decide (P x)) as [_|Hn].
  - f_equal. apply IH. intros y Hy. apply Hall. now right.
  - exfalso. apply Hn, Hall. left.
Qed.

Lemma load_canonical (fs : files) (f col : string) (ks : list string) :
  fs !! f = Some (canonical col ks) → header_ok col = true →
  Forall (λ k, storable col k = true) ks →
  load_existing fs f col = list_to_set ks.
Proof.
  intros Hf Hh Hks. unfold load_existing. rewrite Hf. unfold canonical.
  rewrite <- append_assoc, scan_written, scan_header; trivial.
  - now rewrite (left_id_L ∅ (∪)).
  - apply line_terminated_app_nl.
Qed.

(** X2.  The key file stays in canonical form: when it holds the header and
    then distinct storable keys [ks], one per line, a deduplicating call
    with distinct storable keys leaves the header, the keys [ks] and then
    the submitted keys that are not among [ks], in the order of
    submission; no key occurs twice, and the call returns the number of
    keys it added.  A first call on an absent file writes the header and
    the submitted keys. *)
Theorem append_canonical (fs : files) (f col : string) (ks data : list string) :
  header_ok col = true →
  Forall (λ k, storable col k = true) data → NoDup data →
  (fs !! f = Some (canonical col ks) →
   Forall (λ k, storable col k = true) ks → NoDup ks →
   let added := filter (λ k, k ∉ ks) data in
   append fs data f col true = (<[f := canonical col (ks ++ added)]> fs, length added)
   ∧ NoDup (ks ++ added)
   ∧ Forall (λ k, storable col k = true) (ks ++ added))
  ∧ (fs !! f = None → data ≠ [] →
     append fs data f col true = (<[f := canonical col data]> fs, length data)).
Proof.
  intros Hh Hdata Hnd. split.
  - intros Hf Hks Hndk added.
    assert (Hitems : new_items (load_existing fs f col) data true = added).
    { unfold new_items, added. rewrite (load_canonical fs f col ks) by trivial.
      apply list_filter_iff. intros k. now rewrite elem_of_list_to_set. }
    assert (Hadded : Forall (λ k, storable col k = true) added).
    { rewrite <- Hitems. now apply Forall_new_items. }
    split; [|split].
    + destruct (append_cases fs data f col true) as [[E ->]|[_ ->]];
        cbn zeta in *; rewrite Hitems in *.
      * rewrite E, app_nil_r. cbn [length]. f_equal.
        symmetry. now apply insert_id.
      * f_equal. f_equal. unfold open_append. rewrite Hf. unfold canonical.
        now rewrite lines_text_app, !append_assoc.
    + apply NoDup_app. split; [exact Hndk|]. split.
      * intros k Hk Hin. unfold added in Hin.
        apply list_elem_of_filter in Hin as [Hnot _]. contradiction.
      * now apply NoDup_filter.
    + apply Forall_app. now split.
  - intros Hf Hne.
    assert (Hitems : new_items (load_existing fs f col) data true = data).
    { unfold new_items. rewrite load_absent by exact Hf.
      apply filter_all_in. intros k _. apply not_elem_of_empty. }
    destruct (append_cases fs data f col true) as [[E _]|[_ ->]];
      cbn zeta in *; rewrite Hitems in *; [contradiction|].
    unfold open_append, canonical. rewrite Hf. now rewrite append_assoc.
Qed.

Lemma append_canonical_witness :
  header_ok "channel_url" = true
  ∧ one_key !! "all_channels.csv" = Some (canonical "channel_url" [u1])
  ∧ (append one_key [u2; u1; u3] "all_channels.csv" "channel_url" true
     = (<["all_channels.csv" :=
            canonical "channel_url" ([u1] ++ filter (λ k, k ∉ [u1]) [u2; u1; u3])]>
          one_key,
        length (filter (λ k, k ∉ [u1]) [u2; u1; u3])))
  ∧ filter (λ k, k ∉ [u1]) [u2; u1; u3] = [u2; u3].
Proof.
  assert (Hh : header_ok "channel_url" = true) by reflexivity.
  assert (Hf : one_key !! "all_channels.csv" = Some (canonical "channel_url" [u1]))
    by (vm_compute; reflexivity).
  split; [exact Hh|]. split; [exact Hf|]. split; [|by_evaluation].
  destruct (append_canonical one_key "all_channels.csv" "channel_url" [u1] [u2; u1; u3])
    as [H _]; [exact Hh | by_evaluation | by_evaluation |].
  destruct H as [H _]; [exact Hf | by_evaluation | by_evaluation |].
  exact H.
Defined.

End StoreLaws.

(** ** Properties of the structured output *)
Module SavingLaws.
Import Text TextFacts Py Output OutputFacts Saving Samples MoreSamples.

#[local] Arguments isalnum : simpl never.

Lemma occurs_append (c : ascii) (a b : string) :
  occurs c (a +:+ b) = occurs c a || occurs c b.
Proof.
  induction a as [|x a IH]; [reflexivity|].
  rewrite append_cons. simpl. now rewrite IH, orb_assoc.
Qed.

Lemma isalnum_underscore : isalnum "_"%char = false.
Proof. reflexivity. Qed.

Lemma occurs_safe_suffix (c : ascii) (s : string) :
  occurs c (safe_suffix s) = true → isalnum c = true ∨ c = "_"%char.
Proof.
  induction s as [|x s IH]; [discriminate|]. simpl.
  intros H. apply orb_true_iff in H as [H|H]; [|now apply IH].
  apply Ascii.eqb_eq in H. subst c.
  destruct (isalnum x) eqn:E; [now left | now right].
Qed.

Lemma safe_suffix_cons (x : ascii) (s : string) :
  safe_suffix (String x s) = String (if isalnum x then x else "_"%char) (safe_suffix s).
Proof. reflexivity. Qed.

(** X3.  The sanitiser of [_generate_filename] keeps the length of the
    suffix, keeps every alphanumeric character where it is, leaves nothing
    but alphanumeric characters and underscores, and changes nothing when
    applied a second time. *)
Theorem safe_suffix_laws (s : string) :
  String.length (safe_suffix s) = String.length s
  ∧ (∀ i c, String.get i s = Some c → isalnum c = true →
            String.get i (safe_suffix s) = Some c)
  ∧ (∀ c, occurs c (safe_suffix s) = true → isalnum c = true ∨ c = "_"%char)
  ∧ safe_suffix (safe_suffix s) = safe_suffix s.
Proof.
  split; [|split; [|split]].
  - induction s as [|x s IH]; [reflexivity|].
    rewrite safe_suffix_cons. cbn [String.length]. rewrite IH. reflexivity.
  - induction s as [|x s IH]; intros i c Hget Hc; [discriminate|].
    rewrite safe_suffix_cons.
    destruct i as [|i]; cbn [String.get] in *.
    + injection Hget as ->. rewrite Hc. reflexivity.
    + apply IH; assumption.
  - intros c. apply occurs_safe_suffix.
  - induction s as [|x s IH]; [reflexivity|].
    rewrite !safe_suffix_cons. rewrite IH. f_equal.
    destruct (isalnum x) eqn:E; [rewrite E | rewrite isalnum_underscore]; reflexivity.
Qed.

(** X4.  A character that is neither alphanumeric nor the underscore, such
    as the slash or the dot, occurs in a generated file name only if it
    occurs in the base name or in the timestamp: nothing of the kind comes
    from the suffix. *)
Theorem generate_filename_clean (c : ascii) (base_name now : string)
    (suffix : option string) (include_timestamp : bool) :
  isalnum c = false → c ≠ "_"%char →
  occurs c base_name = false → occurs c now = false →
  occurs c (_generate_filename base_name suffix include_timestamp now) = false.
Proof.
  intros Hc Hu Hbase Hnow.
  assert (Hsep : occurs c "_" = false).
  { change (occurs c "_") with (Ascii.eqb "_"%char c || false).
    rewrite orb_false_r. apply Ascii.eqb_neq. congruence. }
  assert (Hsafe : ∀ s, occurs c (safe_suffix s) = false).
  { intros s. destruct (occurs c (safe_suffix s)) eqn:E; [|reflexivity].
    apply occurs_safe_suffix in E as [E|E]; congruence. }
  unfold _generate_filename.
  destruct suffix as [s|]; [destruct (truthy s)|]; destruct include_timestamp;
    cbn [app String.concat];
    rewrite ?occurs_append, ?Hbase, ?Hsep, ?Hsafe, ?Hnow; reflexivity.
Qed.


Lemma generate_filename_clean_witness :
  isalnum "/"%char = false
  ∧ occurs "/"%char (_generate_filename "channels" (Some "a/b ../c") true "20240101_120000")
    = false
  ∧ _generate_filename "channels" (Some "a/b ../c") true "20240101_120000"
    = "channels_a_b____c_20240101_120000".
Proof.
  split; [reflexivity|]. split; [|reflexivity].
  apply generate_filename_clean; [reflexivity | discriminate | reflexivity..].
Defined.



End SavingLaws.

(** ** Further properties of the channel extractor *)
Module ExtractorLaws.
Import Text TextFacts Py Extractors Samples MoreSamples OutputFacts ExtractorProperties.

Lemma lstrip_head (s : string) (c : ascii) (r : string) :
  lstrip s = String c r → isspace c = false.
Proof.
  induction s as [|x s IH]; [discriminate|]. cbn [lstrip].
  destruct (isspace x) eqn:E; [exact IH|]. intros [= <- _]. exact E.
Qed.

Lemma rstrip_idem (s : string) : rstrip (rstrip s) = rstrip s.
Proof.
  induction s as [|c s IH]; [reflexivity|]. cbn [rstrip].
  destruct (rstrip s) as [|d r] eqn:E.
  - destruct (isspace c) eqn:Ec; [reflexivity|]. cbn [rstrip]. now rewrite Ec.
  - cbn [rstrip]. cbn [rstrip] in IH. now rewrite IH.
Qed.

Lemma rstrip_head (c : ascii) (s : string) :
  isspace c = false → ∃ r, rstrip (String c s) = String c r.
Proof.
  intros Hc. cbn [rstrip]. destruct (rstrip s) as [|d r].
  - rewrite Hc. now eexists.
  - now eexists.
Qed.

(** Stripping a stripped string changes nothing. *)
Lemma strip_idem (s : string) : strip (strip s) = strip s.
Proof.
  unfold strip at 2 3. destruct (lstrip s) as [|c t] eqn:E; [reflexivity|].
  apply lstrip_head in E as Hc. destruct (rstrip_head c t Hc) as [r Hr].
  unfold strip. rewrite Hr. cbn [lstrip]. rewrite Hc, <- Hr. apply rstrip_idem.
Qed.

Lemma safe_get_text_stripped (element : WebElement) (selector : string) :
  strip (safe_get_text element selector) = safe_get_text element selector.
Proof.
  unfold safe_get_text. destruct (find_element element selector) as [found|];
    [|reflexivity].
  destruct (text found); [apply strip_idem | reflexivity].
Qed.

(** The loop of [extract] keeps what it has and adds, in order, the records
    of the usable elements. *)
Lemma collect_filter_map (config : Config) (items : list WebElement)
    (acc : list (gmap string string)) :
  foldl (keep_usable config) acc items
  = acc ++ filter (λ ch, get_truthy ch "channel_url" = true)
             (map (_extract_channel_data config) items).
Proof.
  revert acc. induction items as [|item items IH]; intros acc.
  - cbn [foldl map]. now rewrite filter_nil, app_nil_r.
  - cbn [foldl map]. rewrite IH, filter_cons. unfold keep_usable.
    destruct (get_truthy (_extract_channel_data config item) "channel_url") eqn:E.
    + destruct (decide (true = true)); [|congruence]. now rewrite <- app_assoc.
    + destruct (decide (false = true)); [discriminate | reflexivity].
Qed.

(** X6.  What [extract] returns is empty, or holds the records of the
    elements that [find_elements] gave, in their order, one for each
    element whose record has a [channel_url], and none for the others. *)
Theorem extract_in_order (driver : WebDriver) (config : Config) (query : string)
    (channels : list (gmap string string)) :
  extract driver config query = Ok channels →
  channels = []
  ∨ ∃ page items,
      driver_get driver (build_search_url config query) = Ok page
      ∧ find_elements page
          (dict_get (selectors config) "item_container" "ytd-channel-renderer")
        = Ok items
      ∧ channels = filter (λ ch, get_truthy ch "channel_url" = true)
                     (map (_extract_channel_data config) items).
Proof.
  unfold extract.
  destruct (driver_get driver (build_search_url config query)) as [page|e] eqn:Eg;
    [|discriminate].
  unfold mbind at 1, outcome_bind at 1.
  destruct (wait_for_element page _) as [[]|e]; [|intros [= <-]; now left].
  destruct (scroll_page page config) as [[]|e]; [|discriminate].
  unfold mbind at 1, outcome_bind at 1.
  destruct (find_elements page _) as [items|e] eqn:Ef; [|discriminate].
  intros [= <-]. right. exists page, items.
  split; [reflexivity|]. split; [exact Ef|].
  unfold collect_channels. rewrite collect_filter_map. reflexivity.
Qed.

Lemma extract_in_order_witness :
  let found := [result_element None "zero";
                result_element (Some "/channel/UC123") "first";
                result_element (Some u2) "second"] in
  extract (browser found) channels_yaml "rocq"
  = Ok [_extract_channel_data channels_yaml (result_element (Some "/channel/UC123") "first");
        _extract_channel_data channels_yaml (result_element (Some u2) "second")]
  ∧ ([_extract_channel_data channels_yaml (result_element (Some "/channel/UC123") "first");
      _extract_channel_data channels_yaml (result_element (Some u2) "second")]
     = []
     ∨ ∃ page items,
         driver_get (browser found) (build_search_url channels_yaml "rocq") = Ok page
         ∧ find_elements page
             (dict_get (selectors channels_yaml) "item_container" "ytd-channel-renderer")
           = Ok items
         ∧ [_extract_channel_data channels_yaml
              (result_element (Some "/channel/UC123") "first");
            _extract_channel_data channels_yaml (result_element (Some u2) "second")]
           = filter (λ ch, get_truthy ch "channel_url" = true)
               (map (_extract_channel_data channels_yaml) items)).
Proof.
  intros found.
  assert (H : extract (browser found) channels_yaml "rocq"
              = Ok [_extract_channel_data channels_yaml
                      (result_element (Some "/channel/UC123") "first");
                    _extract_channel_data channels_yaml
                      (result_element (Some u2) "second")])
    by reflexivity.
  split; [exact H|].
  exact (extract_in_order _ _ _ _ H).
Defined.

Lemma normalised_http (raw : string) :
  truthy (if truthy raw && negb (startswith raw "http")
          then "https://www.youtube.com" +:+ raw else raw) = true →
  startswith (if truthy raw && negb (startswith raw "http")
              then "https://www.youtube.com" +:+ raw else raw) "http" = true.
Proof.
  destruct (truthy raw) eqn:Et; cbn [andb].
  - destruct (startswith raw "http") eqn:Es; cbn [negb]; [now rewrite Es|].
    intros _. reflexivity.
  - now rewrite Et.
Qed.

(** X7.  Every record that [extract] returns has a [channel_url] that
    starts with [http]: what was relative has the origin in front, and a
    URL that does not start with [http] is never returned as it is. *)
Theorem extract_urls_absolute (driver : WebDriver) (config : Config) (query : string)
    (channels : list (gmap string string)) :
  extract driver config query = Ok channels →
  ∀ channel, channel ∈ channels →
    ∃ url, channel !! "channel_url" = Some url ∧ startswith url "http" = true.
Proof.
  intros H channel Hin.
  apply extract_inv in H. destruct H as [->|[items ->]]; [inversion Hin|].
  unfold collect_channels in Hin. rewrite collect_filter_map in Hin.
  cbn [app] in Hin. apply list_elem_of_filter in Hin as [Hok Hin].
  apply list_elem_of_fmap in Hin as (item & -> & _).
  unfold get_truthy in Hok. rewrite channel_url_lookup in Hok. cbv zeta in Hok.
  eexists. split; [apply channel_url_lookup|]. cbv zeta.
  now apply normalised_http.
Qed.

Lemma extract_urls_absolute_witness :
  let found := [result_element (Some "/channel/UC123") "first";
                result_element (Some "javascript:void(0)") "second"] in
  extract (browser found) channels_yaml "rocq"
  = Ok (map (_extract_channel_data channels_yaml) found)
  ∧ ∀ channel, channel ∈ map (_extract_channel_data channels_yaml) found →
      ∃ url, channel !! "channel_url" = Some url ∧ startswith url "http" = true.
Proof.
  intros found.
  assert (H : extract (browser found) channels_yaml "rocq"
              = Ok (map (_extract_channel_data channels_yaml) found))
    by reflexivity.
  split; [exact H|].
  exact (extract_urls_absolute _ _ _ _ H).
Defined.

(** X8.  A record of [_extract_channel_data] has exactly the five fields
    [channel_name], [channel_url], [subscribers], [video_count] and
    [description], whatever the element offers, and its four text fields
    are stripped. *)
Theorem channel_record_shape (config : Config) (item : WebElement) :
  dom (_extract_channel_data config item)
  = ({[ "channel_name"; "channel_url"; "subscribers"; "video_count"; "description" ]}
     : gset string)
  ∧ ∀ key, key ∈ ["channel_name"; "subscribers"; "video_count"; "description"] →
      ∃ v, _extract_channel_data config item !! key = Some v ∧ strip v = v.
Proof.
  split.
  - unfold _extract_channel_data. rewrite !dom_insert_L, dom_empty_L.
    now rewrite (right_id_L ∅ (∪)), !(assoc_L (∪)).
  - intros key Hkey. unfold _extract_channel_data.
    repeat (apply elem_of_cons in Hkey as [->|Hkey]);
      [| | | |inversion Hkey].
    + rewrite lookup_insert_eq. eexists. split; [reflexivity|].
      apply safe_get_text_stripped.
    + do 2 (rewrite lookup_insert_ne by discriminate). rewrite lookup_insert_eq.
      eexists. split; [reflexivity|]. apply safe_get_text_stripped.
    + do 3 (rewrite lookup_insert_ne by discriminate). rewrite lookup_insert_eq.
      eexists. split; [reflexivity|]. apply safe_get_text_stripped.
    + do 4 (rewrite lookup_insert_ne by discriminate). rewrite lookup_insert_eq.
      eexists. split; [reflexivity|]. apply safe_get_text_stripped.
Qed.

Lemma scroll_loop_raise (page : Page) (pause : value) (n : nat) (e : string) :
  scroll_loop page pause n = Raise e →
  n ≠ 0
  ∧ (execute_script page = Raise e
     ∨ (execute_script page = Ok tt ∧ sleep pause = Raise e)).
Proof.
  induction n as [|n IH]; [discriminate|]. cbn [scroll_loop].
  destruct (execute_script page) as [[]|e'] eqn:E.
  - unfold mbind at 1, outcome_bind at 1.
    destruct (sleep pause) as [[]|e''] eqn:Es.
    + unfold mbind at 1, outcome_bind at 1. intros H.
      destruct (IH H) as [_ [H'|[_ H']]]; discriminate.
    + unfold mbind, outcome_bind. intros [= ->]. split; [discriminate|]. now right.
  - unfold mbind, outcome_bind. intros [= ->]. split; [discriminate|]. now left.
Qed.

(** What [range] and [time.sleep] make of some configured values. *)
Example range_and_sleep :
  range (VInt 3) = Ok 3 ∧ range (VInt (-3)) = Ok 0 ∧ range (VBool true) = Ok 1
  ∧ range (VStr "3") = Raise "'str' object cannot be interpreted as an integer"
  ∧ range (VFloat (S754_finite false 5 (-1)) "2.5")
    = Raise "'float' object cannot be interpreted as an integer"
  ∧ range VNone = Raise "'NoneType' object cannot be interpreted as an integer"
  ∧ sleep (VInt 2) = Ok tt
  ∧ sleep (VFloat (S754_finite false 3 (-1)) "1.5") = Ok tt
  ∧ sleep (VInt (-1)) = Raise "sleep length must be non-negative"
  ∧ sleep (VFloat (S754_finite true 1 (-1)) "-0.5")
    = Raise "sleep length must be non-negative"
  ∧ sleep (VFloat S754_nan "nan") = Raise "Invalid value NaN (not a number)"
  ∧ sleep (VFloat (S754_infinity false) "inf") = Raise TOO_LARGE
  ∧ sleep (VInt (10 ^ 10)) = Raise TOO_LARGE
  ∧ sleep (VStr "x") = Raise "'str' object cannot be interpreted as an integer"
  ∧ sleep VNone = Raise "'NoneType' object cannot be interpreted as an integer".
Proof. repeat split. Qed.

(** What makes [scroll_page] raise. *)
Lemma scroll_page_raise (page : Page) (config : Config) (e : string) :
  scroll_page page config = Raise e →
  (∃ v, options config = NotMapping v ∧ e = no_get v)
  ∨ ∃ opts,
      options config = Mapping opts
      ∧ (range (default (VInt 5) (max_scroll opts)) = Raise e
         ∨ ∃ n, range (default (VInt 5) (max_scroll opts)) = Ok n ∧ n ≠ 0
                ∧ (execute_script page = Raise e
                   ∨ (execute_script page = Ok tt
                      ∧ sleep (default (VInt 2) (scroll_pause opts)) = Raise e))).
Proof.
  unfold scroll_page. destruct (options config) as [opts|v].
  - cbv zeta. intros H. right. exists opts. split; [reflexivity|].
    destruct (range (default (VInt 5) (max_scroll opts))) as [n|e'].
    + right. exists n. split; [reflexivity|].
      unfold mbind, outcome_bind in H. now apply scroll_loop_raise in H.
    + left. unfold mbind, outcome_bind in H. congruence.
  - intros [= <-]. left. now exists v.
Qed.

(** X9.  For a configuration whose [selectors] and [search] are mappings of
    strings, [extract] raises only what [driver.get], the scrolling or
    [find_elements] raises.  The scrolling raises when [options] is no
    mapping, when [max_scroll] is no integer, and, when the number of
    scrolls is not zero, when the scroll script raises or when
    [time.sleep] refuses [scroll_pause]; with no scroll, neither the
    script nor the pause matters.  A wait that fails is no error, and
    neither is anything that fails inside an element. *)
Theorem extract_raises_only (driver : WebDriver) (config : Config) (query e : string) :
  extract driver config query = Raise e →
  driver_get driver (build_search_url config query) = Raise e
  ∨ ∃ page,
      driver_get driver (build_search_url config query) = Ok page
      ∧ wait_for_element page
          (dict_get (selectors config) "item_container" "ytd-channel-renderer")
        = Ok tt
      ∧ ((∃ v, options config = NotMapping v ∧ e = no_get v)
         ∨ (∃ opts,
              options config = Mapping opts
              ∧ (range (default (VInt 5) (max_scroll opts)) = Raise e
                 ∨ ∃ n, range (default (VInt 5) (max_scroll opts)) = Ok n ∧ n ≠ 0
                        ∧ (execute_script page = Raise e
                           ∨ (execute_script page = Ok tt
                              ∧ sleep (default (VInt 2) (scroll_pause opts))
                                = Raise e))))
         ∨ (scroll_page page config = Ok tt
            ∧ find_elements page
                (dict_get (selectors config) "item_container" "ytd-channel-renderer")
              = Raise e)).
Proof.
  unfold extract.
  destruct (driver_get driver (build_search_url config query)) as [page|e0] eqn:Eg.
  - unfold mbind at 1, outcome_bind at 1. intros H. right. exists page.
    split; [reflexivity|].
    destruct (wait_for_element page _) as [[]|e1]; [|discriminate].
    split; [reflexivity|].
    destruct (scroll_page page config) as [[]|e2] eqn:Es.
    + unfold mbind at 1, outcome_bind at 1 in H.
      destruct (find_elements page _) as [items|e3]; [discriminate|].
      right. right. unfold mbind, outcome_bind in H. split; [reflexivity | congruence].
    + unfold mbind at 1, outcome_bind at 1 in H. injection H as ->.
      destruct (scroll_page_raise _ _ _ Es) as [Hn|Ho]; [now left | right; now left].
  - unfold mbind, outcome_bind. intros [= ->]. now left.
Qed.

Lemma extract_raises_only_witness :
  let driver := browser [result_element (Some u1) "one"] in
  extract driver hasty_yaml "rocq" = Raise "sleep length must be non-negative"
  ∧ (driver_get driver (build_search_url hasty_yaml "rocq")
     = Raise "sleep length must be non-negative"
     ∨ ∃ page,
         driver_get driver (build_search_url hasty_yaml "rocq") = Ok page
         ∧ wait_for_element page
             (dict_get (selectors hasty_yaml) "item_container" "ytd-channel-renderer")
           = Ok tt
         ∧ ((∃ v, options hasty_yaml = NotMapping v
                  ∧ "sleep length must be non-negative" = no_get v)
            ∨ (∃ opts,
                 options hasty_yaml = Mapping opts
                 ∧ (range (default (VInt 5) (max_scroll opts))
                    = Raise "sleep length must be non-negative"
                    ∨ ∃ n, range (default (VInt 5) (max_scroll opts)) = Ok n ∧ n ≠ 0
                           ∧ (execute_script page
                              = Raise "sleep length must be non-negative"
                              ∨ (execute_script page = Ok tt
                                 ∧ sleep (default (VInt 2) (scroll_pause opts))
                                   = Raise "sleep length must be non-negative"))))
            ∨ (scroll_page page hasty_yaml = Ok tt
               ∧ find_elements page
                   (dict_get (selectors hasty_yaml) "item_container"
                      "ytd-channel-renderer")
                 = Raise "sleep length must be non-negative"))).
Proof.
  intros driver.
  assert (H : extract driver hasty_yaml "rocq"
              = Raise "sleep length must be non-negative")
    by reflexivity.
  split; [exact H|].
  exact (extract_raises_only _ _ _ _ H).
Defined.

(** X10.  A [channel_url] that the extractor has returned is returned as it
    is when it is met again as the [href] of an element: normalising twice
    adds no second origin. *)
Theorem channel_url_stable (config : Config) (item item' : WebElement) (url : string) :
  _extract_channel_data config item !! "channel_url" = Some url →
  safe_get_attribute item' (dict_get (selectors config) "channel_url" "#main-link") "href"
  = url →
  _extract_channel_data config item' !! "channel_url" = Some url.
Proof.
  rewrite !channel_url_lookup. cbv zeta. intros [= Hurl] ->.
  f_equal.
  destruct (truthy url) eqn:Et; cbn [andb]; [|reflexivity].
  assert (Hhttp : startswith url "http" = true).
  { rewrite <- Hurl. apply normalised_http. now rewrite Hurl. }
  now rewrite Hhttp.
Qed.

Lemma channel_url_stable_witness :
  _extract_channel_data channels_yaml (result_element (Some "/channel/UC123") "first")
  !! "channel_url" = Some "https://www.youtube.com/channel/UC123"
  ∧ safe_get_attribute
      (result_element (Some "https://www.youtube.com/channel/UC123") "again")
      (dict_get (selectors channels_yaml) "channel_url" "#main-link") "href"
    = "https://www.youtube.com/channel/UC123"
  ∧ _extract_channel_data channels_yaml
      (result_element (Some "https://www.youtube.com/channel/UC123") "again")
    !! "channel_url" = Some "https://www.youtube.com/channel/UC123".
Proof.
  assert (H1 : _extract_channel_data channels_yaml
                 (result_element (Some "/channel/UC123") "first")
               !! "channel_url" = Some "https://www.youtube.com/channel/UC123")
    by (vm_compute; reflexivity).
  assert (H2 : safe_get_attribute
                 (result_element (Some "https://www.youtube.com/channel/UC123") "again")
                 (dict_get (selectors channels_yaml) "channel_url" "#main-link") "href"
               = "https://www.youtube.com/channel/UC123")
    by (vm_compute; reflexivity).
  split; [exact H1|]. split; [exact H2|].
  exact (channel_url_stable channels_yaml _ _ _ H1 H2).
Defined.

Lemma append_cancel_r (a b t : string) : a +:+ t = b +:+ t → a = b.
Proof.
  revert b. induction a as [|x a IH]; intros [|y b] H.
  - reflexivity.
  - exfalso. apply (f_equal String.length) in H.
    rewrite append_nil_l, append_cons in H. cbn [String.length] in H.
    rewrite StoreLaws.length_append in H. lia.
  - exfalso. apply (f_equal String.length) in H.
    rewrite append_nil_l, append_cons in H. cbn [String.length] in H.
    rewrite StoreLaws.length_append in H. lia.
  - rewrite !append_cons in H. injection H as -> H. f_equal. now apply IH.
Qed.

(** X11.  For one configuration, different queries are searched at
    different URLs: the query is put into the URL as it is, between a
    beginning and an end that only depend on the configuration. *)
Theorem build_search_url_injective (config : Config) (query query' : string) :
  build_search_url config query = build_search_url config query' → query = query'.
Proof.
  unfold build_search_url. cbv zeta. intros H.
  do 4 (apply String.app_inj in H).
  now apply append_cancel_r in H.
Qed.

Lemma build_search_url_injective_witness :
  build_search_url channels_yaml "a b"
  = "https://www.youtube.com/results?search_query=a b&sp=EgIQAg%3D%3D"
  ∧ ∀ query',
      build_search_url channels_yaml "a b" = build_search_url channels_yaml query' →
      "a b" = query'.
Proof.
  split; [vm_compute; reflexivity|].
  intros query'. apply build_search_url_injective.
Defined.

End ExtractorLaws.

(** ** Properties of the scraper and of the configuration loader *)
Module ScraperLaws.
Import Text TextFacts Py Output OutputFacts Extractors Scrapers Batch BatchFacts.
Import Saving Configs Samples MoreSamples.

Lemma EXTRACTORS_get_Some (v : value) (c : extractor_class) :
  EXTRACTORS_get v = Ok (Some c) ↔ v = VStr "channel".
Proof.
  split.
  - destruct v as [| | | |s|t shown [] tr]; try discriminate.
    cbn [EXTRACTORS_get]. intros [= H]. unfold EXTRACTORS in H.
    apply lookup_singleton_Some in H as [<- _]. reflexivity.
  - intros ->. now destruct c.
Qed.

(** X12.  Leaving aside a failure to create the output directory,
    [YouTubeScraper] is built exactly when the configuration file exists
    and parses to a mapping whose [options] are a mapping or absent and
    whose [type] is absent or the string [channel].  A type that is
    there without a value is not registered: it raises
    [Unknown extractor type: None].  Beside the failures that the
    specification lists (a missing file, a file that cannot be parsed, a
    type that is not registered), construction raises exactly for a file
    that parses to something that is no mapping, such as an empty file,
    and for [options] that are no mapping.  The scraper that is built
    holds the parsed mapping, and its browser is headless when the
    [headless] option is absent or true. *)
Theorem scraper_init_iff_valid (config_dir : gmap string (outcome (part Config)))
    (name : string) :
  ((∃ scraper, YouTubeScraper_init config_dir name = Ok scraper)
   ↔ ∃ config opts,
       config_dir !! (name +:+ ".yaml") = Some (Ok (Mapping config))
       ∧ options config = Mapping opts
       ∧ (type_ config = None ∨ type_ config = Some (VStr "channel")))
  ∧ (∀ config opts,
       config_dir !! (name +:+ ".yaml") = Some (Ok (Mapping config)) →
       options config = Mapping opts → type_ config = Some VNone →
       config_invalid config_dir name = true
       ∧ YouTubeScraper_init config_dir name = Raise "Unknown extractor type: None")
  ∧ (config_invalid config_dir name = false →
     ((∃ e, YouTubeScraper_init config_dir name = Raise e)
      ↔ ∃ v, (config_dir !! (name +:+ ".yaml") = Some (Ok (NotMapping v))
              ∨ ∃ config, config_dir !! (name +:+ ".yaml") = Some (Ok (Mapping config))
                          ∧ options config = NotMapping v)
             ∧ YouTubeScraper_init config_dir name = Raise (no_get v)))
  ∧ ∀ scraper,
      YouTubeScraper_init config_dir name = Ok scraper →
      config_invalid config_dir name = false
      ∧ config_dir !! (name +:+ ".yaml") = Some (Ok (Mapping (config scraper)))
      ∧ ∃ opts, options (config scraper) = Mapping opts
                ∧ factory_headless scraper
                  = truth (default (VBool true) (headless opts)).
Proof.
  unfold config_invalid, YouTubeScraper_init, load, _get_extractor_class.
  cbv zeta.
  destruct (config_dir !! (name +:+ ".yaml")) as [[[cfg|v]|e]|];
    cbn [mbind outcome_bind].
  - destruct (options cfg) as [opts|v] eqn:Eo.
    + destruct (EXTRACTORS_get (default (VStr "channel") (type_ cfg)))
        as [[c|]|e] eqn:Eg; cbn [mbind outcome_bind].
      * apply EXTRACTORS_get_Some in Eg.
        split; [|split; [|split]].
        -- split; [intros _ | intros _; now eexists].
           exists cfg, opts. split; [reflexivity|]. split; [exact Eo|].
           destruct (type_ cfg) as [t|]; [right | now left].
           cbn in Eg. now subst.
        -- intros config opts' [= <-] _ Ht. rewrite Ht in Eg. discriminate.
        -- intros _. split; [intros [e He]; discriminate|].
           intros (v & [H|(config & [= <-] & H)] & _); [discriminate|].
           rewrite Eo in H. discriminate.
        -- intros scraper [= <-]. cbn [config factory_headless].
           split; [reflexivity|]. split; [reflexivity|]. now exists opts.
      * split; [|split; [|split]].
        -- split; [intros [? H]; discriminate|].
           intros (config & opts' & [= <-] & _ & Ht).
           assert (E : default (VStr "channel") (type_ cfg) = VStr "channel")
             by (destruct Ht as [-> | ->]; reflexivity).
           rewrite E in Eg. discriminate.
        -- intros config opts' [= <-] _ Ht. rewrite Ht. now split.
        -- discriminate.
        -- discriminate.
      * split; [|split; [|split]].
        -- split; [intros [? H]; discriminate|].
           intros (config & opts' & [= <-] & _ & Ht).
           assert (E : default (VStr "channel") (type_ cfg) = VStr "channel")
             by (destruct Ht as [-> | ->]; reflexivity).
           rewrite E in Eg. discriminate.
        -- intros config opts' [= <-] _ Ht. rewrite Ht in Eg. discriminate.
        -- discriminate.
        -- discriminate.
    + split; [|split; [|split]].
      * split; [intros [? H]; discriminate|].
        intros (config & opts' & [= <-] & Ho & _). rewrite Eo in Ho. discriminate.
      * intros config opts' [= <-] Ho. rewrite Eo in Ho. discriminate.
      * intros _. split; [|intros _; now eexists].
        intros _. exists v. split; [|reflexivity]. right. exists cfg. now split.
      * discriminate.
  - split; [|split; [|split]].
    + split; [intros [? H]; discriminate|]. intros (? & ? & [=] & _).
    + discriminate.
    + intros _. split; [|intros _; now eexists].
      intros _. exists v. split; [now left | reflexivity].
    + discriminate.
  - split; [|split; [|split]].
    + split; [intros [? H]; discriminate|]. intros (? & ? & [=] & _).
    + discriminate.
    + discriminate.
    + discriminate.
  - split; [|split; [|split]].
    + split; [intros [? H]; discriminate|]. intros (? & ? & [=] & _).
    + discriminate.
    + discriminate.
    + discriminate.
Qed.

(** An empty file, a type without a value, and options without a value. *)
Example scraper_init_refused :
  YouTubeScraper_init {[ "channels.yaml" := Ok (NotMapping VNone) ]} "channels"
  = Raise "'NoneType' object has no attribute 'get'"
  ∧ YouTubeScraper_init {[ "channels.yaml" := Ok (Mapping untyped_yaml) ]} "channels"
    = Raise "Unknown extractor type: None"
  ∧ YouTubeScraper_init {[ "channels.yaml" := Ok (Mapping no_options_yaml) ]} "channels"
    = Raise "'NoneType' object has no attribute 'get'".
Proof. repeat split. Qed.

(** X13.  When the browser of a task has been started and cannot be quit,
    the error of [quit] is what [scrape] raises, whatever the extraction
    had found; the task returns it with a count of 0, and neither the store
    nor the collected URLs change. *)
Theorem quit_failure_discards (w : World) (task : nat) (self : BatchRunner)
    (keyword : string) (scraper : YouTubeScraper) (driver : WebDriver) (e : string) :
  YouTubeScraper_init (config_dir w) (config_name self) = Ok scraper →
  create w task (factory_headless scraper) = Ok driver →
  quit driver = Raise e →
  scrape (Ok driver) scraper keyword = Raise e
  ∧ _scrape_keyword w task self keyword = (self, (keyword, 0, Some e)).
Proof.
  intros Hinit Hcreate Hquit.
  assert (Hs : scrape (Ok driver) scraper keyword = Raise e).
  { unfold scrape. cbn [mbind outcome_bind]. now rewrite Hquit. }
  split; [exact Hs|].
  unfold _scrape_keyword, attempt. rewrite Hinit. cbn [mbind outcome_bind].
  now rewrite Hcreate, Hs.
Qed.

Lemma quit_failure_discards_witness :
  let scraper := {| config := channels_yaml; factory_headless := true;
                    _extractor_class := ChannelExtractor |} in
  YouTubeScraper_init (config_dir leaky_world) (config_name fresh_runner) = Ok scraper
  ∧ create leaky_world 0 (factory_headless scraper) = Ok (leaky_browser (two_channels 0))
  ∧ quit (leaky_browser (two_channels 0)) = Raise "chrome not reachable"
  ∧ extract (leaky_browser (two_channels 0)) (config scraper) "a"
    = Ok (map (_extract_channel_data channels_yaml) (two_channels 0))
  ∧ _scrape_keyword leaky_world 0 fresh_runner "a"
    = (fresh_runner, ("a", 0, Some "chrome not reachable")).
Proof.
  intros scraper.
  assert (H1 : YouTubeScraper_init (config_dir leaky_world) (config_name fresh_runner)
               = Ok scraper) by reflexivity.
  assert (H2 : create leaky_world 0 (factory_headless scraper)
               = Ok (leaky_browser (two_channels 0))) by reflexivity.
  assert (H3 : quit (leaky_browser (two_channels 0)) = Raise "chrome not reachable")
    by reflexivity.
  split; [exact H1|]. split; [exact H2|]. split; [exact H3|].
  split; [reflexivity|].
  exact (proj2 (quit_failure_discards leaky_world 0 fresh_runner "a" scraper
                  (leaky_browser (two_channels 0)) "chrome not reachable" H1 H2 H3)).
Defined.

Lemma ends_with_unfold (suffix s : string) :
  ends_with suffix s
  = String.eqb s suffix
    || match s with EmptyString => false | String _ rest => ends_with suffix rest end.
Proof. destruct s; reflexivity. Qed.

Lemma ends_with_split (suffix s : string) :
  ends_with suffix s = true → ∃ n, s = n +:+ suffix.
Proof.
  induction s as [|x s IH]; rewrite ends_with_unfold; intros H;
    apply orb_true_iff in H as [H|H].
  - apply String.eqb_eq in H. exists EmptyString. now rewrite append_nil_l.
  - discriminate.
  - apply String.eqb_eq in H. exists EmptyString. now rewrite append_nil_l.
  - destruct (IH H) as [n ->]. exists (String x n). now rewrite append_cons.
Qed.

Lemma ends_with_append (suffix n : string) : ends_with suffix (n +:+ suffix) = true.
Proof.
  induction n as [|x n IH]; rewrite ends_with_unfold.
  - rewrite append_nil_l, String.eqb_refl. reflexivity.
  - rewrite append_cons, IH. apply orb_true_r.
Qed.

Lemma rfind_append (c : ascii) (n t : string) (i : nat) :
  rfind c t = Some i → rfind c (n +:+ t) = Some (String.length n + i).
Proof.
  intros H. induction n as [|x n IH]; [exact H|].
  rewrite append_cons. cbn [rfind String.length]. now rewrite IH.
Qed.

Lemma substring_append (n t : string) : substring 0 (String.length n) (n +:+ t) = n.
Proof.
  induction n as [|x n IH]; [now destruct t|].
  rewrite append_cons. cbn [String.length substring]. now rewrite IH.
Qed.

(** The stem of a configuration file is the configuration's name. *)
Lemma stem_yaml (n : string) : n ≠ EmptyString → stem (n +:+ ".yaml") = n.
Proof.
  intros Hn. unfold stem.
  rewrite (rfind_append "."%char n ".yaml" 0) by reflexivity.
  rewrite StoreLaws.length_append. cbn [String.length].
  assert (0 < String.length n) by (destruct n; [congruence | simpl; lia]).
  replace (0 <? String.length n + 0) with true by (symmetry; apply Nat.ltb_lt; lia).
  replace (String.length n + 0 <? String.length n + 5 - 1) with true
    by (symmetry; apply Nat.ltb_lt; lia).
  cbn [andb]. rewrite Nat.add_0_r. apply substring_append.
Qed.

Lemma elem_of_list_configs (config_dir : gmap string (outcome (part Config)))
    (name : string) :
  name ∈ list_configs config_dir
  ↔ ∃ file, is_Some (config_dir !! file) ∧ glob_yaml file = true ∧ stem file = name.
Proof.
  unfold list_configs. change (map stem ?l) with (stem <$> l).
  rewrite list_elem_of_fmap. split.
  - intros (file & -> & Hin). apply list_elem_of_filter in Hin as [Hglob Hin].
    apply elem_of_elements, elem_of_dom in Hin. now exists file.
  - intros (file & Hin & Hglob & <-). exists file. split; [reflexivity|].
    apply list_elem_of_filter. split; [exact Hglob|].
    now apply elem_of_elements, elem_of_dom.
Qed.

(** X14.  [list_configs] and [load] agree: a name that is not empty and has
    no slash is listed when [load] finds its file; and for a listed name
    other than [.yaml], [load] finds the file and returns what the file
    parses to.  The file that is called [.yaml] is listed under the name
    [.yaml], under which [load] looks for another file. *)
Theorem list_configs_load (config_dir : gmap string (outcome (part Config)))
    (name : string) :
  (name ≠ EmptyString → occurs "/"%char name = false →
   is_Some (config_dir !! (name +:+ ".yaml")) → name ∈ list_configs config_dir)
  ∧ (name ∈ list_configs config_dir → name ≠ ".yaml" →
     ∃ parsed, config_dir !! (name +:+ ".yaml") = Some parsed
               ∧ load config_dir "config" name = parsed)
  ∧ (is_Some (config_dir !! ".yaml") → ".yaml" ∈ list_configs config_dir).
Proof.
  split; [|split].
  - intros Hne Hslash Hfile. apply elem_of_list_configs.
    exists (name +:+ ".yaml"). split; [exact Hfile|]. split; [|now apply stem_yaml].
    unfold glob_yaml. rewrite ends_with_append, SavingLaws.occurs_append, Hslash.
    reflexivity.
  - intros Hin Hname. apply elem_of_list_configs in Hin as (file & [parsed Hf] & Hglob & Hstem).
    unfold glob_yaml in Hglob. apply andb_true_iff in Hglob as [Hends _].
    apply ends_with_split in Hends as [n ->].
    destruct n as [|x n].
    + rewrite append_nil_l in Hstem. exfalso. apply Hname. rewrite <- Hstem. reflexivity.
    + rewrite stem_yaml in Hstem by discriminate. subst name.
      exists parsed. split; [exact Hf|]. unfold load. now rewrite Hf.
  - intros Hfile. apply elem_of_list_configs. exists ".yaml".
    split; [exact Hfile|]. split; reflexivity.
Qed.

Lemma list_configs_load_witness :
  "channels" ≠ EmptyString ∧ occurs "/"%char "channels" = false
  ∧ is_Some (some_configs !! ("channels" +:+ ".yaml"))
  ∧ "channels" ∈ list_configs some_configs
  ∧ ".yaml" ∈ list_configs some_configs
  ∧ load some_configs "config" ".yaml" = Raise "Config file not found: config/.yaml.yaml"
  ∧ "notes" ∉ list_configs some_configs.
Proof.
  assert (H1 : "channels" ≠ EmptyString) by discriminate.
  assert (H2 : occurs "/"%char "channels" = false) by reflexivity.
  assert (H3 : is_Some (some_configs !! ("channels" +:+ ".yaml")))
    by (vm_compute; eauto).
  split; [exact H1|]. split; [exact H2|]. split; [exact H3|]. split.
  - exact (proj1 (list_configs_load some_configs "channels") H1 H2 H3).
  - split; [|split].
    + apply (list_configs_load some_configs ".yaml"). vm_compute. eauto.
    + vm_compute. reflexivity.
    + by_evaluation.
Defined.

End ScraperLaws.

(** ** Further properties of the batch run *)
Module RunLaws.
Import Text TextFacts Py Output OutputFacts Extractors Scrapers Batch BatchFacts.
Import Collected Samples MoreSamples.

(** What [start_next] does to the future at each index: nothing, or it
    turns a pending future into a running one. *)
Lemma start_next_lookup (fs fs' : list future) (j : nat) :
  start_next fs = Some fs' →
  fs' !! j = fs !! j
  ∨ ∃ f, fs !! j = Some f ∧ st f = PENDING ∧ fs' !! j = Some (set_st f RUNNING).
Proof.
  revert fs' j. induction fs as [|f fs IH]; intros fs' j H; [discriminate|].
  cbn [start_next] in H. destruct (is_pending f) eqn:Ep.
  - injection H as <-. destruct j as [|j]; [|now left].
    right. exists f. apply is_pending_spec in Ep. now repeat split.
  - destruct (start_next fs) as [fs0|] eqn:E; [|discriminate].
    injection H as <-. destruct j as [|j]; [now left|].
    exact (IH fs0 j eq_refl).
Qed.

Lemma kw_start_next (fs fs' : list future) :
  start_next fs = Some fs' → kw <$> fs' = kw <$> fs.
Proof.
  revert fs'. induction fs as [|f fs IH]; intros fs' H; [discriminate|].
  cbn [start_next] in H. destruct (is_pending f).
  - now injection H as <-.
  - destruct (start_next fs) as [fs0|]; [|discriminate].
    injection H as <-. cbn [fmap list_fmap]. f_equal. now apply IH.
Qed.

Lemma kw_insert (fs : list future) (i : nat) (f g : future) :
  fs !! i = Some f → kw g = kw f → kw <$> <[i := g]> fs = kw <$> fs.
Proof.
  intros Hf Hk. rewrite list_fmap_insert, Hk. apply list_insert_id.
  now rewrite list_lookup_fmap, Hf.
Qed.

Lemma kw_cancel_pending (fs : list future) : kw <$> cancel_pending fs = kw <$> fs.
Proof.
  induction fs as [|f fs IH]; [reflexivity|].
  change (cancel_pending (f :: fs))
    with ((if is_pending f then set_st f CANCELLED else f) :: cancel_pending fs).
  cbn [fmap list_fmap]. f_equal; [now destruct (is_pending f) | exact IH].
Qed.

Section Run.
Context (w : World) (target max_workers : nat).

(** The futures of a run stay those of the submitted terms. *)
Lemma step_keywords (a : action) (s s' : state) :
  step w target max_workers a s = Some s' → kw <$> futures s' = kw <$> futures s.
Proof.
  intros H. destruct a as [|i|i| |].
  - apply step_Start_inv in H as (_ & fs & Hfs & ->). now apply kw_start_next.
  - apply step_Finish_inv in H as (f & Hf & _ & ->). cbn [futures].
    now apply (kw_insert _ _ f).
  - apply step_Next_inv in H as (_ & f & result & Hf & _ & _ & [(_ & ->)|(_ & ->)]);
      cbn [futures]; rewrite ?kw_cancel_pending; now apply (kw_insert _ _ f).
  - now apply step_Stop_inv in H as (_ & _ & ->).
  - now apply step_Exit_inv in H as (_ & _ & ->).
Qed.

Lemma exec_keywords (acts : list action) (s s' : state) :
  exec w target max_workers acts s = Some s' → kw <$> futures s' = kw <$> futures s.
Proof.
  revert s. induction acts as [|a acts IH]; intros s H; cbn [exec] in H.
  - now injection H as <-.
  - destruct (step w target max_workers a s) as [s1|] eqn:E; [|discriminate].
    cbn in H. rewrite (IH s1 H). now apply step_keywords in E.
Qed.

(** One step never takes anything away from the collected URLs or from the
    keys on disk, and keeps the key file line-terminated. *)
Lemma step_only_adds (a : action) (s s' : state) :
  store_ok (output (runner s)) MASTER_FILE →
  step w target max_workers a s = Some s' →
  store_ok (output (runner s')) MASTER_FILE
  ∧ collected_urls (runner s) ⊆ collected_urls (runner s')
  ∧ load_existing (output (runner s)) MASTER_FILE COLUMN_NAME
    ⊆ load_existing (output (runner s')) MASTER_FILE COLUMN_NAME.
Proof.
  intros Hok H. destruct a as [|i|i| |].
  - apply step_Start_inv in H as (_ & fs & _ & ->). now repeat split.
  - apply step_Finish_inv in H as (f & _ & _ & ->). cbn [runner].
    destruct (scrape_keyword_effect w i (runner s) (kw f)) as (_ & Hsub & Hk & _).
    destruct (Hk Hok) as [Hok' Hload]. now repeat split.
  - apply step_Next_inv in H as (_ & f & result & _ & _ & _ & [(_ & ->)|(_ & ->)]);
      now repeat split.
  - apply step_Stop_inv in H as (_ & _ & ->). now repeat split.
  - apply step_Exit_inv in H as (_ & _ & ->). now repeat split.
Qed.

End Run.

(** X15.  A run never takes anything away: from any state with a
    line-terminated key file, whatever steps follow, the collected URLs and
    the keys on disk afterwards include those before, and the key file is
    still line-terminated. *)
Theorem run_only_adds (w : World) (target max_workers : nat) (acts : list action)
    (s s' : state) :
  store_ok (output (runner s)) MASTER_FILE →
  exec w target max_workers acts s = Some s' →
  store_ok (output (runner s')) MASTER_FILE
  ∧ collected_urls (runner s) ⊆ collected_urls (runner s')
  ∧ load_existing (output (runner s)) MASTER_FILE COLUMN_NAME
    ⊆ load_existing (output (runner s')) MASTER_FILE COLUMN_NAME.
Proof.
  revert s. induction acts as [|a acts IH]; intros s Hok H; cbn [exec] in H.
  - injection H as <-. now repeat split.
  - destruct (step w target max_workers a s) as [s1|] eqn:E; [|discriminate].
    cbn in H. destruct (step_only_adds w target max_workers a s s1 Hok E)
      as (Hok1 & Hc1 & Hl1).
    destruct (IH s1 Hok1 H) as (Hok' & Hc' & Hl').
    split; [exact Hok'|]. split; etransitivity; eassumption.
Qed.

Lemma run_only_adds_witness :
  store_ok (output (runner three_terms)) MASTER_FILE
  ∧ exec good_world 1 1 [Start; Finish 0] three_terms = Some first_done
  ∧ store_ok (output (runner first_done)) MASTER_FILE
  ∧ collected_urls (runner three_terms) ⊆ collected_urls (runner first_done)
  ∧ load_existing (output (runner three_terms)) MASTER_FILE COLUMN_NAME
    ⊆ load_existing (output (runner first_done)) MASTER_FILE COLUMN_NAME.
Proof.
  assert (H1 : store_ok (output (runner three_terms)) MASTER_FILE)
    by (apply store_ok_absent; reflexivity).
  assert (H2 : exec good_world 1 1 [Start; Finish 0] three_terms = Some first_done)
    by (vm_compute; reflexivity).
  split; [exact H1|]. split; [exact H2|].
  exact (run_only_adds good_world 1 1 _ _ _ H1 H2).
Defined.

(** *** What the collected URLs are *)

Lemma elem_of_contributions (w : World) (name : string) (fs : list future) (u : string) :
  u ∈ contributions w name fs
  ↔ ∃ j f, fs !! j = Some f ∧ u ∈ contribution w name j f.
Proof.
  unfold contributions. rewrite elem_of_union_list. split.
  - intros (X & HX & Hu). apply elem_of_lookup_imap in HX as (j & f & -> & Hf).
    now exists j, f.
  - intros (j & f & Hf & Hu). exists (contribution w name j f). split; [|exact Hu].
    apply elem_of_lookup_imap. now exists j, f.
Qed.

(** Futures that contribute the same at every index contribute the same
    altogether. *)
Lemma contributions_pointwise (w : World) (name : string) (fs fs' : list future) :
  (∀ j, contribution w name j <$> fs' !! j = contribution w name j <$> fs !! j) →
  contributions w name fs' = contributions w name fs.
Proof.
  intros H. apply set_eq. intros u. rewrite !elem_of_contributions.
  split; intros (j & f & Hf & Hu); specialize (H j); rewrite Hf in H; cbn in H.
  - destruct (fs !! j) as [g|] eqn:Eg; [|discriminate]. injection H as H.
    exists j, g. split; [exact Eg | now rewrite <- H].
  - destruct (fs' !! j) as [g|] eqn:Eg; [|discriminate]. injection H as H.
    exists j, g. split; [exact Eg | now rewrite H].
Qed.

Lemma contributions_start (w : World) (name : string) (fs fs' : list future) :
  start_next fs = Some fs' → contributions w name fs' = contributions w name fs.
Proof.
  intros H. apply contributions_pointwise. intros j.
  destruct (start_next_lookup fs fs' j H) as [->|(f & -> & Hp & ->)]; [reflexivity|].
  cbn. f_equal. unfold contribution. cbn [st set_st]. now rewrite Hp.
Qed.

Lemma contributions_consume (w : World) (name : string) (fs : list future) (i : nat)
    (f : future) :
  fs !! i = Some f →
  contributions w name (<[i := set_consumed f]> fs) = contributions w name fs.
Proof.
  intros Hf. apply contributions_pointwise. intros j.
  destruct (decide (j = i)) as [->|Hne].
  - rewrite list_lookup_insert_eq by (now apply lookup_lt_Some in Hf).
    now rewrite Hf.
  - now rewrite list_lookup_insert_ne.
Qed.

Lemma contributions_cancel (w : World) (name : string) (fs : list future) :
  contributions w name (cancel_pending fs) = contributions w name fs.
Proof.
  apply contributions_pointwise. intros j.
  destruct (fs !! j) as [f|] eqn:Ef.
  - rewrite (cancel_pending_lookup fs j f Ef). cbn. f_equal.
    destruct (is_pending f) eqn:Ep; [|reflexivity].
    apply is_pending_spec in Ep. unfold contribution. cbn [st set_st]. now rewrite Ep.
  - apply lookup_ge_None in Ef.
    replace (cancel_pending fs !! j) with (@None future); [reflexivity|].
    symmetry. apply lookup_ge_None. unfold cancel_pending. now rewrite length_map.
Qed.

Lemma contributions_finish (w : World) (name : string) (fs : list future) (i : nat)
    (f : future) (result : string * nat * option string) :
  fs !! i = Some f → st f = RUNNING →
  contributions w name (<[i := set_st f (FINISHED result)]> fs)
  = contributions w name fs ∪ scraped w name i (kw f).
Proof.
  intros Hf Hrun. apply set_eq. intros u.
  rewrite elem_of_union, !elem_of_contributions. split.
  - intros (j & g & Hg & Hu).
    apply list_lookup_insert_Some in Hg as [(-> & <- & _)|(Hne & Hg)].
    + now right.
    + left. now exists j, g.
  - intros [(j & g & Hg & Hu)|Hu].
    + destruct (decide (j = i)) as [->|Hne].
      * rewrite Hf in Hg. injection Hg as <-.
        unfold contribution in Hu. rewrite Hrun in Hu. now apply elem_of_empty in Hu.
      * exists j, g. split; [|exact Hu]. now rewrite list_lookup_insert_ne.
    + exists i, (set_st f (FINISHED result)). split; [|exact Hu].
      apply list_lookup_insert_eq. now apply lookup_lt_Some in Hf.
Qed.

(** What one task adds to the collected URLs. *)
Lemma scrape_keyword_collected (w : World) (task : nat) (self : BatchRunner)
    (keyword : string) :
  collected_urls (_scrape_keyword w task self keyword).1
  = collected_urls self ∪ scraped w (config_name self) task keyword.
Proof.
  unfold scraped.
  destruct (scrape_keyword_cases w task self keyword)
    as [(e & -> & ->)|[(-> & ->)|(results & -> & ->)]]; cbn [fst collected_urls].
  - now rewrite (right_id_L ∅ (∪)).
  - cbn [urls_of omap list_omap]. rewrite list_to_set_nil. now rewrite (right_id_L ∅ (∪)).
  - reflexivity.
Qed.

Lemma step_collected (w : World) (target max_workers : nat) (base : gset string)
    (name : string) (a : action) (s s' : state) :
  config_name (runner s) = name →
  collected_urls (runner s) = base ∪ contributions w name (futures s) →
  step w target max_workers a s = Some s' →
  config_name (runner s') = name
  ∧ collected_urls (runner s') = base ∪ contributions w name (futures s').
Proof.
  intros Hname Hc H. destruct a as [|i|i| |].
  - apply step_Start_inv in H as (_ & fs & Hfs & ->). cbn [runner futures].
    now rewrite (contributions_start w name _ _ Hfs).
  - apply step_Finish_inv in H as (f & Hf & Hrun & ->). cbn [runner futures].
    destruct (scrape_keyword_effect w i (runner s) (kw f)) as (Hn & _).
    split; [congruence|].
    rewrite scrape_keyword_collected, Hname, Hc, (contributions_finish w name _ _ f) by assumption.
    now rewrite (assoc_L (∪)).
  - apply step_Next_inv in H as (_ & f & result & Hf & _ & _ & [(_ & ->)|(_ & ->)]);
      cbn [runner futures]; rewrite ?contributions_cancel,
        (contributions_consume w name _ _ f Hf); now split.
  - apply step_Stop_inv in H as (_ & _ & ->). now split.
  - apply step_Exit_inv in H as (_ & _ & ->). now split.
Qed.

Lemma exec_collected (w : World) (target max_workers : nat) (base : gset string)
    (name : string) (acts : list action) (s s' : state) :
  config_name (runner s) = name →
  collected_urls (runner s) = base ∪ contributions w name (futures s) →
  exec w target max_workers acts s = Some s' →
  config_name (runner s') = name
  ∧ collected_urls (runner s') = base ∪ contributions w name (futures s').
Proof.
  revert s. induction acts as [|a acts IH]; intros s Hn Hc H; cbn [exec] in H.
  - injection H as <-. now split.
  - destruct (step w target max_workers a s) as [s1|] eqn:E; [|discriminate].
    cbn in H. destruct (step_collected w target max_workers base name a s s1 Hn Hc E).
    now apply (IH s1).
Qed.

Lemma contributions_submitted (w : World) (name : string) (keywords : list string) :
  contributions w name (submit_all keywords) = ∅.
Proof.
  apply set_eq. intros u. rewrite elem_of_contributions. split.
  - intros (j & f & Hf & Hu). unfold submit_all in Hf.
    change (map ?g keywords) with (g <$> keywords) in Hf.
    rewrite list_lookup_fmap in Hf. destruct (keywords !! j); [|discriminate].
    injection Hf as <-. exact Hu.
  - intros Hu. now apply elem_of_empty in Hu.
Qed.

(** When every future has finished, the futures have contributed what the
    tasks of the submitted terms scrape. *)
Lemma contributions_finished (w : World) (name : string) (fs : list future) :
  Forall (λ f, ∃ result, st f = FINISHED result) fs →
  contributions w name fs = ⋃ (imap (scraped w name) (kw <$> fs)).
Proof.
  intros Hall. apply set_eq. intros u.
  rewrite elem_of_contributions, elem_of_union_list. split.
  - intros (j & f & Hf & Hu). exists (scraped w name j (kw f)). split.
    + apply elem_of_lookup_imap. exists j, (kw f). split; [reflexivity|].
      now rewrite list_lookup_fmap, Hf.
    + rewrite Forall_lookup in Hall. destruct (Hall j f Hf) as [result Hst].
      unfold contribution in Hu. now rewrite Hst in Hu.
  - intros (X & HX & Hu). apply elem_of_lookup_imap in HX as (j & k & -> & Hk).
    rewrite list_lookup_fmap in Hk. destruct (fs !! j) as [f|] eqn:Ef; [|discriminate].
    injection Hk as <-. exists j, f. split; [exact Ef|].
    rewrite Forall_lookup in Hall. destruct (Hall j f Ef) as [result Hst].
    unfold contribution. now rewrite Hst.
Qed.

(** X16.  The collected URLs do not depend on the schedule: in every state
    of a run they are those the runner started with and what the tasks of
    the futures finished so far scraped, each task taken by its position;
    once every future has finished they are the starting ones and what the
    tasks of all submitted terms scrape. *)
Theorem collected_is_scraped (w : World) (target max_workers : nat) (r : BatchRunner)
    (keywords : list string) (acts : list action) (s : state) :
  exec w target max_workers acts (init_state r keywords) = Some s →
  collected_urls (runner s)
  = collected_urls r ∪ contributions w (config_name r) (futures s)
  ∧ (Forall (λ f, ∃ result, st f = FINISHED result) (futures s) →
     collected_urls (runner s)
     = collected_urls r ∪ ⋃ (imap (scraped w (config_name r)) keywords)).
Proof.
  intros H.
  destruct (exec_collected w target max_workers (collected_urls r) (config_name r)
              acts (init_state r keywords) s) as [_ Hc]; [reflexivity| |exact H|].
  - cbn [init_state runner futures]. rewrite contributions_submitted.
    now rewrite (right_id_L ∅ (∪)).
  - split; [exact Hc|]. intros Hall.
    rewrite Hc, (contributions_finished w _ _ Hall).
    apply exec_keywords in H. rewrite H. cbn [init_state futures].
    do 3 f_equal. unfold submit_all. change (map ?g keywords) with (g <$> keywords).
    rewrite <- list_fmap_compose. apply list_fmap_id.
Qed.

Lemma second_first_run :
  exec good_world 1000 2 second_first (init_state fresh_runner ["a"; "b"])
  = Some both_done.
Proof. vm_compute. reflexivity. Qed.

Lemma collected_is_scraped_witness :
  exec good_world 1000 2 second_first (init_state fresh_runner ["a"; "b"])
  = Some both_done
  ∧ collected_urls (runner both_done)
    = collected_urls fresh_runner
      ∪ contributions good_world (config_name fresh_runner) (futures both_done)
  ∧ (Forall (λ f, ∃ result, st f = FINISHED result) (futures both_done) →
     collected_urls (runner both_done)
     = collected_urls fresh_runner
       ∪ ⋃ (imap (scraped good_world (config_name fresh_runner)) ["a"; "b"])).
Proof.
  split; [exact second_first_run|].
  exact (collected_is_scraped good_world 1000 2 fresh_runner ["a"; "b"]
           second_first both_done second_first_run).
Defined.

(** *** The key file and the collected URLs *)

Lemma submit_all_keywords (keywords : list string) : kw <$> submit_all keywords = keywords.
Proof.
  unfold submit_all. change (map ?g keywords) with (g <$> keywords).
  rewrite <- list_fmap_compose. apply list_fmap_id.
Qed.

Lemma step_mirrored (w : World) (target max_workers : nat) (name : string)
    (keywords : list string) (a : action) (s s' : state) :
  tasks_storable w name keywords →
  mirrored name keywords s →
  step w target max_workers a s = Some s' →
  mirrored name keywords s'.
Proof.
  intros Hw (Hn & Hok & Hl & Hk) H.
  pose proof (step_keywords w target max_workers a s s' H) as Hk'.
  unfold mirrored. rewrite Hk', Hk. destruct a as [|i|i| |].
  - apply step_Start_inv in H as (_ & fs & _ & ->). now repeat split.
  - apply step_Finish_inv in H as (f & Hf & _ & ->). cbn [runner].
    destruct (scrape_keyword_cases w i (runner s) (kw f))
      as [(e & _ & ->)|[(_ & ->)|(results & Ha & ->)]]; cbn [fst];
      [now repeat split..|].
    cbn [config_name output collected_urls].
    split; [exact Hn|]. split; [now apply store_ok_append|]. split; [|reflexivity].
    rewrite load_append_exact, Hl; [reflexivity|exact Hok|reflexivity|].
    apply (Hw i (kw f)); [|now rewrite <- Hn].
    now rewrite <- Hk, list_lookup_fmap, Hf.
  - apply step_Next_inv in H as (_ & f & result & _ & _ & _ & [(_ & ->)|(_ & ->)]);
      now repeat split.
  - apply step_Stop_inv in H as (_ & _ & ->). now repeat split.
  - apply step_Exit_inv in H as (_ & _ & ->). now repeat split.
Qed.

Lemma exec_mirrored (w : World) (target max_workers : nat) (name : string)
    (keywords : list string) (acts : list action) (s s' : state) :
  tasks_storable w name keywords →
  mirrored name keywords s →
  exec w target max_workers acts s = Some s' →
  mirrored name keywords s'.
Proof.
  intros Hw. revert s. induction acts as [|a acts IH]; intros s Hs H; cbn [exec] in H.
  - now injection H as <-.
  - destruct (step w target max_workers a s) as [s1|] eqn:E; [|discriminate].
    cbn in H. eapply IH; [|exact H]. eapply step_mirrored; eauto.
Qed.

(** X17.  On a store whose key file is absent or line-terminated when the
    runner is built, and when every URL that the tasks of the submitted
    terms scrape is a key that the store keeps as it is, the key file
    mirrors the memory of the runner: in every state of the run, a state
    being taken between the tasks' commits (the append of a task and its
    update of the collected URLs are one step), the keys read back from
    disk are exactly the collected URLs; and a returned total is the
    number of keys on disk. *)
Theorem disk_mirrors_collected (w : World) (target max_workers : nat) (fs : files)
    (name : string) (keywords : list string) (acts : list action) (s : state) :
  store_ok fs MASTER_FILE →
  tasks_storable w name keywords →
  exec w target max_workers acts (init_state (BatchRunner_init fs name) keywords) = Some s →
  load_existing (output (runner s)) MASTER_FILE COLUMN_NAME = collected_urls (runner s)
  ∧ ∀ total, main_thread s = Returned total →
             total = size (load_existing (output (runner s)) MASTER_FILE COLUMN_NAME).
Proof.
  intros Hok Hw H.
  assert (Hm : mirrored name keywords s).
  { eapply exec_mirrored; [exact Hw| |exact H].
    unfold mirrored. cbn [init_state runner futures BatchRunner_init config_name
                          output collected_urls].
    split; [reflexivity|]. split; [exact Hok|]. split; [reflexivity|].
    apply submit_all_keywords. }
  destruct Hm as (_ & _ & Hl & _). split; [exact Hl|].
  intros total Ht. rewrite Hl.
  eapply (exec_invariant w target max_workers) in H;
    [|apply (init_invariant w (BatchRunner_init fs name) keywords); exact Hok].
  now destruct (inv_returned _ _ _ H total Ht).
Qed.

Lemma good_world_storable : tasks_storable good_world "channels" ["a"; "b"].
Proof.
  assert (E : ∀ j k u, (j = 0 ∧ u = u2) ∨ (j = 1 ∧ u = u3) →
            attempt good_world j "channels" k
            = Ok (map (_extract_channel_data channels_yaml)
                    [result_element (Some u1) "one"; result_element (Some u) "other"])
            ∧ urls_of (map (_extract_channel_data channels_yaml)
                         [result_element (Some u1) "one";
                          result_element (Some u) "other"]) = [u1; u])
    by (intros j k u [[-> ->]|[-> ->]]; split; reflexivity).
  intros j k results Hk Ha.
  destruct j as [|[|j]]; [| |discriminate Hk].
  - destruct (E 0 k u2) as [E1 E2]; [now left|].
    rewrite E1 in Ha. replace results with
      (map (_extract_channel_data channels_yaml)
         [result_element (Some u1) "one"; result_element (Some u2) "other"])
      by congruence.
    rewrite E2. by_evaluation.
  - destruct (E 1 k u3) as [E1 E2]; [now right|].
    rewrite E1 in Ha. replace results with
      (map (_extract_channel_data channels_yaml)
         [result_element (Some u1) "one"; result_element (Some u3) "other"])
      by congruence.
    rewrite E2. by_evaluation.
Qed.

Lemma disk_mirrors_collected_witness :
  store_ok (∅ : files) MASTER_FILE
  ∧ tasks_storable good_world "channels" ["a"; "b"]
  ∧ exec good_world 1000 2 second_first
      (init_state (BatchRunner_init ∅ "channels") ["a"; "b"]) = Some both_done
  ∧ load_existing (output (runner both_done)) MASTER_FILE COLUMN_NAME
    = collected_urls (runner both_done)
  ∧ ∀ total, main_thread both_done = Returned total →
             total = size (load_existing (output (runner both_done))
                             MASTER_FILE COLUMN_NAME).
Proof.
  assert (H1 : store_ok (∅ : files) MASTER_FILE)
    by (apply store_ok_absent; reflexivity).
  split; [exact H1|]. split; [exact good_world_storable|].
  split; [exact second_first_run|].
  exact (disk_mirrors_collected good_world 1000 2 ∅ "channels" ["a"; "b"]
           second_first both_done H1 good_world_storable second_first_run).
Defined.

(** *** Leaving the loop *)

Lemma init_loop_invariant (target : nat) (r : BatchRunner) (keywords : list string) :
  loop_invariant target (init_state r keywords).
Proof.
  split; cbn [init_state runner futures main_thread].
  - apply Forall_lookup. intros j f Hf. unfold submit_all in Hf.
    change (map ?g keywords) with (g <$> keywords) in Hf.
    rewrite list_lookup_fmap in Hf. destruct (keywords !! j); [|discriminate].
    injection Hf as <-. discriminate.
  - now intros [].
  - discriminate.
Qed.

Lemma step_loop_invariant (w : World) (target max_workers : nat) (a : action)
    (s s' : state) :
  loop_invariant target s → step w target max_workers a s = Some s' →
  loop_invariant target s'.
Proof.
  intros [Hy Hleft Hret] H. destruct a as [|i|i| |].
  - apply step_Start_inv in H as (_ & fs & Hfs & ->).
    split; cbn [runner futures main_thread].
    + apply Forall_lookup. intros j g Hg.
      destruct (start_next_lookup _ _ j Hfs) as [E|(f & Ef & Hp & E)];
        rewrite E in Hg.
      * rewrite Forall_lookup in Hy. exact (Hy j g Hg).
      * injection Hg as <-. cbn [consumed set_st st]. intros Hc.
        rewrite Forall_lookup in Hy. destruct (Hy j f Ef Hc) as [result Hr].
        congruence.
    + intros Hm. destruct (Hleft Hm) as [Ht|Hall]; [now left | right].
      apply Forall_lookup. intros j g Hg.
      destruct (start_next_lookup _ _ j Hfs) as [E|(f & Ef & Hp & E)];
        rewrite E in Hg; rewrite Forall_lookup in Hall.
      * exact (Hall j g Hg).
      * injection Hg as <-. exact (Hall j f Ef).
    + intros total Hm. destruct (Hret total Hm) as [_ Hall].
      rewrite start_next_none in Hfs; [discriminate|].
      eapply Forall_impl; [exact Hall|]. now intros f [? _].
  - apply step_Finish_inv in H as (f & Hf & Hrun & ->).
    destruct (scrape_keyword_effect w i (runner s) (kw f)) as (_ & Hsub & _).
    split; cbn [runner futures main_thread].
    + apply Forall_insert; [exact Hy|]. intros _. now eexists.
    + intros Hm. destruct (Hleft Hm) as [Ht|Hall].
      * left. etransitivity; [exact Ht|]. now apply subseteq_size.
      * right. apply Forall_insert; [exact Hall|].
        rewrite Forall_lookup in Hall. exact (Hall i f Hf).
    + intros total Hm. destruct (Hret total Hm) as [_ Hall].
      rewrite Forall_forall in Hall.
      apply list_elem_of_lookup_2 in Hf. destruct (Hall f Hf). contradiction.
  - apply step_Next_inv in H
      as (Hm & f & result & Hf & Hst & Hc & [(Ht & ->)|(_ & ->)]);
      split; cbn [runner futures main_thread].
    + unfold cancel_pending. change (map ?g ?l) with (g <$> l).
      apply Forall_fmap. apply Forall_insert.
      * eapply Forall_impl; [exact Hy|]. intros g Hg. cbn.
        destruct (is_pending g) eqn:Ep; [|exact Hg].
        cbn [consumed set_st st]. intros Hcg. destruct (Hg Hcg) as [res Hres].
        apply is_pending_spec in Ep. congruence.
      * cbn. change (is_pending (set_consumed f)) with (is_pending f).
        unfold is_pending. rewrite Hst. intros _. now exists result.
    + intros _. now left.
    + discriminate.
    + apply Forall_insert; [exact Hy|]. intros _. now exists result.
    + now intros [].
    + discriminate.
  - apply step_Stop_inv in H as (_ & Hall & ->).
    split; cbn [runner futures main_thread].
    + exact Hy.
    + intros _. right. apply Forall_forall. intros f Hin.
      apply list_elem_of_In in Hin. rewrite forallb_forall in Hall. now apply Hall.
    + discriminate.
  - apply step_Exit_inv in H as (Hm & Hall & ->).
    split; cbn [runner futures main_thread].
    + exact Hy.
    + intros _. apply Hleft. rewrite Hm. discriminate.
    + intros total [= <-]. split; [reflexivity|].
      apply Forall_forall. intros f Hin. apply list_elem_of_In in Hin.
      rewrite forallb_forall in Hall. specialize (Hall f Hin).
      unfold is_pending, is_running in Hall. destruct (st f); now split.
Qed.

Lemma exec_loop_invariant (w : World) (target max_workers : nat) (acts : list action)
    (s s' : state) :
  loop_invariant target s → exec w target max_workers acts s = Some s' →
  loop_invariant target s'.
Proof.
  revert s. induction acts as [|a acts IH]; intros s Hs H; cbn [exec] in H.
  - now injection H as <-.
  - destruct (step w target max_workers a s) as [s1|] eqn:E; [|discriminate].
    cbn in H. eapply IH; [|exact H]. eapply step_loop_invariant; eauto.
Qed.

(** X18.  A run that returns a total below the target has cancelled
    nothing: every submitted term has a future that finished and was
    yielded, and the total counts the URLs the runner started with together
    with what the tasks of all the terms scrape. *)
Theorem below_target_all_processed (w : World) (target max_workers : nat)
    (r : BatchRunner) (keywords : list string) (acts : list action) (s : state)
    (total : nat) :
  exec w target max_workers acts (init_state r keywords) = Some s →
  main_thread s = Returned total → total < target →
  all_processed (futures s)
  ∧ kw <$> futures s = keywords
  ∧ total = size (collected_urls r ∪ ⋃ (imap (scraped w (config_name r)) keywords)).
Proof.
  intros H Hm Hlt.
  destruct (exec_loop_invariant w target max_workers acts _ s
              (init_loop_invariant target r keywords) H) as [Hy Hleft Hret].
  destruct (Hret total Hm) as [Ht _].
  assert (Hall : Forall (λ f, consumed f = true) (futures s)).
  { destruct Hleft as [Hge|Hall]; [rewrite Hm; discriminate| |exact Hall]. lia. }
  assert (Hdone : all_processed (futures s)).
  { apply Forall_lookup. intros j f Hf.
    rewrite Forall_lookup in Hall, Hy. split; [exact (Hall j f Hf)|].
    exact (Hy j f Hf (Hall j f Hf)). }
  assert (Hk : kw <$> futures s = keywords).
  { rewrite (exec_keywords w target max_workers acts _ s H).
    apply submit_all_keywords. }
  split; [exact Hdone|]. split; [exact Hk|].
  destruct (exec_collected w target max_workers (collected_urls r) (config_name r)
              acts (init_state r keywords) s) as [_ Hc]; [reflexivity| |exact H|].
  - cbn [init_state runner futures]. rewrite contributions_submitted.
    now rewrite (right_id_L ∅ (∪)).
  - rewrite Ht, Hc, contributions_finished, Hk; [reflexivity|].
    eapply Forall_impl; [exact Hdone|]. now intros f [_ ?].
Qed.

Lemma below_target_all_processed_witness :
  exec good_world 1000 2 second_first (init_state fresh_runner ["a"; "b"])
  = Some both_done
  ∧ main_thread both_done = Returned 3 ∧ 3 < 1000
  ∧ all_processed (futures both_done)
  ∧ kw <$> futures both_done = ["a"; "b"]
  ∧ 3 = size (collected_urls fresh_runner
              ∪ ⋃ (imap (scraped good_world (config_name fresh_runner)) ["a"; "b"])).
Proof.
  assert (H2 : main_thread both_done = Returned 3) by (vm_compute; reflexivity).
  assert (H3 : 3 < 1000) by lia.
  split; [exact second_first_run|]. split; [exact H2|]. split; [exact H3|].
  exact (below_target_all_processed good_world 1000 2 fresh_runner ["a"; "b"]
           second_first both_done 3 second_first_run H2 H3).
Defined.

(** *** The keywords file *)

Lemma no_linebreak_cons (c : ascii) (s : string) :
  no_linebreak (String c s) = true
  ↔ Ascii.eqb c LF = false ∧ Ascii.eqb c CR = false ∧ no_linebreak s = true.
Proof.
  cbn [no_linebreak]. rewrite !andb_true_iff, !negb_true_iff. tauto.
Qed.

Lemma no_linebreak_lstrip (s : string) :
  no_linebreak s = true → no_linebreak (lstrip s) = true.
Proof.
  induction s as [|c s IH]; [easy|]. intros H. cbn [lstrip].
  destruct (isspace c); [|exact H].
  apply IH. now apply no_linebreak_cons in H.
Qed.

Lemma no_linebreak_rstrip (s : string) :
  no_linebreak s = true → no_linebreak (rstrip s) = true.
Proof.
  induction s as [|c s IH]; [easy|]. intros H.
  apply no_linebreak_cons in H as (Hlf & Hcr & Hs). cbn [rstrip].
  destruct (rstrip s) as [|d t].
  - destruct (isspace c); [reflexivity|]. now apply no_linebreak_cons.
  - apply no_linebreak_cons. repeat split; trivial. now apply IH.
Qed.

Lemma clean_spec (k : string) :
  clean k = true ↔ k ≠ EmptyString ∧ strip k = k ∧ no_linebreak k = true.
Proof.
  unfold clean. rewrite !andb_true_iff, truthy_true, String.eqb_eq. tauto.
Qed.

(** Every line that the reader delivers is free of line breaks up to its
    terminator. *)
Lemma lines_shape (p : bool) (content : string) :
  Forall (λ line, ∃ body, no_linebreak body = true
                          ∧ (line = body ∨ line = body +:+ nl))
         (readlines (universal_newlines p content)).
Proof.
  assert (Hnl : ∀ rest,
            Forall (λ line, ∃ body, no_linebreak body = true
                                    ∧ (line = body ∨ line = body +:+ nl)) rest →
            Forall (λ line, ∃ body, no_linebreak body = true
                                    ∧ (line = body ∨ line = body +:+ nl))
                   (readlines (String LF EmptyString) ++ rest)).
  { intros rest Hrest. constructor; [|exact Hrest].
    exists EmptyString. split; [reflexivity | now right]. }
  revert p. induction content as [|c s IH]; intros p; [constructor|].
  cbn [universal_newlines].
  destruct (Ascii.eqb c CR) eqn:Ecr; [exact (Hnl _ (IH true))|].
  destruct (Ascii.eqb c LF) eqn:Elf.
  { destruct p; [apply IH | exact (Hnl _ (IH false))]. }
  cbn [readlines]. rewrite Elf. specialize (IH false).
  destruct (readlines (universal_newlines false s)) as [|line rest].
  - constructor; [|constructor]. exists (String c EmptyString).
    split; [now apply no_linebreak_cons | now left].
  - inversion IH as [|? ? (body & Hb & Hl) Hrest]; subst.
    constructor; [|exact Hrest]. exists (String c body).
    split; [now apply no_linebreak_cons|].
    destruct Hl as [->| ->]; [now left | right; now rewrite append_cons].
Qed.

(** X19.  The terms read from a keywords file are clean: none is empty,
    each is stripped and free of line breaks; and a term is read exactly
    when it is not empty and is what some line of the file strips to. *)
Theorem read_keywords_clean (content : string) :
  Forall (λ k, clean k = true) (read_keywords content)
  ∧ ∀ k, k ∈ read_keywords content
         ↔ k ≠ EmptyString ∧ ∃ line, line ∈ file_lines content ∧ strip line = k.
Proof.
  split.
  - unfold read_keywords, file_lines.
    induction (lines_shape false content) as [|line lines (body & Hb & Hl) _ IH];
      [constructor|].
    cbn [omap list_omap]. cbv zeta.
    destruct (truthy (strip line)) eqn:Et; [|exact IH].
    constructor; [|exact IH]. apply clean_spec.
    split; [now apply truthy_true|]. split; [apply ExtractorLaws.strip_idem|].
    assert (Hs : strip line = strip body)
      by (destruct Hl as [->| ->]; [reflexivity | apply strip_nl]).
    rewrite Hs. unfold strip. now apply no_linebreak_rstrip, no_linebreak_lstrip.
  - intros k. unfold read_keywords. rewrite list_elem_of_omap. split.
    + intros (line & Hin & Hk). cbv zeta in Hk.
      destruct (truthy (strip line)) eqn:Et; [|discriminate].
      injection Hk as <-. split; [now apply truthy_true | now exists line].
    + intros (Hne & line & Hin & <-). exists line. split; [exact Hin|].
      cbv zeta. apply truthy_true in Hne. now rewrite Hne.
Qed.

Lemma file_lines_clean (p : bool) (items : list string) :
  Forall (λ k, clean k = true) items →
  readlines (universal_newlines p (lines_text items)) = map (λ k, k +:+ nl) items.
Proof.
  intros H. revert p. induction H as [|k items Hk _ IH]; intros p; [now destruct p|].
  apply clean_spec in Hk as (Hne & _ & Hlb).
  simpl. rewrite universal_newlines_clean by exact Hlb.
  change (nl +:+ lines_text items) with (String LF (lines_text items)).
  cbn [universal_newlines]. change (Ascii.eqb LF CR) with false.
  change (Ascii.eqb LF LF) with true. cbn iota.
  destruct k as [|c k]; [congruence|].
  change (String LF (universal_newlines false (lines_text items)))
    with (nl +:+ universal_newlines false (lines_text items)).
  rewrite readlines_line by exact Hlb. now rewrite IH.
Qed.

(** X20.  A keywords file that lists clean terms one per line is read back
    as that list, in order and with its repetitions. *)
Theorem read_keywords_written (keywords : list string) :
  Forall (λ k, clean k = true) keywords →
  read_keywords (lines_text keywords) = keywords.
Proof.
  intros H. unfold read_keywords, file_lines. rewrite (file_lines_clean false _ H).
  induction H as [|k items Hk _ IH]; [reflexivity|].
  apply clean_spec in Hk as (Hne & Hs & _).
  cbn [map omap list_omap]. cbv zeta. rewrite strip_nl, Hs.
  apply truthy_true in Hne. rewrite Hne. f_equal. exact IH.
Qed.

Lemma read_keywords_written_witness :
  Forall (λ k, clean k = true) ["lo-fi"; "rocq prover"; "lo-fi"]
  ∧ read_keywords (lines_text ["lo-fi"; "rocq prover"; "lo-fi"])
    = ["lo-fi"; "rocq prover"; "lo-fi"].
Proof.
  assert (H : Forall (λ k, clean k = true) ["lo-fi"; "rocq prover"; "lo-fi"])
    by (repeat constructor).
  split; [exact H|]. exact (read_keywords_written _ H).
Defined.

(** With no futures, the loop can only end and the run can only exit. *)
Lemma step_no_futures (w : World) (target max_workers : nat) (a : action)
    (s s' : state) :
  futures s = [] → step w target max_workers a s = Some s' →
  runner s' = runner s ∧ futures s' = []
  ∧ ((a = Stop ∧ main_thread s = Iterating ∧ main_thread s' = Joining)
     ∨ (a = Exit ∧ main_thread s = Joining ∧ ∃ total, main_thread s' = Returned total)).
Proof.
  intros Hf H. destruct a as [|i|i| |].
  - apply step_Start_inv in H as (_ & fs & Hfs & _). rewrite Hf in Hfs. discriminate.
  - apply step_Finish_inv in H as (f & Hl & _). rewrite Hf in Hl. discriminate.
  - apply step_Next_inv in H as (_ & f & result & Hl & _). rewrite Hf in Hl.
    discriminate.
  - apply step_Stop_inv in H as (Hm & _ & ->). cbn. split; [reflexivity|].
    split; [exact Hf|]. left. now repeat split.
  - apply step_Exit_inv in H as (Hm & _ & ->). cbn. split; [reflexivity|].
    split; [exact Hf|]. right. split; [reflexivity|]. split; [exact Hm|]. now eexists.
Qed.

(** X21.  A keywords file whose lines are all blank submits nothing: the
    run starts no task, the only steps it can take are the end of the loop
    and the exit, the runner is never changed, and the total it returns is
    the number of URLs collected before. *)
Theorem no_keywords_run (w : World) (target max_workers : nat) (r : BatchRunner)
    (content : string) :
  max_workers ≠ 0 →
  Forall (λ line, strip line = EmptyString) (file_lines content) →
  run_start r (Some content) max_workers = Submitted (init_state r [])
  ∧ (∀ acts s,
       exec w target max_workers acts (init_state r []) = Some s →
       runner s = r ∧ futures s = []
       ∧ (acts = [] ∨ acts = [Stop] ∨ acts = [Stop; Exit]))
  ∧ exec w target max_workers [Stop; Exit] (init_state r [])
    = Some {| runner := r; futures := [];
              main_thread := Returned (size (collected_urls r)) |}.
Proof.
  intros Hw Hblank. split; [|split].
  - unfold run_start. destruct (decide (max_workers = 0)); [contradiction|].
    do 2 f_equal. unfold read_keywords.
    induction Hblank as [|line lines Hl _ IH]; [reflexivity|].
    cbn [omap list_omap]. cbv zeta. now rewrite Hl.
  - intros acts s H.
    destruct acts as [|a acts]; [injection H as <-; cbn; split; [|split]; auto|].
    cbn [exec] in H.
    destruct (step w target max_workers a (init_state r [])) as [s1|] eqn:E1;
      [|discriminate].
    cbn in H.
    destruct (step_no_futures w target max_workers a (init_state r []) s1 eq_refl E1)
      as (Hr1 & Hf1 & [(-> & _ & Hm1)|(_ & Hm & _)]); [|discriminate].
    change (runner (init_state r [])) with r in Hr1.
    destruct acts as [|a acts]; [injection H as <-; split; [|split]; auto|].
    cbn [exec] in H.
    destruct (step w target max_workers a s1) as [s2|] eqn:E2; [|discriminate].
    cbn in H.
    destruct (step_no_futures w target max_workers a _ s2 Hf1 E2)
      as (Hr2 & Hf2 & [(_ & Hm & _)|(-> & _ & total & Hm2)]); [congruence|].
    destruct acts as [|a acts];
      [injection H as <-; split; [congruence|split]; auto|].
    cbn [exec] in H.
    destruct (step w target max_workers a s2) as [s3|] eqn:E3; [|discriminate].
    destruct (step_no_futures w target max_workers a _ s3 Hf2 E3)
      as (_ & _ & [(_ & Hm & _)|(_ & Hm & _)]); congruence.
  - reflexivity.
Qed.

Lemma no_keywords_run_witness :
  let content := String LF (String " " (String CR (String LF "   "))) in
  2 ≠ 0
  ∧ Forall (λ line, strip line = EmptyString) (file_lines content)
  ∧ run_start fresh_runner (Some content) 2 = Submitted (init_state fresh_runner [])
  ∧ (∀ acts s,
       exec good_world 5 2 acts (init_state fresh_runner []) = Some s →
       runner s = fresh_runner ∧ futures s = []
       ∧ (acts = [] ∨ acts = [Stop] ∨ acts = [Stop; Exit]))
  ∧ exec good_world 5 2 [Stop; Exit] (init_state fresh_runner [])
    = Some {| runner := fresh_runner; futures := [];
              main_thread := Returned (size (collected_urls fresh_runner)) |}.
Proof.
  intros content.
  assert (H1 : 2 ≠ 0) by discriminate.
  assert (H2 : Forall (λ line, strip line = EmptyString) (file_lines content))
    by (repeat constructor).
  split; [exact H1|]. split; [exact H2|].
  exact (no_keywords_run good_world 5 2 fresh_runner content H1 H2).
Defined.

(** *** What a task hands to the store *)

Lemma attempt_extract (w : World) (task : nat) (name keyword : string)
    (results : list (gmap string string)) :
  attempt w task name keyword = Ok results →
  ∃ driver config, extract driver config keyword = Ok results.
Proof.
  unfold attempt. intros H.
  apply ExtractorProperties.bind_Ok in H as (scraper & _ & H).
  unfold scrape in H.
  apply ExtractorProperties.bind_Ok in H as (driver & _ & H).
  cbv zeta in H. destruct (_extractor_class scraper).
  apply ExtractorProperties.bind_Ok in H as (_ & _ & H).
  now exists driver, (config scraper).
Qed.

Lemma extract_records (driver : WebDriver) (config : Config) (query : string)
    (channels : list (gmap string string)) :
  extract driver config query = Ok channels →
  Forall (λ ch, ∃ url, ch !! "channel_url" = Some url ∧ truthy url = true
                       ∧ startswith url "http" = true) channels.
Proof.
  intros H. apply ExtractorProperties.extract_inv in H.
  destruct H as [->|[items ->]]; [constructor|].
  unfold collect_channels. rewrite ExtractorLaws.collect_filter_map. cbn [app].
  apply Forall_forall. intros ch Hin.
  apply list_elem_of_filter in Hin as [Hok Hin].
  apply list_elem_of_fmap in Hin as (item & -> & _).
  unfold get_truthy in Hok. rewrite ExtractorProperties.channel_url_lookup in Hok.
  cbv zeta in Hok.
  eexists. split; [apply ExtractorProperties.channel_url_lookup|]. cbv zeta.
  split; [exact Hok | now apply ExtractorLaws.normalised_http].
Qed.

(** X22.  The filter of [_scrape_keyword] drops nothing: when the scrape of
    a task succeeds, every record it returns hands its URL to the store, in
    order, and each of these URLs is absolute, so none is empty and none is
    the header of the key file. *)
Theorem task_urls_absolute (w : World) (task : nat) (name keyword : string)
    (results : list (gmap string string)) :
  attempt w task name keyword = Ok results →
  Some <$> urls_of results = (λ r, r !! "channel_url") <$> results
  ∧ Forall (λ u, startswith u "http" = true ∧ u ≠ EmptyString ∧ u ≠ COLUMN_NAME)
           (urls_of results).
Proof.
  intros H. apply attempt_extract in H as (driver & config & H).
  apply extract_records in H.
  induction H as [|ch channels (url & Hu & Ht & Hh) _ [IH1 IH2]];
    [split; [reflexivity | constructor]|].
  unfold urls_of in *. cbn [omap list_omap fmap list_fmap]. rewrite Hu, Ht.
  split.
  - cbn [fmap list_fmap]. f_equal. exact IH1.
  - constructor; [|exact IH2]. split; [exact Hh|].
    split; intros ->; discriminate.
Qed.

Lemma task_urls_absolute_witness :
  let results := map (_extract_channel_data channels_yaml) (two_channels 0) in
  attempt good_world 0 "channels" "a" = Ok results
  ∧ Some <$> urls_of results = (λ r, r !! "channel_url") <$> results
  ∧ Forall (λ u, startswith u "http" = true ∧ u ≠ EmptyString ∧ u ≠ COLUMN_NAME)
           (urls_of results).
Proof.
  intros results.
  assert (H : attempt good_world 0 "channels" "a" = Ok results) by reflexivity.
  split; [exact H|].
  exact (task_urls_absolute good_world 0 "channels" "a" results H).
Defined.

(** X23.  The count that a task reports and the growth of the key file: on
    a store whose key file is absent or line-terminated, when the scrape
    succeeds with URLs that the store keeps as they are, the task reports
    no error and a count that is at least the number of keys it added to
    the file, and exactly that number when the scraped URLs are pairwise
    distinct. *)
Theorem task_count_bounds (w : World) (task : nat) (self : BatchRunner)
    (keyword : string) (results : list (gmap string string)) :
  store_ok (output self) MASTER_FILE →
  attempt w task (config_name self) keyword = Ok results →
  Forall (λ u, storable COLUMN_NAME u = true) (urls_of results) →
  ∃ count,
    (_scrape_keyword w task self keyword).2 = (keyword, count, None)
    ∧ size (load_existing (output (_scrape_keyword w task self keyword).1)
              MASTER_FILE COLUMN_NAME)
      ≤ size (load_existing (output self) MASTER_FILE COLUMN_NAME) + count
    ∧ (NoDup (urls_of results) →
       size (load_existing (output (_scrape_keyword w task self keyword).1)
               MASTER_FILE COLUMN_NAME)
       = size (load_existing (output self) MASTER_FILE COLUMN_NAME) + count).
Proof.
  intros Hok Ha Hst.
  destruct (scrape_keyword_cases w task self keyword)
    as [(e & Ha' & _)|[(_ & ->)|(results' & Ha' & ->)]]; [congruence| |].
  { exists 0. cbn [fst snd]. split; [reflexivity|]. split; [lia|]. intros _. lia. }
  rewrite Ha in Ha'. injection Ha' as <-. cbn [fst snd output].
  set (existing := load_existing (output self) MASTER_FILE COLUMN_NAME).
  set (items := new_items existing (urls_of results) true).
  assert (Hcount : (append (output self) (urls_of results) MASTER_FILE COLUMN_NAME true).2
                   = length items).
  { destruct (append_cases (output self) (urls_of results) MASTER_FILE COLUMN_NAME true)
      as [[E ->]|[_ ->]]; cbn [snd]; [|reflexivity].
    unfold items, existing. now rewrite E. }
  assert (Hload : load_existing
                    (append (output self) (urls_of results) MASTER_FILE COLUMN_NAME true).1
                    MASTER_FILE COLUMN_NAME
                  = existing ∪ list_to_set items).
  { rewrite load_append_exact by (trivial; reflexivity). fold existing.
    symmetry. apply list_to_set_new_items. }
  exists (length items). rewrite Hcount, Hload. split; [reflexivity|]. split.
  - rewrite size_union_alt.
    pose proof (subseteq_size (list_to_set items ∖ existing) (list_to_set items)) as H1.
    pose proof (size_list_to_set_le items) as H2.
    assert (list_to_set items ∖ existing ⊆ (list_to_set items : gset string))
      by apply subseteq_difference_l, reflexivity.
    specialize (H1 ltac:(assumption)). lia.
  - intros Hnd. rewrite size_union.
    + f_equal. apply size_list_to_set. unfold items, new_items. now apply NoDup_filter.
    + apply elem_of_disjoint. intros u Hu Hin.
      apply elem_of_list_to_set in Hin. unfold items, new_items in Hin.
      now apply list_elem_of_filter in Hin as [Hnot _].
Qed.

Lemma task_count_bounds_witness :
  let results := map (_extract_channel_data channels_yaml) (two_channels 0) in
  store_ok (output fresh_runner) MASTER_FILE
  ∧ attempt good_world 0 (config_name fresh_runner) "a" = Ok results
  ∧ Forall (λ u, storable COLUMN_NAME u = true) (urls_of results)
  ∧ ∃ count,
      (_scrape_keyword good_world 0 fresh_runner "a").2 = ("a", count, None)
      ∧ size (load_existing (output (_scrape_keyword good_world 0 fresh_runner "a").1)
                MASTER_FILE COLUMN_NAME)
        ≤ size (load_existing (output fresh_runner) MASTER_FILE COLUMN_NAME) + count
      ∧ (NoDup (urls_of results) →
         size (load_existing (output (_scrape_keyword good_world 0 fresh_runner "a").1)
                 MASTER_FILE COLUMN_NAME)
         = size (load_existing (output fresh_runner) MASTER_FILE COLUMN_NAME) + count).
Proof.
  intros results.
  assert (H1 : store_ok (output fresh_runner) MASTER_FILE)
    by (apply store_ok_absent; reflexivity).
  assert (H2 : attempt good_world 0 (config_name fresh_runner) "a" = Ok results)
    by reflexivity.
  assert (H3 : Forall (λ u, storable COLUMN_NAME u = true) (urls_of results)).
  { replace (urls_of results) with [u1; u2] by reflexivity. by_evaluation. }
  split; [exact H1|]. split; [exact H2|]. split; [exact H3|].
  exact (task_count_bounds good_world 0 fresh_runner "a" results H1 H2 H3).
Defined.

(** Why the key file has to be line-terminated (X17, X23): when its last
    line has no terminator, the first URL that a task writes is joined to
    that line.  The task reports one new key, the collected URLs gain one,
    and the keys on disk are neither those collected nor more than
    before. *)
Example unterminated_store :
  let fs : files := {[ MASTER_FILE := COLUMN_NAME +:+ nl +:+ u1 ]} in
  let out := _scrape_keyword good_world 0 (BatchRunner_init fs "channels") "a" in
  collected_urls (BatchRunner_init fs "channels") = {[ u1 ]}
  ∧ out.2 = ("a", 1, None)
  ∧ collected_urls out.1 = {[ u1; u2 ]}
  ∧ load_existing (output out.1) MASTER_FILE COLUMN_NAME = {[ u1 +:+ u2 ]}.
Proof.
  intros fs out. repeat split; by_evaluation.
Qed.

End RunLaws.

(** ** Failure isolation in the batch run *)
Module RunIsolation.
Import Text TextFacts Py Output OutputFacts Extractors Scrapers Batch BatchFacts.
Import Collected Samples RunLaws.

(** The comprehension of [_scrape_keyword] keeps the [channel_url] of every
    record that has one that is not empty. *)
Lemma elem_of_urls_of (results : list (gmap string string)) (u : string) :
  u ∈ urls_of results
  ↔ ∃ record, record ∈ results ∧ record !! "channel_url" = Some u ∧ u ≠ EmptyString.
Proof.
  unfold urls_of. rewrite list_elem_of_omap. split.
  - intros (record & Hin & H). exists record. split; [exact Hin|].
    destruct (record !! "channel_url") as [v|]; [|discriminate].
    destruct (truthy v) eqn:Et; [|discriminate]. injection H as ->.
    split; [reflexivity | now apply truthy_true].
  - intros (record & Hin & Hu & Hne). exists record. split; [exact Hin|].
    rewrite Hu. apply truthy_true in Hne. now rewrite Hne.
Qed.

Lemma init_task_invariant (w : World) (r : BatchRunner) (keywords : list string) :
  task_invariant w (config_name r) (init_state r keywords).
Proof.
  split; cbn [init_state runner futures main_thread].
  - reflexivity.
  - intros _. apply Forall_forall. intros f Hin.
    apply list_elem_of_lookup in Hin as [j Hj].
    apply submit_all_lookup in Hj. congruence.
  - intros j f result Hl Hst. apply submit_all_lookup in Hl. congruence.
Qed.

(** The results of finished futures are kept by a change of the futures
    that keeps the finished ones. *)
Lemma results_finished_in (w : World) (name : string) (fs fs' : list future) :
  finished_in fs' fs →
  (∀ j f result,
     fs !! j = Some f → st f = FINISHED result →
     ∃ self, config_name self = name
             ∧ result = (_scrape_keyword w j self (kw f)).2) →
  ∀ j f result,
    fs' !! j = Some f → st f = FINISHED result →
    ∃ self, config_name self = name
            ∧ result = (_scrape_keyword w j self (kw f)).2.
Proof.
  intros Hfin H j f' result Hl Hst.
  destruct (Hfin j f' result Hl Hst) as (f & Hf & Hk & Hst').
  rewrite <- Hk. exact (H j f result Hf Hst').
Qed.

Lemma step_task_invariant (w : World) (target max_workers : nat) (name : string)
    (a : action) (s s' : state) :
  task_invariant w name s → step w target max_workers a s = Some s' →
  task_invariant w name s'.
Proof.
  intros [Hname Hiter Hres] H. destruct a as [|i|i| |].
  - apply step_Start_inv in H as (_ & fs & Hfs & ->).
    split; cbn [runner futures main_thread].
    + exact Hname.
    + intros Hm. eapply start_next_Forall; [|exact (Hiter Hm)|exact Hfs].
      intros f _. discriminate.
    + apply (results_finished_in w name (futures s)); [|exact Hres].
      now apply start_next_finished.
  - apply step_Finish_inv in H as (f & Hf & Hrun & ->).
    destruct (scrape_keyword_effect w i (runner s) (kw f)) as (Hn & _).
    split; cbn [runner futures main_thread].
    + congruence.
    + intros Hm. apply Forall_insert; [exact (Hiter Hm) | discriminate].
    + intros j g result Hl Hst.
      apply list_lookup_insert_Some in Hl as [(-> & <- & _)|(_ & Hl)].
      * cbn [st set_st] in Hst. injection Hst as <-.
        exists (runner s). now split.
      * exact (Hres j g result Hl Hst).
  - apply step_Next_inv in H
      as (Hm & f & result & Hf & Hst & Hc & [(_ & ->)|(_ & ->)]);
      split; cbn [runner futures main_thread].
    + exact Hname.
    + discriminate.
    + apply (results_finished_in w name (futures s)); [|exact Hres].
      eapply finished_in_trans;
        [apply cancel_pending_finished | now apply insert_consumed_finished].
    + exact Hname.
    + intros _. apply Forall_insert; [exact (Hiter Hm)|].
      change (st (set_consumed f)) with (st f). congruence.
    + apply (results_finished_in w name (futures s)); [|exact Hres].
      now apply insert_consumed_finished.
  - apply step_Stop_inv in H as (_ & _ & ->).
    split; cbn [runner futures main_thread]; [exact Hname | discriminate | exact Hres].
  - apply step_Exit_inv in H as (_ & _ & ->).
    split; cbn [runner futures main_thread]; [exact Hname | discriminate | exact Hres].
Qed.

Lemma exec_task_invariant (w : World) (target max_workers : nat) (name : string)
    (acts : list action) (s s' : state) :
  task_invariant w name s → exec w target max_workers acts s = Some s' →
  task_invariant w name s'.
Proof.
  revert s. induction acts as [|a acts IH]; intros s Hs H; cbn [exec] in H.
  - now injection H as <-.
  - destruct (step w target max_workers a s) as [s1|] eqn:E; [|discriminate].
    cbn in H. eapply IH; [|exact H]. eapply step_task_invariant; eauto.
Qed.

(** With at least one worker, a run can always be continued until it has
    returned. *)
Lemma run_completes (w : World) (target max_workers : nat) (name : string) (s : state) :
  1 ≤ max_workers → task_invariant w name s →
  ∃ acts s' total,
    exec w target max_workers acts s = Some s' ∧ main_thread s' = Returned total.
Proof.
  intros Hw. remember (steps_left s) as n eqn:Hn. revert s Hn.
  induction n as [n IH] using lt_wf_ind. intros s Hn Hinv.
  destruct (progress w target max_workers s Hw (task_iterating _ _ _ Hinv))
    as [[total Ht]|(a & s1 & Hstep)].
  - exists [], s, total. now split.
  - pose proof (step_steps_left w target max_workers a s s1 Hstep) as Hlt.
    destruct (IH (steps_left s1) ltac:(lia) s1 eq_refl
                (step_task_invariant w target max_workers name a s s1 Hinv Hstep))
      as (acts & s' & total & Hexec & Ht).
    exists (a :: acts), s', total. split; [|exact Ht].
    cbn [exec]. rewrite Hstep. exact Hexec.
Qed.

(** C5.  Failure isolation.  A task whose scrape raises returns
    [(keyword, 0, error)] and leaves the runner as it was.  Whatever the
    tasks do, a run with at least one worker can be carried to its return,
    takes at most [3 * |keywords| + 2] steps, is never stuck before it has
    returned, and returns with the size of the collected set as its
    total.  In every
    state of the run, a finished future belongs to the submitted term at
    its position; if the scrape of that term raises, the result of the
    future is [(keyword, 0, error)]; if it succeeds, the [channel_url] of
    every record it returned that has one is in the collected set,
    whatever the other tasks did, and so are, on a store whose key file was
    absent or line-terminated at the start, the storable ones among the
    keys on disk.  A run that returns below the target has finished the
    task of every submitted term. *)
Theorem failure_isolation (w : World) (target max_workers : nat) (r : BatchRunner)
    (keywords : list string) :
  1 ≤ max_workers →
  (∀ task self keyword e,
     attempt w task (config_name self) keyword = Raise e →
     _scrape_keyword w task self keyword = (self, (keyword, 0, Some e)))
  ∧ (∃ acts s total,
       exec w target max_workers acts (init_state r keywords) = Some s
       ∧ main_thread s = Returned total)
  ∧ ∀ acts s,
      exec w target max_workers acts (init_state r keywords) = Some s →
      length acts ≤ 3 * length keywords + 2
      ∧ ((∃ total, main_thread s = Returned total
                   ∧ total = size (collected_urls (runner s)))
         ∨ ∃ a s', step w target max_workers a s = Some s')
      ∧ (∀ j f result,
           futures s !! j = Some f → st f = FINISHED result →
           keywords !! j = Some (kw f)
           ∧ (∀ e, attempt w j (config_name r) (kw f) = Raise e →
                   result = (kw f, 0, Some e))
           ∧ ∀ results record u,
               attempt w j (config_name r) (kw f) = Ok results →
               record ∈ results → record !! "channel_url" = Some u →
               u ≠ EmptyString →
               u ∈ collected_urls (runner s)
               ∧ (store_ok (output r) MASTER_FILE → storable COLUMN_NAME u = true →
                  u ∈ load_existing (output (runner s)) MASTER_FILE COLUMN_NAME))
      ∧ ∀ total,
          main_thread s = Returned total → total < target →
          ∀ j k, keywords !! j = Some k →
                 ∃ f result, futures s !! j = Some f ∧ kw f = k
                             ∧ st f = FINISHED result.
Proof.
  intros Hw.
  assert (Htask : ∀ task self keyword e,
            attempt w task (config_name self) keyword = Raise e →
            _scrape_keyword w task self keyword = (self, (keyword, 0, Some e))).
  { intros task self keyword e Ha. unfold _scrape_keyword. now rewrite Ha. }
  split; [exact Htask|].
  split; [exact (run_completes w target max_workers _ _ Hw
                   (init_task_invariant w r keywords))|].
  intros acts s Hexec.
  destruct (exec_task_invariant w target max_workers _ acts _ s
              (init_task_invariant w r keywords) Hexec) as [Hname Hiter Hres].
  destruct (exec_loop_invariant w target max_workers acts _ s
              (init_loop_invariant target r keywords) Hexec) as [Hy Hleft Hret].
  assert (Hk : kw <$> futures s = keywords).
  { rewrite (exec_keywords w target max_workers acts _ s Hexec).
    apply submit_all_keywords. }
  split; [|split; [|split]].
  - pose proof (exec_steps_left w target max_workers acts _ s Hexec) as Hsteps.
    rewrite init_steps_left in Hsteps. lia.
  - destruct (progress w target max_workers s Hw Hiter) as [[total Ht]|Hstep].
    + left. exists total. split; [exact Ht | now apply Hret].
    + now right.
  - intros j f result Hf Hst.
    split; [now rewrite <- Hk, list_lookup_fmap, Hf|]. split.
    + intros e He. destruct (Hres j f result Hf Hst) as (self & Hn & ->).
      rewrite <- Hn in He. now rewrite (Htask j self (kw f) e He).
    + intros results record u Ha Hin Hu Hne.
      assert (Hurl : u ∈ urls_of results)
        by (apply elem_of_urls_of; now exists record).
      split.
      * destruct (exec_collected w target max_workers (collected_urls r)
                    (config_name r) acts (init_state r keywords) s) as [_ Hc];
          [reflexivity| |exact Hexec|].
        { cbn [init_state runner futures]. rewrite contributions_submitted.
          now rewrite (right_id_L ∅ (∪)). }
        rewrite Hc. apply elem_of_union_r, elem_of_contributions.
        exists j, f. split; [exact Hf|]. unfold contribution, scraped.
        rewrite Hst, Ha. now apply elem_of_list_to_set.
      * intros Hok Hstorable.
        pose proof (exec_invariant w target max_workers _ _ _ _
                      (init_invariant w r keywords Hok) Hexec) as [_ _ _ Hmerged _].
        now apply (Hmerged j f result results u Hf Hst Ha Hurl).
  - intros total Ht Hlt j k Hj.
    destruct (Hret total Ht) as [Hsize _].
    assert (Hall : Forall (λ f, consumed f = true) (futures s)).
    { destruct Hleft as [Hge|Hall]; [rewrite Ht; discriminate| |exact Hall]. lia. }
    rewrite <- Hk, list_lookup_fmap in Hj.
    destruct (futures s !! j) as [f|] eqn:Ef; [|discriminate].
    injection Hj as Hj. rewrite Forall_lookup in Hall, Hy.
    destruct (Hy j f Ef (Hall j f Ef)) as [result Hst].
    now exists f, result.
Qed.

Lemma failure_isolation_witness :
  1 ≤ 2
  ∧ (∀ task self keyword e,
       attempt flaky_world task (config_name self) keyword = Raise e →
       _scrape_keyword flaky_world task self keyword = (self, (keyword, 0, Some e)))
  ∧ (∃ acts s total,
       exec flaky_world 1000 2 acts (init_state fresh_runner ["a"; "b"]) = Some s
       ∧ main_thread s = Returned total)
  ∧ ∀ acts s,
      exec flaky_world 1000 2 acts (init_state fresh_runner ["a"; "b"]) = Some s →
      length acts ≤ 3 * length ["a"; "b"] + 2
      ∧ ((∃ total, main_thread s = Returned total
                   ∧ total = size (collected_urls (runner s)))
         ∨ ∃ a s', step flaky_world 1000 2 a s = Some s')
      ∧ (∀ j f result,
           futures s !! j = Some f → st f = FINISHED result →
           ["a"; "b"] !! j = Some (kw f)
           ∧ (∀ e, attempt flaky_world j (config_name fresh_runner) (kw f) = Raise e →
                   result = (kw f, 0, Some e))
           ∧ ∀ results record u,
               attempt flaky_world j (config_name fresh_runner) (kw f) = Ok results →
               record ∈ results → record !! "channel_url" = Some u →
               u ≠ EmptyString →
               u ∈ collected_urls (runner s)
               ∧ (store_ok (output fresh_runner) MASTER_FILE →
                  storable COLUMN_NAME u = true →
                  u ∈ load_existing (output (runner s)) MASTER_FILE COLUMN_NAME))
      ∧ ∀ total,
          main_thread s = Returned total → total < 1000 →
          ∀ j k, ["a"; "b"] !! j = Some k →
                 ∃ f result, futures s !! j = Some f ∧ kw f = k
                             ∧ st f = FINISHED result.
Proof.
  assert (H1 : 1 ≤ 2) by lia.
  split; [exact H1|].
  exact (failure_isolation flaky_world 1000 2 fresh_runner ["a"; "b"] H1).
Defined.

End RunIsolation.
